(** * GraphRAG ingestion pipeline: PDF pages to chunks to graph records

    A shallow embedding of [src/utils/pdf_utils.py] and
    [src/ingest/ingest_pdfs_to_neo4j.py].

    Python [int] is [Z], Python [str] is [string] (one character per
    code point below 256), a manifest entry (a [dict] read by
    [json.load]) is a [gmap string value].  The libraries the code calls
    (pypdf, the text splitter, the file system, [json.load], [int] on a
    string) are variables of the sections below; the graph store is a
    small model of the Cypher statements the code sends.

    Exceptions are the instances of [Exception]; every manifest entry is
    a dict, as the annotation [List[Dict[str, Any]]] says; opening the
    connection to the store is not modelled, and the store itself never
    fails. *)

From Stdlib Require Import Ascii String ZArith Sorted.
From stdpp Require Import base strings list sorting gmap.

Local Open Scope Z_scope.

(** ** Python strings: whitespace and [str.strip] *)

(** [str.isspace] on one character, for code points below 256:
    TAB..CR, FS..US and space, NEL and NBSP. *)
Definition py_isspace (c : ascii) : bool :=
  let n := Z.of_N (N_of_ascii c) in
  ((9 <=? n) && (n <=? 13)) || ((28 <=? n) && (n <=? 32))
  || (n =? 133) || (n =? 160).

Fixpoint lstrip (s : string) : string :=
  match s with
  | EmptyString => EmptyString
  | String c r => if py_isspace c then lstrip r else s
  end.

Fixpoint rstrip (s : string) : string :=
  match s with
  | EmptyString => EmptyString
  | String c r =>
      match rstrip r with
      | EmptyString => if py_isspace c then EmptyString else String c EmptyString
      | r' => String c r'
      end
  end.

(** [s.strip()] *)
Definition strip (s : string) : string := lstrip (rstrip s).

(** Truth value of a [str]: [bool(s)]. *)
Definition str_truthy (s : string) : bool :=
  match s with EmptyString => false | String _ _ => true end.

(** Every character of [s] is whitespace (true of the empty string). *)
Fixpoint all_space (s : string) : bool :=
  match s with
  | EmptyString => true
  | String c r => py_isspace c && all_space r
  end.

(** ** Exceptions and results *)

(** Instances of [Exception] the code can meet. *)
Inductive exn :=
| FileNotFoundError (msg : string)
| TypeError
| ValueError (msg : string)
| PyException (name : string).

Inductive result (A : Type) :=
| Ok (a : A)
| Raise (e : exn).
Arguments Ok {A} a.
Arguments Raise {A} e.

(** ** [chunk_pages] *)

(** The dict [{"page": i, "idx": j, "text": part}]. *)
Record chunk := Chunk { page : Z; idx : Z; text : string }.

(** [splitter.split_text] of a splitter that has been constructed. *)
Definition splitter := string -> list string.

Section Chunker.

(** [RecursiveCharacterTextSplitter(chunk_size=..., chunk_overlap=...)]:
    the constructor checks its arguments and may raise. *)
Variable RecursiveCharacterTextSplitter : Z -> Z -> result splitter.

(** The inner loop, [for j, part in enumerate(parts)], from counter [j]. *)
Fixpoint chunk_parts (i j : Z) (parts : list string) : list chunk :=
  match parts with
  | [] => []
  | part :: rest =>
      if negb (str_truthy (strip part))
      then chunk_parts i (j + 1) rest
      else Chunk i j part :: chunk_parts i (j + 1) rest
  end.

(** The outer loop, [for i, page_text in enumerate(pages, start=1)],
    from counter [i]. *)
Fixpoint chunk_pages_from (split_text : splitter) (i : Z)
    (pages : list string) : list chunk :=
  match pages with
  | [] => []
  | page_text :: rest =>
      if negb (str_truthy page_text)
      then chunk_pages_from split_text (i + 1) rest
      else chunk_parts i 0 (split_text page_text)
           ++ chunk_pages_from split_text (i + 1) rest
  end.

Definition chunk_pages (pages : list string) (chunk_size chunk_overlap : Z)
    : result (list chunk) :=
  match RecursiveCharacterTextSplitter chunk_size chunk_overlap with
  | Ok split_text => Ok (chunk_pages_from split_text 1 pages)
  | Raise e => Raise e
  end.

End Chunker.

(** ** Python values read from the manifest *)

(** A [float]: a finite binary fraction [m * 2^e], an infinity or NaN. *)
Inductive pyfloat :=
| Finite (m e : Z)
| Infinity (negative : bool)
| NaN.

(** What [json.load] produces. *)
#[warnings="-register-all"]
Inductive value :=
| VNone
| VBool (b : bool)
| VInt (n : Z)
| VFloat (f : pyfloat)
| VStr (s : string)
| VList (l : list value)
| VDict (l : list (string * value)).

Global Instance pyfloat_eq_dec : EqDecision pyfloat.
Proof. solve_decision. Defined.

Fixpoint value_eq_dec (a b : value) : {a = b} + {a <> b}.
Proof.
  decide equality.
  - apply Bool.bool_dec.
  - apply Z.eq_dec.
  - apply pyfloat_eq_dec.
  - apply string_dec.
  - apply (List.list_eq_dec value_eq_dec).
  - apply List.list_eq_dec. intros [k1 v1] [k2 v2].
    destruct (string_dec k1 k2) as [->|Hk]; [|right; congruence].
    destruct (value_eq_dec v1 v2) as [->|Hv]; [left; reflexivity|right; congruence].
Defined.

Global Instance value_eq_decision : EqDecision value := value_eq_dec.

(** [bool(v)] *)
Definition truthy (v : value) : bool :=
  match v with
  | VNone => false
  | VBool b => b
  | VInt n => negb (n =? 0)
  | VFloat (Finite m _) => negb (m =? 0)
  | VFloat _ => true
  | VStr s => str_truthy s
  | VList l => match l with [] => false | _ => true end
  | VDict l => match l with [] => false | _ => true end
  end.

(** [a or b], both operands already evaluated. *)
Definition py_or (a b : value) : value := if truthy a then a else b.

(** [item.get(key)] *)
Definition get (item : gmap string value) (key : string) : value :=
  default VNone (item !! key).

(** ** Paths and numbers *)

(** [os.path.basename] on a POSIX path: what follows the last slash. *)
Fixpoint basename_from (acc s : string) : string :=
  match s with
  | EmptyString => acc
  | String c r =>
      if Ascii.eqb c "/"%char then basename_from EmptyString r
      else basename_from (acc +:+ String c EmptyString) r
  end.

Definition basename (p : string) : string := basename_from EmptyString p.

(** [os.path.basename(v)]: [os.fspath] refuses what is not a path. *)
Definition os_path_basename (v : value) : result value :=
  match v with
  | VStr s => Ok (VStr (basename s))
  | _ => Raise TypeError
  end.

(** [int(f)] for a float: truncation towards zero; an infinity or NaN
    raises. *)
Definition int_of_float (f : pyfloat) : option Z :=
  match f with
  | Finite m e => Some (if 0 <=? e then m * 2 ^ e else Z.quot m (2 ^ (- e)))
  | _ => None
  end.

(** ** The graph store *)

(** A [:Document] node. *)
Record DocumentNode := Document {
  d_path : value;
  d_title : value;
  d_file_name : value;
  d_page_count : Z;
  d_mime_type : value
}.

(** A [:Chunk] node. *)
Record ChunkNode := ChunkN {
  c_doc_path : value;
  c_page : Z;
  c_idx : Z;
  c_content : string
}.

(** Nodes are never deleted, so a node's identity is its position in its
    list; a [HAS_CHUNK] relationship is a pair (document id, chunk id). *)
Record Graph := MkGraph {
  documents : list DocumentNode;
  chunk_nodes : list ChunkNode;
  has_chunk : list (nat * nat)
}.

Definition empty_graph : Graph := MkGraph [] [] [].

Global Instance DocumentNode_eq_dec : EqDecision DocumentNode.
Proof. solve_decision. Defined.
Global Instance ChunkNode_eq_dec : EqDecision ChunkNode.
Proof. solve_decision. Defined.

(** The parameters [$path], [$title], [$file_name], [$page_count] and
    [$mime_type] of both statements. *)
Record doc_params := DocParams {
  p_path : value;
  p_title : value;
  p_file_name : value;
  p_page_count : Z;
  p_mime_type : value
}.

(** The two statements [ingest_from_json] sends. *)
Inductive query :=
| RegisterDocument (p : doc_params)
| UpsertDocument (p : doc_params) (chunks : list chunk).

(** Positions, counted from [i], of the elements of [l] that satisfy [f]. *)
Fixpoint find_ids {A} (f : A -> bool) (i : nat) (l : list A) : list nat :=
  match l with
  | [] => []
  | x :: r => if f x then i :: find_ids f (S i) r else find_ids f (S i) r
  end.

(** The pattern [(d:Document {path: $path})]. *)
Definition doc_matches (path : value) (d : DocumentNode) : bool :=
  bool_decide (d_path d = path).

(** [SET d.title = $title, d.file_name = $file_name,
     d.page_count = $page_count, d.mime_type = $mime_type] *)
Definition set_document (p : doc_params) (d : DocumentNode) : DocumentNode :=
  Document (d_path d) (p_title p) (p_file_name p) (p_page_count p)
    (p_mime_type p).

(** [MERGE (n {...}) SET ...] on the nodes of one label: when no node
    matches the pattern, one is created with the pattern's properties;
    every matching node is then updated. *)
Definition merge_nodes {A} (matches : A -> bool) (create : A)
    (update : A -> A) (nodes : list A) : list A :=
  let nodes' := if existsb matches nodes then nodes else nodes ++ [create] in
  map (fun n => if matches n then update n else n) nodes'.

(** [MERGE (d:Document {path: $path}) SET d.title = $title, ...] *)
Definition merge_document (p : doc_params) (ds : list DocumentNode)
    : list DocumentNode :=
  merge_nodes (doc_matches (p_path p))
    (Document (p_path p) VNone VNone 0 VNone) (set_document p) ds.

(** The pattern [(c:Chunk {doc_path: $path, page: chunk.page, idx: chunk.idx})]. *)
Definition chunk_matches (path : value) (ch : chunk) (c : ChunkNode) : bool :=
  bool_decide (c_doc_path c = path) && (c_page c =? page ch)
  && (c_idx c =? idx ch).

(** [SET c.content = chunk.text] *)
Definition set_content (ch : chunk) (c : ChunkNode) : ChunkNode :=
  ChunkN (c_doc_path c) (c_page c) (c_idx c) (text ch).

(** [MERGE (c:Chunk {...}) SET c.content = chunk.text] *)
Definition merge_chunk (path : value) (ch : chunk) (cs : list ChunkNode)
    : list ChunkNode :=
  merge_nodes (chunk_matches path ch)
    (ChunkN path (page ch) (idx ch) EmptyString) (set_content ch) cs.

(** [MERGE (d)-[:HAS_CHUNK]->(c)] for bound [d] and [c]. *)
Definition merge_rel (d c : nat) (rels : list (nat * nat)) : list (nat * nat) :=
  if bool_decide ((d, c) ∈ rels) then rels else rels ++ [(d, c)].

(** One row of [UNWIND $chunks AS chunk] for the document node [d]. *)
Definition upsert_chunk (path : value) (d : nat) (ch : chunk) (g : Graph)
    : Graph :=
  let cs := merge_chunk path ch (chunk_nodes g) in
  let ids := find_ids (chunk_matches path ch) 0%nat cs in
  MkGraph (documents g) cs
    (foldl (fun rels c => merge_rel d c rels) (has_chunk g) ids).

(** [graph.query(statement, params)] on the store. *)
Definition run_query (q : query) (g : Graph) : Graph :=
  match q with
  | RegisterDocument p =>
      MkGraph (merge_document p (documents g)) (chunk_nodes g) (has_chunk g)
  | UpsertDocument p chunks =>
      let ds := merge_document p (documents g) in
      let dids := find_ids (doc_matches (p_path p)) 0%nat ds in
      foldl (fun g' d => foldl (fun g'' ch => upsert_chunk (p_path p) d ch g'')
                           g' chunks)
        (MkGraph ds (chunk_nodes g) (has_chunk g)) dids
  end.

(** ** Effects: the store, a trace of the calls made, and exceptions *)

Inductive event :=
| IsFile (path : value)
| JsonLoad (path : string)
| ReadPdf (path : value)
| GraphQuery (q : query)
| BuildIndex (index_name embedding_model : string)
| Report (processed : Z) (index_name : string).

Record world := World { graph : Graph; trace : list event }.

Inductive outcome (A : Type) :=
| Done (a : A) (w : world)
| Failed (e : exn) (w : world).
Arguments Done {A} a w.
Arguments Failed {A} e w.

Definition M (A : Type) : Type := world -> outcome A.

Definition ret {A} (a : A) : M A := fun w => Done a w.

Definition bind {A B} (m : M A) (k : A -> M B) : M B :=
  fun w => match m w with
           | Done a w' => k a w'
           | Failed e w' => Failed e w'
           end.

Notation "'let*' x ':=' m 'in' k" := (bind m (fun x => k))
  (at level 10, x name, m at level 100, k at level 200).
Notation "m ';;' k" := (bind m (fun _ => k))
  (at level 100, k at level 200, right associativity).

Definition raise {A} (e : exn) : M A := fun w => Failed e w.

(** A computation without effect on the store or the trace. *)
Definition lift {A} (r : result A) : M A :=
  fun w => match r with
           | Ok a => Done a w
           | Raise e => Failed e w
           end.

(** Record a call in the trace. *)
Definition emit (ev : event) : M unit :=
  fun w => Done tt (World (graph w) (trace w ++ [ev])).

(** A call of a library function: traced, and its exception propagates. *)
Definition call {A} (ev : event) (r : result A) : M A :=
  emit ev ;; match r with Ok a => ret a | Raise e => raise e end.

(** [graph.query(statement, params=...)] on a store that accepts the
    statement: the call returns.  An exception of the store (a lost
    connection, a rejected parameter) is not modelled, so what is proved
    about a run that raises is about the exceptions of the file system,
    the loader, the reader and the splitter. *)
Definition graph_query (q : query) : M unit :=
  fun w => Done tt (World (run_query q (graph w)) (trace w ++ [GraphQuery q])).

(** [a or b] where [b] is evaluated only when [a] is falsy. *)
Definition or_else (a : value) (b : M value) : M value :=
  if truthy a then ret a else b.

(** What [page.extract_text()] does: return a string or [None], or raise. *)
Definition pdf_page := result (option string).

(** [txt = page.extract_text() or ""] under [try], [txt = ""] on an
    exception. *)
Definition page_text (p : pdf_page) : string :=
  match p with
  | Ok (Some s) => if str_truthy s then s else EmptyString
  | Ok None => EmptyString
  | Raise _ => EmptyString
  end.

Section Pipeline.

(** [os.path.isfile] *)
Variable os_path_isfile : value -> result bool.
(** [json.load(open(path))], the manifest as a list of dicts *)
Variable json_load : string -> result (list (gmap string value)).
(** [PdfReader(path).pages] *)
Variable PdfReader : value -> result (list pdf_page).
(** [int(s)] for a [str]; [None] when it raises *)
Variable int_of_str : string -> option Z.
(** [RecursiveCharacterTextSplitter(chunk_size=..., chunk_overlap=...)] *)
Variable RecursiveCharacterTextSplitter : Z -> Z -> result splitter.

(** [int(v)]; [None] when it raises. *)
Definition py_int (v : value) : option Z :=
  match v with
  | VBool b => Some (if b then 1 else 0)
  | VInt n => Some n
  | VFloat f => int_of_float f
  | VStr s => int_of_str s
  | VNone | VList _ | VDict _ => None
  end.

Definition _as_int (v : value) (default : Z) : Z :=
  match py_int v with
  | Some n => n
  | None => default
  end.

Definition extract_pdf_text_by_page (path : value) : M (list string) :=
  let* isf := call (IsFile path) (os_path_isfile path) in
  if negb isf then ret []
  else
    let* pages := call (ReadPdf path) (PdfReader path) in
    ret (map page_text pages).

Section Ingest.

Variables (index_name embedding_model : string).
Variables (chunk_size chunk_overlap : Z).
Variable limit : option Z.

(** [limit is not None and processed >= limit] *)
Definition limit_reached (processed : Z) : bool :=
  match limit with
  | Some n => n <=? processed
  | None => false
  end.

(** The body of the loop for one entry that is not cut off by the
    limit; the result is the new value of [processed]. *)
Definition ingest_item (item : gmap string value) (processed : Z) : M Z :=
  let pdf_path := py_or (get item "path") (get item "Path") in
  if negb (truthy pdf_path) then ret processed
  else
    let* isf := call (IsFile pdf_path) (os_path_isfile pdf_path) in
    if negb isf then ret processed
    else
      let* title :=
        or_else (py_or (get item "title") (get item "Title"))
          (lift (os_path_basename pdf_path)) in
      let* file_name :=
        or_else (get item "FileName") (lift (os_path_basename pdf_path)) in
      let mime_type :=
        py_or (py_or (get item "MIMEType") (get item "mime_type"))
          (VStr "application/pdf") in
      let page_count :=
        _as_int (py_or (py_or (get item "PageCount") (get item "pages"))
                   (VInt 0)) 0 in
      let* pages := extract_pdf_text_by_page pdf_path in
      let* chunks :=
        lift (chunk_pages RecursiveCharacterTextSplitter pages chunk_size
                chunk_overlap) in
      match chunks with
      | [] =>
          graph_query
            (RegisterDocument
               (DocParams pdf_path title file_name page_count mime_type)) ;;
          ret (processed + 1)
      | _ :: _ =>
          graph_query
            (UpsertDocument
               (DocParams pdf_path title file_name
                  (if negb (page_count =? 0) then page_count
                   else Z.of_nat (length pages))
                  mime_type)
               chunks) ;;
          ret (processed + 1)
      end.

(** [for item in items: if limit is not None and processed >= limit:
    break; ...] *)
Fixpoint ingest_loop (items : list (gmap string value)) (processed : Z)
    : M Z :=
  match items with
  | [] => ret processed
  | item :: rest =>
      if limit_reached processed then ret processed
      else
        let* processed' := ingest_item item processed in
        ingest_loop rest processed'
  end.

(** The whole run; the result is the count the final message prints.
    [Neo4jGraph(...)] and [Neo4jVector.from_existing_graph(...)] are
    taken to return: the connection leaves no event, the index build is
    one event. *)
Definition ingest_from_json (json_path : string) : M Z :=
  let* isf := call (IsFile (VStr json_path))
                (os_path_isfile (VStr json_path)) in
  if negb isf then
    raise (FileNotFoundError ("JSON not found: " +:+ json_path))
  else
    let* items := call (JsonLoad json_path) (json_load json_path) in
    let* processed := ingest_loop items 0 in
    emit (BuildIndex index_name embedding_model) ;;
    emit (Report processed index_name) ;;
    ret processed.

End Ingest.

End Pipeline.

(** ** Vocabulary of the statements *)

(** [c1] comes before [c2] in reading order: an earlier page, or the
    same page and a smaller index. *)
Definition chunk_before (c1 c2 : chunk) : Prop :=
  page c1 <= page c2 /\ (page c1 = page c2 -> idx c1 < idx c2).

(** The world an outcome leaves behind, whether it returned or raised. *)
Definition final_world {A} (o : outcome A) : world :=
  match o with
  | Done _ w => w
  | Failed _ w => w
  end.

(** The statements sent to the store, in order. *)
Definition queries (tr : list event) : list query :=
  omap (fun ev => match ev with GraphQuery q => Some q | _ => None end) tr.

(** The chunk lists passed to the store. *)
Definition chunks_of_query (q : query) : list chunk :=
  match q with
  | RegisterDocument _ => []
  | UpsertDocument _ chunks => chunks
  end.

(** A text that is neither empty nor made of whitespace only. *)
Definition nonblank (s : string) : Prop :=
  s <> EmptyString /\ all_space s = false.

(** Every chunk text a statement carries is non-blank. *)
Definition clean_query (q : query) : Prop :=
  Forall (fun c => nonblank (text c)) (chunks_of_query q).

(** Every statement sent so far carries only non-blank chunk texts. *)
Definition clean_world (w : world) : Prop :=
  Forall clean_query (queries (trace w)).

(** [P] survives the computation [m], whether it returns or raises. *)
Definition invariant {A} (P : world -> Prop) (m : M A) : Prop :=
  forall w, P w -> P (final_world (m w)).

(** [pdf_path = item.get("path") or item.get("Path")] *)
Definition resolved_path (item : gmap string value) : value :=
  py_or (get item "path") (get item "Path").

(** ** A concrete environment, for examples *)

Module Demo.

(** A splitter that cuts at every vertical bar. *)
Fixpoint split_on_bar (cur s : string) : list string :=
  match s with
  | EmptyString => [cur]
  | String c r =>
      if Ascii.eqb c "|"%char then cur :: split_on_bar EmptyString r
      else split_on_bar (cur +:+ String c EmptyString) r
  end.

Definition split_text : splitter := split_on_bar EmptyString.

(** The constructor accepts a positive size and an overlap between 0 and
    the size. *)
Definition RecursiveCharacterTextSplitter (chunk_size chunk_overlap : Z)
    : result splitter :=
  if (0 <? chunk_size) && (0 <=? chunk_overlap)
     && (chunk_overlap <=? chunk_size)
  then Ok split_text
  else Raise (ValueError "bad chunk size or overlap").

Definition files : list value :=
  [VStr "manifest.json"; VStr "docs/a.pdf"; VStr "docs/b.pdf";
   VStr "docs/c.pdf"; VStr "docs/d.pdf"; VStr "docs/e.pdf";
   VStr "docs/blank.pdf"].

Definition os_path_isfile (v : value) : result bool :=
  match v with
  | VStr _ => Ok (bool_decide (v ∈ files))
  | VInt _ | VBool _ => Ok false
  | _ => Raise TypeError
  end.

(** [docs/a.pdf]: a page with a blank split in the middle, a page whose
    extraction raises, a page with one chunk.  [docs/blank.pdf]: two
    pages without text. *)
Definition PdfReader (v : value) : result (list pdf_page) :=
  if bool_decide (v = VStr "docs/a.pdf") then
    Ok [Ok (Some "alpha| |beta"); Raise (PyException "KeyError");
        Ok (Some "gamma")]
  else if bool_decide (v = VStr "docs/blank.pdf") then
    Ok [Ok (Some EmptyString); Ok None]
  else if bool_decide (v ∈ files) then Ok [Ok (Some "text")]
  else Raise (PyException "PdfReadError").

Definition entry (path : string) : gmap string value :=
  {[ "path" := VStr path ]}.

Definition manifest : list (gmap string value) :=
  [entry "docs/a.pdf"; entry "docs/b.pdf"; entry "docs/c.pdf";
   entry "docs/d.pdf"; entry "docs/e.pdf"].

Definition json_load (path : string) : result (list (gmap string value)) :=
  if bool_decide (path = "manifest.json") then Ok manifest
  else Raise (PyException "JSONDecodeError").

(** A decimal reader for digit strings, standing for [int]. *)
Fixpoint digits (acc : Z) (s : string) : option Z :=
  match s with
  | EmptyString => Some acc
  | String c r =>
      let n := Z.of_N (N_of_ascii c) in
      if (48 <=? n) && (n <=? 57) then digits (10 * acc + (n - 48)) r
      else None
  end.

Definition int_of_str (s : string) : option Z :=
  match s with
  | EmptyString => None
  | _ => digits 0 s
  end.

Definition w0 : world := World empty_graph [].

(** An entry whose file does not exist. *)
Definition missing_entry : gmap string value := entry "docs/missing.pdf".

(** The PDF without text, once with only its path and once with a page
    count in the descriptor. *)
Definition blank_entry : gmap string value := entry "docs/blank.pdf".

Definition counted_blank_entry : gmap string value :=
  <[ "PageCount" := VInt 5 ]> (entry "docs/blank.pdf").

(** An upsert whose chunk list names the key (1, 0) twice. *)
Definition upsert_a : query :=
  UpsertDocument
    (DocParams (VStr "docs/a.pdf") (VStr "a.pdf") (VStr "a.pdf") 3
       (VStr "application/pdf"))
    [Chunk 1 0 "alpha"; Chunk 1 2 "beta"; Chunk 1 0 "ALPHA"].

Definition item_step : gmap string value -> Z -> M Z :=
  ingest_item os_path_isfile PdfReader int_of_str
    RecursiveCharacterTextSplitter 1000 200.

Definition loop (limit : option Z) : list (gmap string value) -> Z -> M Z :=
  ingest_loop os_path_isfile PdfReader int_of_str
    RecursiveCharacterTextSplitter 1000 200 limit.

Definition run (limit : option Z) : M Z :=
  ingest_from_json os_path_isfile json_load PdfReader int_of_str
    RecursiveCharacterTextSplitter "pdf_chunks" "qwen3-embedding:0.6b" 1000
    200 limit "manifest.json".

End Demo.

(** ** The upsert statement, clause by clause *)

(** The merge key of a [:Chunk] node. *)
Definition chunk_key (c : ChunkNode) : value * Z * Z :=
  (c_doc_path c, c_page c, c_idx c).

(** Every merge key is held by at most one node: no two Document nodes
    share a path, no two Chunk nodes share (doc_path, page, idx). *)
Definition unique_keys (g : Graph) : Prop :=
  NoDup (map d_path (documents g)) /\
  NoDup (map chunk_key (chunk_nodes g)).

(** The chunk nodes after [UNWIND $chunks ... MERGE (c:Chunk ...) SET ...]. *)
Definition apply_chunks (path : value) (chunks : list chunk)
    (cs : list ChunkNode) : list ChunkNode :=
  foldl (fun cs ch => merge_chunk path ch cs) cs chunks.

(** What one chunk's [SET] does to one node. *)
Definition upd_chunk (path : value) (ch : chunk) (c : ChunkNode) : ChunkNode :=
  if chunk_matches path ch c then set_content ch c else c.

(** What a whole chunk list does to one node that is already there. *)
Definition upd_all (path : value) (chunks : list chunk) (c : ChunkNode)
    : ChunkNode :=
  foldl (fun c ch => upd_chunk path ch c) c chunks.

(** All rows of the statement for one document node [d]. *)
Definition upsert_pass (path : value) (d : nat) (chunks : list chunk)
    (g : Graph) : Graph :=
  foldl (fun g' ch => upsert_chunk path d ch g') g chunks.

(** All rows of the statement, for the document nodes [dids]. *)
Definition all_passes (path : value) (chunks : list chunk) (dids : list nat)
    (g : Graph) : Graph :=
  foldl (fun g' d => upsert_pass path d chunks g') g dids.

(** The chunk [ch] has its node, and every node it matches is linked from
    the document node [d]. *)
Definition linked (path : value) (d : nat) (ch : chunk) (g : Graph) : Prop :=
  existsb (chunk_matches path ch) (chunk_nodes g) = true /\
  forall c, c ∈ find_ids (chunk_matches path ch) 0%nat (chunk_nodes g) ->
            (d, c) ∈ has_chunk g.

(** ** The descriptor of a manifest entry *)

(** [item.get("title") or item.get("Title") or os.path.basename(pdf_path)]
    for a path that is a string. *)
Definition descriptor_title (item : gmap string value) (p : string) : value :=
  py_or (py_or (get item "title") (get item "Title")) (VStr (basename p)).

(** [item.get("FileName") or os.path.basename(pdf_path)] *)
Definition descriptor_file_name (item : gmap string value) (p : string)
    : value :=
  py_or (get item "FileName") (VStr (basename p)).

(** [item.get("MIMEType") or item.get("mime_type") or "application/pdf"] *)
Definition descriptor_mime_type (item : gmap string value) : value :=
  py_or (py_or (get item "MIMEType") (get item "mime_type"))
    (VStr "application/pdf").

(** [_as_int(item.get("PageCount") or item.get("pages") or 0)] *)
Definition descriptor_page_count (int_of_str : string -> option Z)
    (item : gmap string value) : Z :=
  _as_int int_of_str
    (py_or (py_or (get item "PageCount") (get item "pages")) (VInt 0)) 0.

(** The statement [ingest_from_json] sends for an entry whose path is the
    string [p] and whose extracted pages are [pages], with the splitter
    [split_text]. *)
Definition item_query (int_of_str : string -> option Z)
    (split_text : splitter) (item : gmap string value) (p : string)
    (pages : list string) : query :=
  let page_count := descriptor_page_count int_of_str item in
  match chunk_pages_from split_text 1 pages with
  | [] =>
      RegisterDocument
        (DocParams (VStr p) (descriptor_title item p)
           (descriptor_file_name item p) page_count
           (descriptor_mime_type item))
  | chunks =>
      UpsertDocument
        (DocParams (VStr p) (descriptor_title item p)
           (descriptor_file_name item p)
           (if negb (page_count =? 0) then page_count
            else Z.of_nat (length pages))
           (descriptor_mime_type item))
        chunks
  end.

(** An entry the loop skips: no usable path, or a path that is not a file. *)
Definition skipped_entry (os_path_isfile : value -> result bool)
    (item : gmap string value) : Prop :=
  truthy (resolved_path item) = false \/
  os_path_isfile (resolved_path item) = Ok false.

(** An entry the loop ingests: its path is a string naming a file that
    the PDF reader opens. *)
Definition valid_entry (os_path_isfile : value -> result bool)
    (PdfReader : value -> result (list pdf_page))
    (item : gmap string value) : Prop :=
  exists p, resolved_path item = VStr p /\ p <> EmptyString /\
            os_path_isfile (VStr p) = Ok true /\
            exists pages, PdfReader (VStr p) = Ok pages.

(** ** Runs as sequences of statements *)

(** The statements [qs] sent to the store one after the other. *)
Definition apply_queries (qs : list query) (g : Graph) : Graph :=
  foldl (fun g' q => run_query q g') g qs.

(** What the calls [evs] leave behind: the statements among them have
    been run on the store, and all of them are in the trace. *)
Definition apply_events (evs : list event) (w : world) : world :=
  World (apply_queries (queries evs) (graph w)) (trace w ++ evs).

Definition outcome_of {A} (r : result A) (w : world) : outcome A :=
  match r with
  | Ok a => Done a w
  | Raise e => Failed e w
  end.

(** What an outcome returns or raises. *)
Definition returned {A} (o : outcome A) : result A :=
  match o with
  | Done a _ => Ok a
  | Failed e _ => Raise e
  end.

Definition blank_world : world := World empty_graph [].

(** [m] does in every world what it does in the blank one: it returns
    or raises the same, makes the same calls and sends the same
    statements. *)
Definition oblivious {A} (m : M A) : Prop :=
  forall w,
    m w = outcome_of (returned (m blank_world))
            (apply_events (trace (final_world (m blank_world))) w).

(** The parameters [$path], ... of a statement. *)
Definition query_params (q : query) : doc_params :=
  match q with
  | RegisterDocument p => p
  | UpsertDocument p _ => p
  end.

(** ** Writes keyed by a merge key *)

(** A family of [MERGE ... SET] writes [w : W] on the nodes of one label,
    each with its pattern, the node it creates and its update. *)
Definition write_node {A W} (wmatch : W -> A -> bool) (wcreate : W -> A)
    (wupdate : W -> A -> A) (w : W) (l : list A) : list A :=
  merge_nodes (wmatch w) (wcreate w) (wupdate w) l.

Definition write_all {A W} (wmatch : W -> A -> bool) (wcreate : W -> A)
    (wupdate : W -> A -> A) (ws : list W) (l : list A) : list A :=
  foldl (fun l' w => write_node wmatch wcreate wupdate w l') l ws.

(** What one write, and then a list of writes, does to a node that is
    already there. *)
Definition rewrite_node {A W} (wmatch : W -> A -> bool)
    (wupdate : W -> A -> A) (w : W) (n : A) : A :=
  if wmatch w n then wupdate w n else n.

Definition rewrite_all {A W} (wmatch : W -> A -> bool)
    (wupdate : W -> A -> A) (ws : list W) (n : A) : A :=
  foldl (fun n' w => rewrite_node wmatch wupdate w n') n ws.

(** The writes of the statements on Document nodes: one per statement,
    with its parameters ... *)
Definition doc_writes (ws : list doc_params) (ds : list DocumentNode)
    : list DocumentNode :=
  write_all (fun p => doc_matches (p_path p))
    (fun p => Document (p_path p) VNone VNone 0 VNone) set_document ws ds.

(** ... and on Chunk nodes: one per pair of a path and a chunk. *)
Definition node_writes (ws : list (value * chunk)) (cs : list ChunkNode)
    : list ChunkNode :=
  write_all (fun w => chunk_matches (fst w) (snd w))
    (fun w => ChunkN (fst w) (page (snd w)) (idx (snd w)) EmptyString)
    (fun w => set_content (snd w)) ws cs.

Definition chunk_writes (q : query) : list (value * chunk) :=
  map (pair (p_path (query_params q))) (chunks_of_query q).

(** The statement [q] has been run before: its Document node is there,
    and each of its chunks has its node, linked from every Document node
    of that path. *)
Definition settled (q : query) (g : Graph) : Prop :=
  existsb (doc_matches (p_path (query_params q))) (documents g) = true /\
  forall d ch,
    d ∈ find_ids (doc_matches (p_path (query_params q))) 0%nat (documents g) ->
    ch ∈ chunks_of_query q ->
    linked (p_path (query_params q)) d ch g.

(** ** Relating the world before and after a computation *)

(** Whatever [m] does, returning or raising, the world it leaves is
    related by [R] to the world it found. *)
Definition respects {A} (R : world -> world -> Prop) (m : M A) : Prop :=
  forall w, R w (final_world (m w)).

(** The calls the loop makes. *)
Definition loop_event (ev : event) : Prop :=
  match ev with
  | IsFile _ | ReadPdf _ | GraphQuery _ => True
  | JsonLoad _ | BuildIndex _ _ | Report _ _ => False
  end.

(** The store and the statements sent are as before. *)
Definition untouched (w w' : world) : Prop :=
  graph w' = graph w /\ queries (trace w') = queries (trace w).

(** What the loop body may do with the counter [n]: leave everything as
    it is, or send one statement and count it; when the file check, the
    reader or the splitter raises, it has sent nothing. *)
Definition item_outcome (n : Z) (w : world) (o : outcome Z) : Prop :=
  match o with
  | Done a w' =>
      (a = n /\ untouched w w') \/
      (a = n + 1 /\
       exists q, graph w' = run_query q (graph w) /\
                 queries (trace w') = queries (trace w) ++ [q])
  | Failed _ w' => untouched w w'
  end.

(** The store [g'] still has every node of [g], at its position and
    under its merge key, and every relationship of [g]. *)
Definition extends (g g' : Graph) : Prop :=
  map d_path (documents g) `prefix_of` map d_path (documents g') /\
  map chunk_key (chunk_nodes g) `prefix_of` map chunk_key (chunk_nodes g') /\
  has_chunk g `prefix_of` has_chunk g'.

(** A call of the loop or of the manifest load: not the index build, not
    the final report. *)
Definition before_index (ev : event) : Prop :=
  match ev with
  | BuildIndex _ _ | Report _ _ => False
  | IsFile _ | JsonLoad _ | ReadPdf _ | GraphQuery _ => True
  end.

(** The trace of [w'] is the trace of [w] followed by calls made before
    the index build. *)
Definition grows_before_index (w w' : world) : Prop :=
  exists evs, trace w' = trace w ++ evs /\ Forall before_index evs.

(** How a run ends: when it returns, the index build and the report of
    the count are its last two calls and it made no other such call; when
    the manifest check, the load or the loop raises, it made neither. *)
Definition run_outcome (index_name embedding_model : string) (w : world)
    (o : outcome Z) : Prop :=
  match o with
  | Done n w' =>
      exists evs,
        trace w' = trace w ++ evs ++ [BuildIndex index_name embedding_model;
                                      Report n index_name] /\
        Forall before_index evs
  | Failed _ w' => grows_before_index w w'
  end.

(** ** Classifying manifest entries *)

(** The loop ingests the entry: [valid_entry], as a test. *)
Definition valid_entry_b (os_path_isfile : value -> result bool)
    (PdfReader : value -> result (list pdf_page))
    (item : gmap string value) : bool :=
  match resolved_path item with
  | VStr p =>
      str_truthy p &&
      match os_path_isfile (VStr p) with
      | Ok true => match PdfReader (VStr p) with
                   | Ok _ => true
                   | Raise _ => false
                   end
      | _ => false
      end
  | _ => false
  end.

(** The number of entries the loop would ingest without a limit. *)
Definition count_valid (os_path_isfile : value -> result bool)
    (PdfReader : value -> result (list pdf_page))
    (items : list (gmap string value)) : Z :=
  Z.of_nat (length (List.filter (valid_entry_b os_path_isfile PdfReader)
                      items)).

(** An environment in which [docs/b.pdf] exists but cannot be opened. *)
Module Corrupt.

Definition PdfReader (v : value) : result (list pdf_page) :=
  if bool_decide (v = VStr "docs/b.pdf") then
    Raise (PyException "PdfReadError")
  else Demo.PdfReader v.

End Corrupt.

(** A chunk moved [k] pages further. *)
Definition shift_page (k : Z) (c : chunk) : chunk :=
  Chunk (page c + k) (idx c) (text c).

(** The statement the loop sends for an entry, if it ingests it. *)
Definition entry_query (os_path_isfile : value -> result bool)
    (PdfReader : value -> result (list pdf_page))
    (int_of_str : string -> option Z) (split_text : splitter)
    (item : gmap string value) : option query :=
  match resolved_path item with
  | VStr p =>
      if str_truthy p then
        match os_path_isfile (VStr p) with
        | Ok true =>
            match PdfReader (VStr p) with
            | Ok pages =>
                Some (item_query int_of_str split_text item p
                        (map page_text pages))
            | Raise _ => None
            end
        | _ => None
        end
      else None
  | _ => None
  end.

(** The first [lim] elements, all of them without a limit, none for a
    negative one. *)
Definition up_to {A} (limit : option Z) (l : list A) : list A :=
  match limit with
  | None => l
  | Some lim => take (Z.to_nat lim) l
  end.

(** * Properties *)

(** ** Strings *)

Lemma str_truthy_false (s : string) : str_truthy s = false <-> s = EmptyString.
Proof. destruct s; simpl; split; congruence. Qed.

Lemma str_truthy_true (s : string) : str_truthy s = true <-> s <> EmptyString.
Proof. destruct s; simpl; split; congruence. Qed.

Lemma lstrip_empty (s : string) : lstrip s = EmptyString <-> all_space s = true.
Proof.
  induction s as [|c r IH]; simpl; [tauto|].
  destruct (py_isspace c); simpl; [exact IH|].
  split; discriminate.
Qed.

Lemma rstrip_empty (s : string) : rstrip s = EmptyString <-> all_space s = true.
Proof.
  induction s as [|c r IH]; simpl; [tauto|].
  destruct (rstrip r) as [|c' r'].
  - destruct (py_isspace c); simpl; [tauto|]. split; discriminate.
  - split; [discriminate|]. intros H. apply andb_true_iff in H as [_ H].
    apply IH in H. discriminate.
Qed.

Lemma all_space_rstrip (s : string) : all_space (rstrip s) = all_space s.
Proof.
  induction s as [|c r IH]; simpl; [reflexivity|].
  destruct (rstrip r) as [|c' r'] eqn:E.
  - apply rstrip_empty in E. rewrite E.
    destruct (py_isspace c) eqn:Ec; simpl; rewrite ?Ec; reflexivity.
  - change (all_space (String c (String c' r')))
      with (py_isspace c && all_space (String c' r')).
    by rewrite IH.
Qed.

(** [s.strip()] is empty exactly when [s] consists of whitespace. *)
Lemma strip_empty (s : string) : strip s = EmptyString <-> all_space s = true.
Proof. unfold strip. by rewrite lstrip_empty, all_space_rstrip. Qed.

Lemma strip_nonempty (s : string) :
  strip s <> EmptyString -> s <> EmptyString.
Proof. intros H ->. by apply H. Qed.

(** ** The chunker *)

Lemma elem_of_chunk_parts (parts : list string) (i j0 : Z) (c : chunk) :
  c ∈ chunk_parts i j0 parts <->
  page c = i /\ j0 <= idx c /\
  parts !! Z.to_nat (idx c - j0) = Some (text c) /\
  strip (text c) <> EmptyString.
Proof.
  revert j0. induction parts as [|part rest IH]; intros j0; simpl.
  - rewrite elem_of_nil. split; [tauto|]. intros (_ & _ & H & _). done.
  - assert (Hstep : forall j, j0 + 1 <= j ->
              Z.to_nat (j - j0) = S (Z.to_nat (j - (j0 + 1)))).
    { intros j Hj. rewrite <- Z2Nat.inj_succ by lia. f_equal. lia. }
    destruct (str_truthy (strip part)) eqn:E; simpl.
    + rewrite elem_of_cons, IH. apply str_truthy_true in E. split.
      * intros [->|(Hp & Hj & Hl & Hs)]; simpl.
        -- rewrite Z.sub_diag. simpl. repeat split; (lia || done).
        -- rewrite Hstep by lia. repeat split; (lia || done).
      * intros (Hp & Hj & Hl & Hs).
        destruct (decide (idx c = j0)) as [Heq|Hne].
        -- left. rewrite Heq, Z.sub_diag in Hl. simpl in Hl.
           destruct c; simpl in *. congruence.
        -- right. rewrite Hstep in Hl by lia. repeat split; (lia || done).
    + rewrite IH. apply str_truthy_false in E. split.
      * intros (Hp & Hj & Hl & Hs). rewrite Hstep by lia.
        repeat split; (lia || done).
      * intros (Hp & Hj & Hl & Hs).
        destruct (decide (idx c = j0)) as [Heq|Hne].
        -- rewrite Heq, Z.sub_diag in Hl. simpl in Hl. congruence.
        -- rewrite Hstep in Hl by lia. repeat split; (lia || done).
Qed.

Section ChunkerFacts.

Variable split_text : splitter.

Lemma elem_of_chunk_pages_from (pages : list string) (i0 : Z)
    (c : chunk) :
  c ∈ chunk_pages_from split_text i0 pages <->
  i0 <= page c /\ 0 <= idx c /\
  exists page_text,
    pages !! Z.to_nat (page c - i0) = Some page_text /\
    page_text <> EmptyString /\
    split_text page_text !! Z.to_nat (idx c) = Some (text c) /\
    strip (text c) <> EmptyString.
Proof.
  revert i0. induction pages as [|pt rest IH]; intros i0; simpl.
  - rewrite elem_of_nil. split; [tauto|]. intros (_ & _ & t & H & _). done.
  - assert (Hstep : forall i, i0 + 1 <= i ->
              Z.to_nat (i - i0) = S (Z.to_nat (i - (i0 + 1)))).
    { intros i Hi. rewrite <- Z2Nat.inj_succ by lia. f_equal. lia. }
    assert (Htail :
      c ∈ chunk_pages_from split_text (i0 + 1) rest <->
      i0 + 1 <= page c /\ 0 <= idx c /\
      exists page_text,
        (pt :: rest) !! Z.to_nat (page c - i0) = Some page_text /\
        page_text <> EmptyString /\
        split_text page_text !! Z.to_nat (idx c) = Some (text c) /\
        strip (text c) <> EmptyString).
    { rewrite IH. split; intros (Hp & Hj & t & Hl & Hrest).
      - rewrite Hstep by lia. eauto 10.
      - rewrite Hstep in Hl by lia. eauto 10. }
    destruct (str_truthy pt) eqn:E; simpl.
    + rewrite elem_of_app, Htail, elem_of_chunk_parts.
      rewrite Z.sub_0_r. apply str_truthy_true in E. split.
      * intros [(Hp & Hj & Hl & Hs)|(Hp & Hj & t & Hrest)].
        -- rewrite Hp, Z.sub_diag. simpl. split; [lia|]. split; [lia|].
           exists pt. done.
        -- split; [lia|]. split; [lia|]. exists t. done.
      * intros (Hp & Hj & t & Hl & Ht & Hrest).
        destruct (decide (page c = i0)) as [Heq|Hne].
        -- left. rewrite Heq, Z.sub_diag in Hl. simpl in Hl.
           injection Hl as ->. done.
        -- right. split; [lia|]. split; [lia|]. exists t. done.
    + rewrite Htail. apply str_truthy_false in E. split.
      * intros (Hp & Hj & t & Hrest). split; [lia|]. split;[lia|]. eauto.
      * intros (Hp & Hj & t & Hl & Ht & Hrest).
        destruct (decide (page c = i0)) as [Heq|Hne].
        -- rewrite Heq, Z.sub_diag in Hl. simpl in Hl. congruence.
        -- split; [lia|]. split; [lia|]. eauto 10.
Qed.

End ChunkerFacts.


Lemma chunk_parts_sorted (parts : list string) (i j0 : Z) :
  StronglySorted chunk_before (chunk_parts i j0 parts).
Proof.
  revert j0. induction parts as [|part rest IH]; intros j0; simpl.
  - constructor.
  - destruct (str_truthy (strip part)); simpl; [|apply IH].
    apply StronglySorted_cons. split; [|apply IH].
    apply Forall_forall. intros c Hc.
    apply elem_of_chunk_parts in Hc as (Hp & Hj & _).
    unfold chunk_before. simpl. lia.
Qed.

Lemma strip_nonblank (s : string) : strip s <> EmptyString -> nonblank s.
Proof.
  intros H. split; [by apply strip_nonempty|].
  destruct (all_space s) eqn:E; [|done]. by apply strip_empty in E.
Qed.

Section ChunkerOrder.

Variable split_text : splitter.

Lemma chunk_pages_from_sorted (pages : list string) (i0 : Z) :
  StronglySorted chunk_before (chunk_pages_from split_text i0 pages).
Proof.
  revert i0. induction pages as [|pt rest IH]; intros i0; simpl.
  - constructor.
  - destruct (str_truthy pt); simpl; [|apply IH].
    apply StronglySorted_app_2; [|apply chunk_parts_sorted|apply IH].
    intros c1 c2 H1 H2.
    apply elem_of_chunk_parts in H1 as (Hp1 & _).
    apply elem_of_chunk_pages_from in H2 as (Hp2 & _).
    unfold chunk_before. lia.
Qed.

Lemma chunk_pages_from_nonblank (pages : list string) (i0 : Z) :
  Forall (fun c => nonblank (text c)) (chunk_pages_from split_text i0 pages).
Proof.
  apply Forall_forall. intros c Hc.
  apply elem_of_chunk_pages_from in Hc as (_ & _ & t & _ & _ & _ & Hs).
  by apply strip_nonblank.
Qed.

End ChunkerOrder.

Section ChunkPages.

Variable RecursiveCharacterTextSplitter : Z -> Z -> result splitter.

(** [chunk_pages] returns exactly when the splitter can be constructed. *)
Lemma chunk_pages_ok (pages : list string) (cs ov : Z)
    (chunks : list chunk) :
  chunk_pages RecursiveCharacterTextSplitter pages cs ov = Ok chunks <->
  exists split_text,
    RecursiveCharacterTextSplitter cs ov = Ok split_text /\
    chunks = chunk_pages_from split_text 1 pages.
Proof.
  unfold chunk_pages.
  destruct (RecursiveCharacterTextSplitter cs ov) as [f|e]; split.
  - intros H. injection H as <-. eauto.
  - intros (f' & Hf & ->). by injection Hf as <-.
  - discriminate.
  - by intros (f' & Hf & _).
Qed.

(** C6. When the splitter can be constructed, [chunk_pages] returns, and
    every chunk it returns carries as [idx] the 0-based position of its
    text in what the splitter returned for its page, and as [page] the
    1-based position of that page; conversely every non-blank split of a
    non-empty page is returned under exactly that position.  Blank splits
    are dropped without renumbering the others, so the pair (page, idx)
    determines the text. *)
Theorem chunk_pages_idx_is_raw_position (pages : list string)
    (chunk_size chunk_overlap : Z) (split_text : splitter) :
  RecursiveCharacterTextSplitter chunk_size chunk_overlap = Ok split_text ->
  exists chunks,
    chunk_pages RecursiveCharacterTextSplitter pages chunk_size chunk_overlap
    = Ok chunks /\
    forall i j t,
      Chunk i j t ∈ chunks <->
      1 <= i /\ 0 <= j /\
      exists page_text,
        pages !! Z.to_nat (i - 1) = Some page_text /\
        page_text <> EmptyString /\
        split_text page_text !! Z.to_nat j = Some t /\
        strip t <> EmptyString.
Proof.
  intros Hsplit. exists (chunk_pages_from split_text 1 pages). split.
  - apply chunk_pages_ok. eauto.
  - intros i j t. by rewrite elem_of_chunk_pages_from.
Qed.

(** C10. What [chunk_pages] returns is in reading order: page numbers
    never decrease along the list, and among the chunks of one page the
    indices strictly increase; every page number is at least 1 and every
    index at least 0. *)
Theorem chunk_pages_ordered (pages : list string)
    (chunk_size chunk_overlap : Z) (chunks : list chunk) :
  chunk_pages RecursiveCharacterTextSplitter pages chunk_size chunk_overlap
  = Ok chunks ->
  StronglySorted chunk_before chunks /\
  Forall (fun c => 1 <= page c /\ 0 <= idx c) chunks.
Proof.
  intros H. apply chunk_pages_ok in H as (f & _ & ->).
  split; [apply chunk_pages_from_sorted|].
  apply Forall_forall. intros c Hc.
  apply elem_of_chunk_pages_from in Hc. tauto.
Qed.

End ChunkPages.

Lemma py_or_assoc (a b c : value) :
  py_or a (py_or b c) = py_or (py_or a b) c.
Proof. unfold py_or. destruct (truthy a) eqn:Ea; rewrite ?Ea; done. Qed.

(** ** The graph store: [MERGE] *)

Lemma find_ids_map {A} (q : A -> bool) (f : A -> A) (i : nat) (l : list A) :
  (forall n, q (f n) = q n) ->
  find_ids q i (map f l) = find_ids q i l.
Proof.
  intros Hq. revert i. induction l as [|x l IH]; intros i; simpl; [done|].
  by rewrite Hq, !IH.
Qed.

Lemma find_ids_app {A} (q : A -> bool) (i : nat) (l1 l2 : list A) :
  find_ids q i (l1 ++ l2)
  = find_ids q i l1 ++ find_ids q (i + length l1)%nat l2.
Proof.
  revert i. induction l1 as [|x l1 IH]; intros i; simpl.
  - by rewrite Nat.add_0_r.
  - rewrite IH. replace (S i + length l1)%nat with (i + S (length l1))%nat by lia.
    by destruct (q x).
Qed.

Lemma find_ids_nil_iff {A} (q : A -> bool) (i : nat) (l : list A) :
  find_ids q i l = [] <-> existsb q l = false.
Proof.
  revert i. induction l as [|x l IH]; intros i; simpl; [done|].
  destruct (q x); simpl; [split; discriminate|apply IH].
Qed.

Lemma existsb_map_preserved {A} (q : A -> bool) (f : A -> A) (l : list A) :
  (forall n, q (f n) = q n) -> existsb q (map f l) = existsb q l.
Proof.
  intros Hq. induction l as [|x l IH]; simpl; [done|]. by rewrite Hq, IH.
Qed.

Section MergeNodes.

Context {A : Type} (matches : A -> bool) (create : A) (update : A -> A).
Hypothesis create_matches : matches create = true.
Hypothesis update_matches : forall n, matches (update n) = matches n.

Let upd (n : A) : A := if matches n then update n else n.

Lemma upd_preserves (q : A -> bool) :
  (forall n, q (update n) = q n) -> forall n, q (upd n) = q n.
Proof. intros Hq n. unfold upd. by destruct (matches n). Qed.

Lemma merge_nodes_present (l : list A) :
  existsb matches l = true -> merge_nodes matches create update l = map upd l.
Proof. intros H. unfold merge_nodes. by rewrite H. Qed.

Lemma merge_nodes_absent (l : list A) :
  existsb matches l = false ->
  merge_nodes matches create update l = l ++ [update create].
Proof.
  intros H. unfold merge_nodes. rewrite H, map_app. simpl.
  rewrite create_matches. f_equal.
  rewrite <- (map_id l) at 2. apply map_ext_in. intros n Hn.
  destruct (matches n) eqn:E; [|done].
  assert (existsb matches l = true); [|congruence].
  apply existsb_exists. eauto.
Qed.

Lemma existsb_merge_nodes (l : list A) :
  existsb matches (merge_nodes matches create update l) = true.
Proof.
  destruct (existsb matches l) eqn:E.
  - rewrite merge_nodes_present by done.
    rewrite existsb_map_preserved; [done|].
    by apply upd_preserves.
  - rewrite merge_nodes_absent by done.
    rewrite existsb_app. simpl.
    rewrite update_matches, create_matches. by rewrite orb_true_r.
Qed.

(** A pattern that [update] cannot falsify and that already has a match
    keeps exactly its matches, at the same positions. *)
Lemma find_ids_merge_nodes (q : A -> bool) (i : nat) (l : list A) :
  (forall n, q (update n) = q n) ->
  (q create = true -> forall n, q n = true -> matches n = true) ->
  existsb q l = true ->
  find_ids q i (merge_nodes matches create update l) = find_ids q i l.
Proof.
  intros Hq Hcreate Hex.
  destruct (existsb matches l) eqn:E.
  - rewrite merge_nodes_present by done.
    apply find_ids_map. by apply upd_preserves.
  - rewrite merge_nodes_absent by done.
    rewrite find_ids_app. simpl. rewrite Hq.
    destruct (q create) eqn:Ec; [|by rewrite app_nil_r].
    apply existsb_exists in Hex as (n & Hn & Hqn).
    assert (existsb matches l = true); [|congruence].
    apply existsb_exists. exists n. auto.
Qed.

Lemma existsb_merge_nodes_mono (q : A -> bool) (l : list A) :
  (forall n, q (update n) = q n) ->
  existsb q l = true ->
  existsb q (merge_nodes matches create update l) = true.
Proof.
  intros Hq Hex. unfold merge_nodes.
  rewrite existsb_map_preserved by (by apply upd_preserves).
  destruct (existsb matches l); [done|].
  by rewrite existsb_app, Hex.
Qed.

Lemma merge_nodes_idempotent (l : list A) :
  (forall n, update (update n) = update n) ->
  merge_nodes matches create update (merge_nodes matches create update l)
  = merge_nodes matches create update l.
Proof.
  intros Hidem.
  rewrite (merge_nodes_present (merge_nodes _ _ _ l))
    by apply existsb_merge_nodes.
  unfold merge_nodes. rewrite map_map. apply map_ext. intros n.
  unfold upd. destruct (matches n) eqn:E; rewrite ?update_matches, E; [|done].
  apply Hidem.
Qed.

(** Every node of the merged list that matches has been updated. *)
Lemma merge_nodes_updated (l : list A) (n : A) :
  In n (merge_nodes matches create update l) -> matches n = true ->
  exists n0, n = update n0 /\ matches n0 = true.
Proof.
  unfold merge_nodes. intros Hin Hm.
  apply in_map_iff in Hin as (n0 & <- & _).
  destruct (matches n0) eqn:E; [eauto|congruence].
Qed.

(** A node of the merged list that does not match was there before. *)
Lemma merge_nodes_untouched (l : list A) (n : A) :
  In n (merge_nodes matches create update l) -> matches n = false ->
  In n l.
Proof.
  unfold merge_nodes. intros Hin Hm.
  apply in_map_iff in Hin as (n0 & <- & Hn0).
  destruct (matches n0) eqn:E.
  - rewrite update_matches in Hm. congruence.
  - destruct (existsb matches l); [done|].
    apply in_app_iff in Hn0 as [H|[<-|[]]]; [done|congruence].
Qed.

End MergeNodes.

Section MergeKeys.

Context {A K : Type} (key : A -> K) (k0 : K).
Context (matches : A -> bool) (create : A) (update : A -> A).
Hypothesis key_create : key create = k0.
Hypothesis key_update : forall n, key (update n) = key n.
Hypothesis matches_key : forall n, matches n = true <-> key n = k0.

(** [MERGE] keeps the keys of the nodes it finds and adds the key it was
    asked for only when no node has it. *)
Lemma map_key_merge_nodes (l : list A) :
  map key (merge_nodes matches create update l)
  = map key l ++ (if existsb matches l then [] else [k0]).
Proof.
  unfold merge_nodes. rewrite map_map.
  rewrite (map_ext _ key)
    by (intros n; destruct (matches n); [apply key_update|done]).
  destruct (existsb matches l); [by rewrite app_nil_r|].
  rewrite map_app. simpl. by rewrite key_create.
Qed.

Lemma NoDup_merge_nodes (l : list A) :
  NoDup (map key l) -> NoDup (map key (merge_nodes matches create update l)).
Proof.
  intros Hl. rewrite map_key_merge_nodes.
  destruct (existsb matches l) eqn:E; [by rewrite app_nil_r|].
  apply NoDup_app. split; [done|]. split; [|apply NoDup_singleton].
  intros k Hk Hk0. apply list_elem_of_singleton in Hk0 as ->.
  apply list_elem_of_In, in_map_iff in Hk as (n & Hn & Hin).
  assert (existsb matches l = true); [|congruence].
  apply existsb_exists. exists n. split; [done|]. by apply matches_key.
Qed.

End MergeKeys.

(** *** Documents *)

Lemma doc_matches_set (path : value) (p : doc_params) (d : DocumentNode) :
  doc_matches path (set_document p d) = doc_matches path d.
Proof. reflexivity. Qed.

Lemma doc_matches_create (p : doc_params) :
  doc_matches (p_path p) (Document (p_path p) VNone VNone 0 VNone) = true.
Proof. unfold doc_matches. simpl. by apply bool_decide_eq_true. Qed.

Lemma merge_document_idempotent (p : doc_params) (ds : list DocumentNode) :
  merge_document p (merge_document p ds) = merge_document p ds.
Proof.
  unfold merge_document. apply merge_nodes_idempotent.
  - apply doc_matches_create.
  - intros d. apply doc_matches_set.
  - reflexivity.
Qed.

Lemma merge_document_has_match (p : doc_params) (ds : list DocumentNode) :
  find_ids (doc_matches (p_path p)) 0%nat (merge_document p ds) <> [].
Proof.
  rewrite find_ids_nil_iff. unfold merge_document.
  rewrite existsb_merge_nodes; [done|apply doc_matches_create|].
  intros d. apply doc_matches_set.
Qed.

(** *** Chunk nodes *)

Lemma chunk_matches_set (path : value) (ch ch' : chunk) (c : ChunkNode) :
  chunk_matches path ch (set_content ch' c) = chunk_matches path ch c.
Proof. reflexivity. Qed.

Lemma chunk_matches_create (path : value) (ch : chunk) :
  chunk_matches path ch (ChunkN path (page ch) (idx ch) EmptyString) = true.
Proof.
  unfold chunk_matches. simpl.
  rewrite !Z.eqb_refl, bool_decide_eq_true_2; done.
Qed.

Lemma chunk_matches_key (path : value) (ch : chunk) (c c' : ChunkNode) :
  chunk_key c = chunk_key c' ->
  chunk_matches path ch c = chunk_matches path ch c'.
Proof.
  unfold chunk_key, chunk_matches. intros H. injection H as -> -> ->. done.
Qed.

Lemma chunk_matches_spec (path : value) (ch : chunk) (c : ChunkNode) :
  chunk_matches path ch c = true <-> chunk_key c = (path, page ch, idx ch).
Proof.
  unfold chunk_matches, chunk_key.
  rewrite !andb_true_iff, bool_decide_eq_true, !Z.eqb_eq.
  split; [intros [[-> ->] ->]; done|intros H; injection H; auto].
Qed.

(** Two chunks with the key of the created node match the same nodes. *)
Lemma chunk_matches_create_other (path : value) (ch ch' : chunk) :
  chunk_matches path ch' (ChunkN path (page ch) (idx ch) EmptyString) = true ->
  forall n, chunk_matches path ch' n = true -> chunk_matches path ch n = true.
Proof.
  intros H n Hn. apply chunk_matches_spec in H, Hn. apply chunk_matches_spec.
  unfold chunk_key in H. simpl in H. congruence.
Qed.

Lemma merge_chunk_present (path : value) (ch : chunk) (cs : list ChunkNode) :
  existsb (chunk_matches path ch) cs = true ->
  merge_chunk path ch cs = map (upd_chunk path ch) cs.
Proof.
  intros H. unfold merge_chunk.
  by rewrite (merge_nodes_present _ _ _ _ H).
Qed.

Lemma existsb_merge_chunk (path : value) (ch : chunk) (cs : list ChunkNode) :
  existsb (chunk_matches path ch) (merge_chunk path ch cs) = true.
Proof.
  unfold merge_chunk. apply existsb_merge_nodes.
  - apply chunk_matches_create.
  - intros c. apply chunk_matches_set.
Qed.

Lemma existsb_merge_chunk_mono (path : value) (ch ch' : chunk)
    (cs : list ChunkNode) :
  existsb (chunk_matches path ch') cs = true ->
  existsb (chunk_matches path ch') (merge_chunk path ch cs) = true.
Proof.
  intros H. unfold merge_chunk. apply existsb_merge_nodes_mono; [|done].
  intros c. apply chunk_matches_set.
Qed.

Lemma find_ids_merge_chunk (path : value) (ch ch' : chunk) (i : nat)
    (cs : list ChunkNode) :
  existsb (chunk_matches path ch') cs = true ->
  find_ids (chunk_matches path ch') i (merge_chunk path ch cs)
  = find_ids (chunk_matches path ch') i cs.
Proof.
  intros H. unfold merge_chunk. apply find_ids_merge_nodes.
  - apply chunk_matches_create.
  - intros c. apply chunk_matches_set.
  - apply chunk_matches_create_other.
  - done.
Qed.

Lemma upd_all_cons (path : value) (ch : chunk) (r : list chunk)
    (c : ChunkNode) :
  upd_all path (ch :: r) c = upd_all path r (upd_chunk path ch c).
Proof. reflexivity. Qed.

Lemma apply_chunks_cons (path : value) (ch : chunk) (r : list chunk)
    (cs : list ChunkNode) :
  apply_chunks path (ch :: r) cs = apply_chunks path r (merge_chunk path ch cs).
Proof. reflexivity. Qed.

Lemma chunk_matches_upd (path : value) (ch ch' : chunk) (c : ChunkNode) :
  chunk_matches path ch' (upd_chunk path ch c) = chunk_matches path ch' c.
Proof. unfold upd_chunk. by destruct (chunk_matches path ch c). Qed.

Lemma existsb_apply_chunks_mono (path : value) (chunks : list chunk)
    (ch : chunk) (cs : list ChunkNode) :
  existsb (chunk_matches path ch) cs = true ->
  existsb (chunk_matches path ch) (apply_chunks path chunks cs) = true.
Proof.
  revert cs. induction chunks as [|ch0 r IH]; intros cs H; simpl; [done|].
  apply IH. by apply existsb_merge_chunk_mono.
Qed.

Lemma apply_chunks_all_present (path : value) (chunks : list chunk)
    (cs : list ChunkNode) (ch : chunk) :
  In ch chunks ->
  existsb (chunk_matches path ch) (apply_chunks path chunks cs) = true.
Proof.
  revert cs. induction chunks as [|ch0 r IH]; intros cs [].
  - subst ch0. simpl. apply existsb_apply_chunks_mono, existsb_merge_chunk.
  - simpl. by apply IH.
Qed.

(** When every chunk already has its node, the statement only rewrites
    contents, node by node. *)
Lemma apply_chunks_present (path : value) (chunks : list chunk)
    (cs : list ChunkNode) :
  (forall ch, In ch chunks -> existsb (chunk_matches path ch) cs = true) ->
  apply_chunks path chunks cs = map (upd_all path chunks) cs.
Proof.
  revert cs. induction chunks as [|ch r IH]; intros cs H; simpl.
  - by rewrite map_id.
  - rewrite merge_chunk_present by (apply H; by left).
    rewrite IH, map_map; [done|].
    intros ch' Hch'. rewrite existsb_map_preserved.
    + apply H. by right.
    + intros c. apply chunk_matches_upd.
Qed.

Lemma upd_all_same_key (path : value) (chunks : list chunk)
    (c c' : ChunkNode) :
  chunk_key c = chunk_key c' ->
  (exists ch, In ch chunks /\ chunk_matches path ch c = true) ->
  upd_all path chunks c = upd_all path chunks c'.
Proof.
  revert c c'. induction chunks as [|ch r IH]; intros c c' Hk (ch0 & Hin & Hm).
  - destruct Hin.
  - rewrite !upd_all_cons. unfold upd_chunk.
    rewrite <- (chunk_matches_key path ch c c' Hk).
    destruct (chunk_matches path ch c) eqn:E.
    + f_equal. unfold set_content. unfold chunk_key in Hk.
      injection Hk as -> -> ->. done.
    + apply IH; [done|]. destruct Hin as [->|Hin]; [congruence|eauto].
Qed.

Lemma apply_chunks_origin (path : value) (chunks : list chunk)
    (cs : list ChunkNode) (c : ChunkNode) :
  In c (apply_chunks path chunks cs) ->
  (exists ch, In ch chunks /\ chunk_matches path ch c = true) \/ In c cs.
Proof.
  revert cs. induction chunks as [|ch r IH]; intros cs Hc; simpl in *.
  - by right.
  - apply IH in Hc as [(ch' & Hin & Hm)|Hc]; [left; eauto|].
    destruct (chunk_matches path ch c) eqn:E; [left; eauto|].
    right. revert Hc E. unfold merge_chunk. apply merge_nodes_untouched.
    + apply chunk_matches_create.
    + intros n. apply chunk_matches_set.
Qed.

Lemma merge_chunk_content (path : value) (ch : chunk) (cs : list ChunkNode)
    (c : ChunkNode) :
  In c (merge_chunk path ch cs) -> chunk_matches path ch c = true ->
  set_content ch c = c.
Proof.
  unfold merge_chunk. intros Hin Hm.
  destruct (merge_nodes_updated _ _ _ _ _ Hin Hm) as (n0 & -> & _). done.
Qed.

(** After the statement has run, running every [SET] again on a node
    gives the node back. *)
Lemma apply_chunks_fixed (path : value) (chunks : list chunk)
    (cs : list ChunkNode) (c : ChunkNode) :
  In c (apply_chunks path chunks cs) -> upd_all path chunks c = c.
Proof.
  revert cs. induction chunks as [|ch r IH]; intros cs Hc; [done|].
  rewrite apply_chunks_cons in Hc. rewrite upd_all_cons.
  pose proof (IH _ Hc) as Hfix.
  unfold upd_chunk. destruct (chunk_matches path ch c) eqn:E; [|done].
  destruct (apply_chunks_origin _ _ _ _ Hc) as [(ch' & Hin & Hm)|Hin].
  - rewrite <- Hfix at 2. apply upd_all_same_key; [done|].
    exists ch'. by rewrite chunk_matches_set.
  - by rewrite (merge_chunk_content _ _ _ _ Hin E).
Qed.

Lemma apply_chunks_idempotent (path : value) (chunks : list chunk)
    (cs : list ChunkNode) :
  apply_chunks path chunks (apply_chunks path chunks cs)
  = apply_chunks path chunks cs.
Proof.
  rewrite apply_chunks_present
    by (intros ch Hch; by apply apply_chunks_all_present).
  rewrite <- (map_id (apply_chunks path chunks cs)) at 2.
  apply map_ext_in. intros c Hc. by apply apply_chunks_fixed in Hc.
Qed.

(** *** Merge keys stay unique *)

Lemma NoDup_merge_document (p : doc_params) (ds : list DocumentNode) :
  NoDup (map d_path ds) -> NoDup (map d_path (merge_document p ds)).
Proof.
  unfold merge_document. apply (NoDup_merge_nodes d_path (p_path p)).
  - reflexivity.
  - reflexivity.
  - intros d. unfold doc_matches. apply bool_decide_eq_true.
Qed.

Lemma NoDup_merge_chunk (path : value) (ch : chunk) (cs : list ChunkNode) :
  NoDup (map chunk_key cs) -> NoDup (map chunk_key (merge_chunk path ch cs)).
Proof.
  unfold merge_chunk.
  apply (NoDup_merge_nodes chunk_key (path, page ch, idx ch)).
  - reflexivity.
  - reflexivity.
  - intros c. apply chunk_matches_spec.
Qed.

Lemma NoDup_apply_chunks (path : value) (chunks : list chunk)
    (cs : list ChunkNode) :
  NoDup (map chunk_key cs) ->
  NoDup (map chunk_key (apply_chunks path chunks cs)).
Proof.
  revert cs. induction chunks as [|ch r IH]; intros cs H; [done|].
  rewrite apply_chunks_cons. by apply IH, NoDup_merge_chunk.
Qed.

(** *** Relationships *)

Lemma merge_rel_mono (x : nat * nat) (d c : nat) (rels : list (nat * nat)) :
  x ∈ rels -> x ∈ merge_rel d c rels.
Proof.
  intros H. unfold merge_rel. case_bool_decide; [done|].
  apply elem_of_app. by left.
Qed.

Lemma merge_rel_in (d c : nat) (rels : list (nat * nat)) :
  (d, c) ∈ merge_rel d c rels.
Proof.
  unfold merge_rel. case_bool_decide; [done|].
  apply elem_of_app. right. by apply list_elem_of_singleton.
Qed.

Lemma merge_rel_id (d c : nat) (rels : list (nat * nat)) :
  (d, c) ∈ rels -> merge_rel d c rels = rels.
Proof. intros H. unfold merge_rel. by rewrite bool_decide_eq_true_2. Qed.

Lemma foldl_merge_rel_mono (x : nat * nat) (d : nat) (ids : list nat)
    (rels : list (nat * nat)) :
  x ∈ rels -> x ∈ foldl (fun rels c => merge_rel d c rels) rels ids.
Proof.
  revert rels. induction ids as [|c ids IH]; intros rels H; simpl; [done|].
  by apply IH, merge_rel_mono.
Qed.

Lemma foldl_merge_rel_in (d c : nat) (ids : list nat)
    (rels : list (nat * nat)) :
  c ∈ ids -> (d, c) ∈ foldl (fun rels c => merge_rel d c rels) rels ids.
Proof.
  revert rels. induction ids as [|c0 ids IH]; intros rels H; simpl.
  - by apply elem_of_nil in H.
  - apply elem_of_cons in H as [->|H]; [|by apply IH].
    apply foldl_merge_rel_mono, merge_rel_in.
Qed.

Lemma foldl_merge_rel_id (d : nat) (ids : list nat) (rels : list (nat * nat)) :
  (forall c, c ∈ ids -> (d, c) ∈ rels) ->
  foldl (fun rels c => merge_rel d c rels) rels ids = rels.
Proof.
  induction ids as [|c ids IH]; intros H; simpl; [done|].
  rewrite merge_rel_id by (apply H; by left).
  apply IH. intros c' Hc'. apply H. by right.
Qed.

(** *** Rows and passes *)

Lemma linked_established (path : value) (d : nat) (ch : chunk) (g : Graph) :
  linked path d ch (upsert_chunk path d ch g).
Proof.
  split; simpl.
  - apply existsb_merge_chunk.
  - intros c Hc. by apply foldl_merge_rel_in.
Qed.

Lemma linked_preserved (path : value) (d d' : nat) (ch ch' : chunk)
    (g : Graph) :
  linked path d ch g -> linked path d ch (upsert_chunk path d' ch' g).
Proof.
  intros [Hex Hrel]. split; simpl.
  - by apply existsb_merge_chunk_mono.
  - intros c Hc. rewrite find_ids_merge_chunk in Hc by done.
    by apply foldl_merge_rel_mono, Hrel.
Qed.

Lemma upsert_chunk_rels_stable (path : value) (d : nat) (ch : chunk)
    (g : Graph) :
  linked path d ch g ->
  has_chunk (upsert_chunk path d ch g) = has_chunk g.
Proof.
  intros [Hex Hrel]. simpl. apply foldl_merge_rel_id.
  intros c Hc. rewrite find_ids_merge_chunk in Hc by done. by apply Hrel.
Qed.

Lemma upsert_pass_cons (path : value) (d : nat) (ch : chunk)
    (r : list chunk) (g : Graph) :
  upsert_pass path d (ch :: r) g
  = upsert_pass path d r (upsert_chunk path d ch g).
Proof. reflexivity. Qed.

Lemma documents_upsert_pass (path : value) (d : nat) (chunks : list chunk)
    (g : Graph) :
  documents (upsert_pass path d chunks g) = documents g.
Proof.
  revert g. induction chunks as [|ch r IH]; intros g; [done|].
  by rewrite upsert_pass_cons, IH.
Qed.

Lemma chunk_nodes_upsert_pass (path : value) (d : nat) (chunks : list chunk)
    (g : Graph) :
  chunk_nodes (upsert_pass path d chunks g)
  = apply_chunks path chunks (chunk_nodes g).
Proof.
  revert g. induction chunks as [|ch r IH]; intros g; [done|].
  by rewrite upsert_pass_cons, IH.
Qed.

Lemma linked_preserved_pass (path : value) (d d' : nat) (ch : chunk)
    (chunks : list chunk) (g : Graph) :
  linked path d ch g -> linked path d ch (upsert_pass path d' chunks g).
Proof.
  revert g. induction chunks as [|ch' r IH]; intros g H; [done|].
  rewrite upsert_pass_cons. by apply IH, linked_preserved.
Qed.

Lemma linked_after_pass (path : value) (d : nat) (chunks : list chunk)
    (g : Graph) (ch : chunk) :
  In ch chunks -> linked path d ch (upsert_pass path d chunks g).
Proof.
  revert g. induction chunks as [|ch0 r IH]; intros g []; rewrite upsert_pass_cons.
  - subst ch0. apply linked_preserved_pass, linked_established.
  - by apply IH.
Qed.

Lemma upsert_pass_rels_stable (path : value) (d : nat) (chunks : list chunk)
    (g : Graph) :
  (forall ch, In ch chunks -> linked path d ch g) ->
  has_chunk (upsert_pass path d chunks g) = has_chunk g.
Proof.
  revert g. induction chunks as [|ch r IH]; intros g H; [done|].
  rewrite upsert_pass_cons, IH.
  - apply upsert_chunk_rels_stable, H. by left.
  - intros ch' Hch'. apply linked_preserved, H. by right.
Qed.

Lemma all_passes_cons (path : value) (chunks : list chunk) (d : nat)
    (dids : list nat) (g : Graph) :
  all_passes path chunks (d :: dids) g
  = all_passes path chunks dids (upsert_pass path d chunks g).
Proof. reflexivity. Qed.

Lemma documents_all_passes (path : value) (chunks : list chunk)
    (dids : list nat) (g : Graph) :
  documents (all_passes path chunks dids g) = documents g.
Proof.
  revert g. induction dids as [|d r IH]; intros g; [done|].
  by rewrite all_passes_cons, IH, documents_upsert_pass.
Qed.

Lemma chunk_nodes_all_passes (path : value) (chunks : list chunk)
    (dids : list nat) (g : Graph) :
  chunk_nodes (all_passes path chunks dids g)
  = Nat.iter (length dids) (apply_chunks path chunks) (chunk_nodes g).
Proof.
  revert g. induction dids as [|d r IH]; intros g; [done|].
  rewrite all_passes_cons, IH, chunk_nodes_upsert_pass.
  change (length (d :: r)) with (S (length r)).
  by rewrite Nat.iter_succ_r.
Qed.

Lemma linked_preserved_all (path : value) (d : nat) (ch : chunk)
    (chunks : list chunk) (dids : list nat) (g : Graph) :
  linked path d ch g -> linked path d ch (all_passes path chunks dids g).
Proof.
  revert g. induction dids as [|d' r IH]; intros g H; [done|].
  rewrite all_passes_cons. by apply IH, linked_preserved_pass.
Qed.

Lemma linked_after_all (path : value) (chunks : list chunk)
    (dids : list nat) (g : Graph) (d : nat) (ch : chunk) :
  In d dids -> In ch chunks ->
  linked path d ch (all_passes path chunks dids g).
Proof.
  revert g. induction dids as [|d0 r IH]; intros g [] Hch;
    rewrite all_passes_cons.
  - subst d0. by apply linked_preserved_all, linked_after_pass.
  - by apply IH.
Qed.

Lemma all_passes_rels_stable (path : value) (chunks : list chunk)
    (dids : list nat) (g : Graph) :
  (forall d ch, In d dids -> In ch chunks -> linked path d ch g) ->
  has_chunk (all_passes path chunks dids g) = has_chunk g.
Proof.
  revert g. induction dids as [|d r IH]; intros g H; [done|].
  rewrite all_passes_cons, IH.
  - apply upsert_pass_rels_stable. intros ch Hch. apply H; [by left|done].
  - intros d' ch Hd' Hch. apply linked_preserved_pass, H; [by right|done].
Qed.

Lemma iter_apply_chunks (path : value) (chunks : list chunk) (k : nat)
    (cs : list ChunkNode) :
  Nat.iter k (apply_chunks path chunks) (apply_chunks path chunks cs)
  = apply_chunks path chunks cs.
Proof.
  induction k as [|k IH]; simpl; [done|].
  by rewrite IH, apply_chunks_idempotent.
Qed.

Lemma graph_eq (g1 g2 : Graph) :
  documents g1 = documents g2 -> chunk_nodes g1 = chunk_nodes g2 ->
  has_chunk g1 = has_chunk g2 -> g1 = g2.
Proof. destruct g1, g2. simpl. by intros -> -> ->. Qed.

Lemma run_query_upsert (p : doc_params) (chunks : list chunk) (g : Graph) :
  run_query (UpsertDocument p chunks) g
  = all_passes (p_path p) chunks
      (find_ids (doc_matches (p_path p)) 0%nat
         (merge_document p (documents g)))
      (MkGraph (merge_document p (documents g)) (chunk_nodes g) (has_chunk g)).
Proof. reflexivity. Qed.

Lemma upsert_idempotent (p : doc_params) (chunks : list chunk) (g : Graph) :
  run_query (UpsertDocument p chunks) (run_query (UpsertDocument p chunks) g)
  = run_query (UpsertDocument p chunks) g.
Proof.
  rewrite !run_query_upsert.
  set (ds := merge_document p (documents g)).
  set (dids := find_ids (doc_matches (p_path p)) 0%nat ds).
  set (g0 := MkGraph ds (chunk_nodes g) (has_chunk g)).
  rewrite documents_all_passes. simpl.
  fold ds. unfold ds at 1 2. rewrite merge_document_idempotent. fold ds dids.
  assert (Hg1 : MkGraph ds (chunk_nodes (all_passes (p_path p) chunks dids g0))
                  (has_chunk (all_passes (p_path p) chunks dids g0))
                = all_passes (p_path p) chunks dids g0).
  { apply graph_eq; simpl; [|done..]. by rewrite documents_all_passes. }
  rewrite Hg1. set (g1 := all_passes (p_path p) chunks dids g0).
  apply graph_eq.
  - by rewrite documents_all_passes.
  - rewrite chunk_nodes_all_passes. unfold g1.
    rewrite chunk_nodes_all_passes.
    destruct dids as [|d r] eqn:E.
    + exfalso. by apply (merge_document_has_match p (documents g)).
    + change (length (d :: r)) with (S (length r)).
      rewrite !Nat.iter_succ_r, !iter_apply_chunks.
      apply apply_chunks_idempotent.
  - apply all_passes_rels_stable. intros d ch Hd Hch.
    by apply linked_after_all.
Qed.

Lemma upsert_keeps_keys_unique (p : doc_params) (chunks : list chunk)
    (g : Graph) :
  unique_keys g -> unique_keys (run_query (UpsertDocument p chunks) g).
Proof.
  intros [Hd Hc]. rewrite run_query_upsert. split.
  - rewrite documents_all_passes. simpl. by apply NoDup_merge_document.
  - rewrite chunk_nodes_all_passes. simpl.
    induction (length _) as [|k IH]; simpl; [done|].
    by apply NoDup_apply_chunks.
Qed.

Lemma register_document_idempotent (p : doc_params) (g : Graph) :
  run_query (RegisterDocument p) (run_query (RegisterDocument p) g)
  = run_query (RegisterDocument p) g.
Proof. simpl. by rewrite merge_document_idempotent. Qed.

(** C2. Sending the document-and-chunks statement a second time with the
    same parameters leaves the store exactly as the first time left it: the
    Document nodes matched by [path] and the Chunk nodes matched by
    (doc_path, page, idx) are found again and rewritten with the same
    values, and no node or relationship is added.  The statement also never
    makes two nodes share a merge key: in a store where the paths of the
    Document nodes and the keys of the Chunk nodes are pairwise distinct,
    they still are afterwards. *)
Theorem upsert_document_idempotent (p : doc_params) (chunks : list chunk)
    (g : Graph) :
  run_query (UpsertDocument p chunks) (run_query (UpsertDocument p chunks) g)
  = run_query (UpsertDocument p chunks) g /\
  (unique_keys g -> unique_keys (run_query (UpsertDocument p chunks) g)).
Proof.
  split; [apply upsert_idempotent|apply upsert_keeps_keys_unique].
Qed.

(** *** What a statement leaves in the store *)

Lemma documents_run_query (q : query) (g : Graph) :
  documents (run_query q g)
  = merge_document
      match q with RegisterDocument p => p | UpsertDocument p _ => p end
      (documents g).
Proof.
  destruct q as [p|p chunks]; [done|].
  by rewrite run_query_upsert, documents_all_passes.
Qed.

(** After the [MERGE ... SET], the Document nodes with the given path are
    exactly copies of the parameters, and there is at least one. *)
Lemma merge_document_spec (p : doc_params) (ds : list DocumentNode) :
  let doc := Document (p_path p) (p_title p) (p_file_name p) (p_page_count p)
               (p_mime_type p) in
  doc ∈ merge_document p ds /\
  forall d, d ∈ merge_document p ds -> d_path d = p_path p -> d = doc.
Proof.
  assert (Hupd : forall d, In d (merge_document p ds) ->
                           d_path d = p_path p ->
                           d = Document (p_path p) (p_title p) (p_file_name p)
                                 (p_page_count p) (p_mime_type p)).
  { intros d Hin Hpath.
    assert (Hm : doc_matches (p_path p) d = true)
      by (by apply bool_decide_eq_true).
    destruct (merge_nodes_updated _ _ _ _ _ Hin Hm) as (d0 & -> & Hm0).
    apply bool_decide_eq_true in Hm0. unfold set_document. by rewrite Hm0. }
  simpl. split.
  - pose proof (existsb_merge_nodes (doc_matches (p_path p))
                  (Document (p_path p) VNone VNone 0 VNone) (set_document p)
                  (doc_matches_create p) (doc_matches_set (p_path p) p) ds)
      as Hex.
    apply existsb_exists in Hex as (d & Hin & Hm).
    apply bool_decide_eq_true in Hm.
    rewrite <- (Hupd d Hin Hm). by apply list_elem_of_In.
  - intros d Hin. apply Hupd. by apply list_elem_of_In.
Qed.

(** ** The ingestion loop *)

Lemma bind_call_ok {A B} (ev : event) (r : result A) (a : A) (k : A -> M B)
    (w : world) :
  r = Ok a -> bind (call ev r) k w = k a (World (graph w) (trace w ++ [ev])).
Proof. by intros ->. Qed.

Lemma bind_lift_ok {A B} (r : result A) (a : A) (k : A -> M B) (w : world) :
  r = Ok a -> bind (lift r) k w = k a w.
Proof. by intros ->. Qed.

Lemma bind_or_else_pure {B} (a b : value) (k : value -> M B) (w : world) :
  bind (or_else a (lift (Ok b))) k w = k (py_or a b) w.
Proof. unfold or_else, py_or, bind. by destruct (truthy a). Qed.

Lemma bind_graph_query {B} (q : query) (k : unit -> M B) (w : world) :
  bind (graph_query q) k w
  = k tt (World (run_query q (graph w)) (trace w ++ [GraphQuery q])).
Proof. reflexivity. Qed.

Lemma bind_emit {B} (ev : event) (k : unit -> M B) (w : world) :
  bind (emit ev) k w = k tt (World (graph w) (trace w ++ [ev])).
Proof. reflexivity. Qed.

Section PipelineFacts.

Variable os_path_isfile : value -> result bool.
Variable json_load : string -> result (list (gmap string value)).
Variable PdfReader : value -> result (list pdf_page).
Variable int_of_str : string -> option Z.
Variable RecursiveCharacterTextSplitter : Z -> Z -> result splitter.
Variables (index_name embedding_model : string).
Variables (chunk_size chunk_overlap : Z).

Local Abbreviation extract := (extract_pdf_text_by_page os_path_isfile PdfReader).
Local Abbreviation item_step :=
  (ingest_item os_path_isfile PdfReader int_of_str
     RecursiveCharacterTextSplitter chunk_size chunk_overlap).
Local Abbreviation loop :=
  (ingest_loop os_path_isfile PdfReader int_of_str
     RecursiveCharacterTextSplitter chunk_size chunk_overlap).
Local Abbreviation query_of := (item_query int_of_str).
Local Abbreviation splitter_is split_text :=
  (RecursiveCharacterTextSplitter chunk_size chunk_overlap = Ok split_text).

Lemma extract_opened (path : value) (pages : list pdf_page) (w : world) :
  os_path_isfile path = Ok true -> PdfReader path = Ok pages ->
  extract path w
  = Done (map page_text pages)
      (World (graph w) (trace w ++ [IsFile path; ReadPdf path])).
Proof.
  intros Hf Hr. unfold extract_pdf_text_by_page, bind, call, emit, ret.
  rewrite Hf. simpl. rewrite Hr. simpl. by rewrite <- app_assoc.
Qed.

(** What the loop body does for an entry it ingests. *)
Lemma ingest_item_valid (split_text : splitter) (item : gmap string value)
    (p : string) (pages : list pdf_page) (n : Z) (w : world) :
  splitter_is split_text ->
  resolved_path item = VStr p -> p <> EmptyString ->
  os_path_isfile (VStr p) = Ok true -> PdfReader (VStr p) = Ok pages ->
  item_step item n w
  = let q := query_of split_text item p (map page_text pages) in
    Done (n + 1)
      (World (run_query q (graph w))
         (trace w ++ [IsFile (VStr p); IsFile (VStr p); ReadPdf (VStr p);
                      GraphQuery q])).
Proof.
  intros Hs Hp Hne Hf Hr. unfold ingest_item. fold (resolved_path item).
  rewrite Hp. apply str_truthy_true in Hne.
  change (truthy (VStr p)) with (str_truthy p). rewrite Hne. cbn [negb].
  rewrite (bind_call_ok _ _ _ _ _ Hf). cbn [negb].
  cbn [os_path_basename]. rewrite !bind_or_else_pure.
  unfold bind at 1. rewrite (extract_opened _ _ _ Hf Hr).
  rewrite (bind_lift_ok _ (chunk_pages_from split_text 1 (map page_text pages)))
    by (apply chunk_pages_ok; eauto).
  unfold item_query, descriptor_page_count, descriptor_title,
    descriptor_file_name, descriptor_mime_type. cbv zeta.
  rewrite <- !py_or_assoc.
  destruct (chunk_pages_from split_text 1 (map page_text pages)) as [|c cs];
    rewrite bind_graph_query; unfold ret; simpl; rewrite <- !app_assoc; done.
Qed.


(** What the loop body does for an entry it skips. *)
Lemma ingest_item_skipped (item : gmap string value) (n : Z) (w : world) :
  skipped_entry os_path_isfile item ->
  exists w', item_step item n w = Done n w' /\
             graph w' = graph w /\
             queries (trace w') = queries (trace w).
Proof.
  intros [Hfalsy|Hnofile]; unfold ingest_item; fold (resolved_path item).
  - rewrite Hfalsy. cbn [negb]. by exists w.
  - destruct (truthy (resolved_path item)); cbn [negb]; [|by exists w].
    rewrite (bind_call_ok _ _ _ _ _ Hnofile). cbn [negb].
    eexists. split; [reflexivity|]. split; [done|].
    simpl. unfold queries. rewrite omap_app. simpl. by rewrite app_nil_r.
Qed.

Section Limit.

Variable limit : option Z.

Lemma ingest_loop_cons (item : gmap string value)
    (rest : list (gmap string value)) (n : Z) (w : world) :
  loop limit (item :: rest) n w
  = if limit_reached limit n then Done n w
    else bind (item_step item n) (loop limit rest) w.
Proof. simpl. by destruct (limit_reached limit n). Qed.

(** Once the counter has reached the limit the loop does nothing. *)
Lemma ingest_loop_limit_reached (items : list (gmap string value))
    (n : Z) (w : world) :
  limit_reached limit n = true -> loop limit items n w = Done n w.
Proof. intros H. destruct items; simpl; [done|]. by rewrite H. Qed.

(** When the loop returns, it has used up its list or hit the limit;
    in both cases running it on further entries from there is the
    same as running it on the concatenation. *)
Lemma ingest_loop_app (pre rest : list (gmap string value)) (n : Z)
    (w : world) :
  loop limit (pre ++ rest) n w
  = bind (loop limit pre n) (loop limit rest) w.
Proof.
  revert n w. induction pre as [|item pre IH]; intros n w.
  - reflexivity.
  - rewrite <- app_comm_cons. unfold bind in *.
    rewrite !ingest_loop_cons.
    destruct (limit_reached limit n) eqn:E.
    + by rewrite ingest_loop_limit_reached.
    + unfold bind. destruct (item_step item n w) as [n' w'|e w']; [|done].
      apply IH.
Qed.

End Limit.

Lemma ingest_item_valid_done (split_text : splitter)
    (item : gmap string value) (n : Z) (w : world) :
  splitter_is split_text ->
  valid_entry os_path_isfile PdfReader item ->
  exists w', item_step item n w = Done (n + 1) w'.
Proof.
  intros Hs (p & Hp & Hne & Hf & pages & Hr).
  rewrite (ingest_item_valid split_text item p pages n w Hs Hp Hne Hf Hr).
  eauto.
Qed.

(** A run over valid entries that stays within the limit counts them
    all. *)
Lemma ingest_loop_valid (split_text : splitter) (lim : Z)
    (items : list (gmap string value)) (n : Z) (w : world) :
  splitter_is split_text ->
  Forall (valid_entry os_path_isfile PdfReader) items ->
  n + Z.of_nat (length items) <= lim ->
  exists w', loop (Some lim) items n w
             = Done (n + Z.of_nat (length items)) w'.
Proof.
  intros Hs. revert n w.
  induction items as [|item items IH]; intros n w Hv Hlen.
  - simpl. rewrite Z.add_0_r. by exists w.
  - apply Forall_cons in Hv as [Hitem Hv].
    change (length (item :: items)) with (S (length items)) in *.
    rewrite ingest_loop_cons. simpl limit_reached.
    destruct (Z.leb_spec lim n) as [Hle|_]; [lia|].
    destruct (ingest_item_valid_done split_text item n w Hs Hitem)
      as [w1 Hw1].
    unfold bind. rewrite Hw1.
    destruct (IH (n + 1) w1 Hv) as [w2 Hw2]; [lia|].
    exists w2. rewrite Hw2. f_equal. lia.
Qed.

(** C3. The loop takes the entries in manifest order and checks the
    limit before each one.  Whenever the counter has reached the limit
    after a prefix of the manifest, the run on the whole manifest ends in
    the very state the run on the prefix ends in: nothing is checked,
    read or written for the later entries.  In particular, when the
    splitter can be constructed and the prefix consists of [lim] valid
    entries, exactly [lim] entries are processed, whatever follows
    (5 valid entries and a limit of 2: 2). *)
Theorem limit_is_an_early_exit_cap (lim : Z) (split_text : splitter)
    (pre rest : list (gmap string value)) (n : Z) (w : world) :
  (forall n' w',
      loop (Some lim) pre n w = Done n' w' -> lim <= n' ->
      loop (Some lim) (pre ++ rest) n w = Done n' w') /\
  (splitter_is split_text ->
   Forall (valid_entry os_path_isfile PdfReader) pre ->
   Z.of_nat (length pre) = lim ->
   exists w', loop (Some lim) pre 0 w = Done lim w' /\
              loop (Some lim) (pre ++ rest) 0 w = Done lim w').
Proof.
  assert (Hstop : forall m n' w',
    loop (Some lim) pre m w = Done n' w' -> lim <= n' ->
    loop (Some lim) (pre ++ rest) m w = Done n' w').
  { intros m n' w' Hpre Hlim. rewrite ingest_loop_app. unfold bind.
    rewrite Hpre. apply ingest_loop_limit_reached. simpl.
    by apply Z.leb_le. }
  split; [apply Hstop|].
  intros Hs Hv Hlen.
  destruct (ingest_loop_valid split_text lim pre 0 w Hs Hv) as [w' Hw'];
    [lia|].
  rewrite Z.add_0_l, Hlen in Hw'. exists w'. split; [done|].
  apply Hstop; [done|lia].
Qed.

(** C4. An entry without a usable path, or whose path is not an
    existing file, is skipped: the body returns without raising, the
    counter keeps its value, the store is unchanged and no statement is
    sent; the loop goes on with the next entry. *)
Theorem skipped_entry_is_silent (limit : option Z)
    (item : gmap string value) (rest : list (gmap string value)) (n : Z)
    (w : world) :
  skipped_entry os_path_isfile item ->
  exists w',
    item_step item n w = Done n w' /\
    graph w' = graph w /\
    queries (trace w') = queries (trace w) /\
    (limit_reached limit n = false ->
     loop limit (item :: rest) n w = loop limit rest n w').
Proof.
  intros Hskip.
  destruct (ingest_item_skipped item n w Hskip) as (w' & Hstep & Hg & Hq).
  exists w'. repeat split; try done.
  intros Hlim. rewrite ingest_loop_cons, Hlim. unfold bind. by rewrite Hstep.
Qed.

(** C9. With a limit of zero or less and a manifest that loads, no entry
    is processed: no path is checked, nothing is read, no statement is
    sent and the store is unchanged; the vector index is still built,
    once, and the reported count is 0. *)
Theorem nonpositive_limit_processes_nothing (lim : Z) (json_path : string)
    (items : list (gmap string value)) (w : world) :
  lim <= 0 ->
  os_path_isfile (VStr json_path) = Ok true ->
  json_load json_path = Ok items ->
  ingest_from_json os_path_isfile json_load PdfReader int_of_str
    RecursiveCharacterTextSplitter index_name embedding_model chunk_size
    chunk_overlap (Some lim) json_path w
  = Done 0
      (World (graph w)
         (trace w ++ [IsFile (VStr json_path); JsonLoad json_path;
                      BuildIndex index_name embedding_model;
                      Report 0 index_name])).
Proof.
  intros Hlim Hf Hj. unfold ingest_from_json.
  rewrite (bind_call_ok _ _ _ _ _ Hf). cbn [negb].
  rewrite (bind_call_ok _ _ _ _ _ Hj). unfold bind at 1.
  rewrite ingest_loop_limit_reached by (simpl; by apply Z.leb_le).
  rewrite !bind_emit. unfold ret. simpl. by rewrite <- !app_assoc.
Qed.

(** C5. For an entry that supplies nothing but a path, and whose
    pages give at least one chunk, the stored Document has the base name
    of the path as title and as file name, the MIME type
    ["application/pdf"], and as page count the number of extracted
    pages. *)
Theorem fallback_metadata (split_text : splitter)
    (item : gmap string value) (p : string) (pages : list pdf_page) (n : Z)
    (w : world) :
  splitter_is split_text ->
  item !! "title" = None -> item !! "Title" = None ->
  item !! "FileName" = None ->
  item !! "MIMEType" = None -> item !! "mime_type" = None ->
  item !! "PageCount" = None -> item !! "pages" = None ->
  resolved_path item = VStr p -> p <> EmptyString ->
  os_path_isfile (VStr p) = Ok true -> PdfReader (VStr p) = Ok pages ->
  chunk_pages_from split_text 1 (map page_text pages) <> [] ->
  exists w',
    item_step item n w = Done (n + 1) w' /\
    let doc := Document (VStr p) (VStr (basename p)) (VStr (basename p))
                 (Z.of_nat (length pages)) (VStr "application/pdf") in
    doc ∈ documents (graph w') /\
    forall d, d ∈ documents (graph w') -> d_path d = VStr p -> d = doc.
Proof.
  intros Hs Ht HT Hfn Hm1 Hm2 Hpc1 Hpc2 Hp Hne Hf Hr Hchunks.
  rewrite (ingest_item_valid split_text item p pages n w Hs Hp Hne Hf Hr).
  eexists. split; [reflexivity|]. cbn [graph].
  rewrite documents_run_query. unfold item_query.
  destruct (chunk_pages_from split_text 1 (map page_text pages))
    as [|c cs]; [done|].
  unfold descriptor_title, descriptor_file_name, descriptor_mime_type,
    descriptor_page_count, get.
  rewrite Ht, HT, Hfn, Hm1, Hm2, Hpc1, Hpc2. simpl.
  rewrite length_map.
  apply (merge_document_spec
           (DocParams (VStr p) (VStr (basename p)) (VStr (basename p))
              (Z.of_nat (length pages)) (VStr "application/pdf"))).
Qed.

(** C1, amended to what the code does.  Every entry whose path is a
    readable file but whose pages give no chunk is still registered,
    whatever its descriptor holds: a Document with that path is in the
    store, no Chunk node and no relationship is added, and the counter
    goes up by one.  When the descriptor supplies a non-zero page count,
    the stored [page_count] is the descriptor's value. *)
Theorem empty_document_is_registered (split_text : splitter)
    (item : gmap string value) (p : string) (pages : list pdf_page) (n : Z)
    (w : world) :
  splitter_is split_text ->
  resolved_path item = VStr p -> p <> EmptyString ->
  os_path_isfile (VStr p) = Ok true -> PdfReader (VStr p) = Ok pages ->
  chunk_pages_from split_text 1 (map page_text pages) = [] ->
  exists w',
    item_step item n w = Done (n + 1) w' /\
    chunk_nodes (graph w') = chunk_nodes (graph w) /\
    has_chunk (graph w') = has_chunk (graph w) /\
    (exists d, d ∈ documents (graph w') /\ d_path d = VStr p) /\
    (descriptor_page_count int_of_str item <> 0 ->
     forall d, d ∈ documents (graph w') -> d_path d = VStr p ->
               d_page_count d = descriptor_page_count int_of_str item).
Proof.
  intros Hs Hp Hne Hf Hr Hchunks.
  rewrite (ingest_item_valid split_text item p pages n w Hs Hp Hne Hf Hr).
  eexists. split; [reflexivity|]. cbn [graph].
  unfold item_query. rewrite Hchunks.
  split; [done|]. split; [done|].
  rewrite documents_run_query.
  match goal with |- context [merge_document ?q _] =>
    pose proof (merge_document_spec q (documents (graph w))) as Hspec
  end.
  cbv zeta in Hspec. cbn [p_path p_page_count] in Hspec.
  destruct Hspec as [Hin Hall].
  split.
  - eexists. split; [exact Hin|done].
  - intros _ d Hd Hpath. by rewrite (Hall d Hd Hpath).
Qed.

(** C8. When the file exists and the reader opens it, the result has
    one string per page, in page order: the extracted text where
    extraction returns one, and the empty string where it returns
    nothing or raises.  A page whose extraction raises never makes the
    call raise. *)
Theorem extract_recovers_from_page_failure (path : value)
    (pages : list pdf_page) (w : world) :
  os_path_isfile path = Ok true -> PdfReader path = Ok pages ->
  exists texts w',
    extract path w = Done texts w' /\
    length texts = length pages /\
    (forall i e, pages !! i = Some (Raise e) ->
                 texts !! i = Some EmptyString) /\
    (forall i, pages !! i = Some (Ok None) ->
               texts !! i = Some EmptyString) /\
    (forall i s, pages !! i = Some (Ok (Some s)) -> texts !! i = Some s).
Proof.
  intros Hf Hr. rewrite (extract_opened path pages w Hf Hr).
  eexists _, _. split; [reflexivity|]. split; [apply length_map|].
  change (map page_text pages) with (page_text <$> pages).
  unfold pdf_page in *. split; [|split].
  - intros i e H. by rewrite list_lookup_fmap, H.
  - intros i H. by rewrite list_lookup_fmap, H.
  - intros i s H. rewrite list_lookup_fmap, H. simpl. by destruct s.
Qed.

Lemma invariant_ret {A} (P : world -> Prop) (a : A) : invariant P (ret a).
Proof. by intros w Hw. Qed.

Lemma invariant_raise {A} (P : world -> Prop) (e : exn) :
  invariant P (@raise A e).
Proof. by intros w Hw. Qed.

Lemma invariant_bind {A B} (P : world -> Prop) (m : M A) (k : A -> M B) :
  invariant P m -> (forall a, invariant P (k a)) -> invariant P (bind m k).
Proof.
  intros Hm Hk w Hw. unfold bind. specialize (Hm w Hw).
  destruct (m w) as [a w'|e w']; simpl in *; [by apply Hk|done].
Qed.

Lemma invariant_lift {A} (P : world -> Prop) (r : result A) :
  invariant P (lift r).
Proof. intros w Hw. by destruct r. Qed.

Lemma invariant_bind_lift {A B} (P : world -> Prop) (r : result A)
    (k : A -> M B) :
  (forall a, r = Ok a -> invariant P (k a)) -> invariant P (bind (lift r) k).
Proof.
  intros Hk w Hw. unfold bind, lift. destruct r as [a|e]; [|done].
  by apply Hk.
Qed.

Lemma invariant_emit (ev : event) :
  (forall q, ev <> GraphQuery q) -> invariant clean_world (emit ev).
Proof.
  intros Hev w Hw. unfold clean_world, queries in *. simpl.
  rewrite omap_app. simpl.
  destruct ev; try (by rewrite app_nil_r). by destruct (Hev q).
Qed.

Lemma invariant_call {A} (ev : event) (r : result A) :
  (forall q, ev <> GraphQuery q) -> invariant clean_world (call ev r).
Proof.
  intros Hev. unfold call. apply invariant_bind; [by apply invariant_emit|].
  intros _. destruct r; [apply invariant_ret|apply invariant_raise].
Qed.

Lemma invariant_graph_query (q : query) :
  clean_query q -> invariant clean_world (graph_query q).
Proof.
  intros Hq w Hw. unfold clean_world, queries in *. simpl.
  rewrite omap_app. simpl. apply Forall_app. split; [done|]. by constructor.
Qed.

Lemma invariant_extract (path : value) :
  invariant clean_world (extract path).
Proof.
  unfold extract_pdf_text_by_page.
  apply invariant_bind; [by apply invariant_call|]. intros isf.
  destruct (negb isf); [apply invariant_ret|].
  apply invariant_bind; [by apply invariant_call|]. intros pages.
  apply invariant_ret.
Qed.

(** Whatever the loop body does, the statements it sends carry only
    non-blank chunk texts. *)
Lemma invariant_ingest_item (item : gmap string value) (n : Z) :
  invariant clean_world (item_step item n).
Proof.
  assert (Hor : forall a v,
    invariant clean_world (or_else a (lift (os_path_basename v)))).
  { intros a v. unfold or_else.
    destruct (truthy a); [apply invariant_ret|apply invariant_lift]. }
  unfold ingest_item.
  destruct (negb (truthy _)); [apply invariant_ret|].
  apply invariant_bind; [by apply invariant_call|]. intros isf.
  destruct (negb isf); [apply invariant_ret|].
  apply invariant_bind; [apply Hor|]. intros title.
  apply invariant_bind; [apply Hor|]. intros file_name.
  apply invariant_bind; [apply invariant_extract|]. intros pages.
  apply invariant_bind_lift. intros chunks Hchunks.
  apply chunk_pages_ok in Hchunks as (split_text & _ & ->).
  destruct (chunk_pages_from split_text 1 pages) as [|c cs] eqn:E.
  - apply invariant_bind; [|intros _; apply invariant_ret].
    apply invariant_graph_query. constructor.
  - apply invariant_bind; [|intros _; apply invariant_ret].
    apply invariant_graph_query. unfold clean_query. simpl.
    rewrite <- E. apply chunk_pages_from_nonblank.
Qed.

Lemma invariant_ingest_loop (limit : option Z)
    (items : list (gmap string value)) (n : Z) :
  invariant clean_world (loop limit items n).
Proof.
  revert n. induction items as [|item items IH]; intros n; simpl.
  - apply invariant_ret.
  - destruct (limit_reached limit n); [apply invariant_ret|].
    apply invariant_bind; [apply invariant_ingest_item|apply IH].
Qed.

Lemma invariant_ingest_from_json (limit : option Z) (json_path : string) :
  invariant clean_world
    (ingest_from_json os_path_isfile json_load PdfReader int_of_str
       RecursiveCharacterTextSplitter index_name embedding_model chunk_size
       chunk_overlap limit json_path).
Proof.
  unfold ingest_from_json.
  apply invariant_bind; [by apply invariant_call|]. intros isf.
  destruct (negb isf); [apply invariant_raise|].
  apply invariant_bind; [by apply invariant_call|]. intros items.
  apply invariant_bind; [apply invariant_ingest_loop|]. intros processed.
  apply invariant_bind; [by apply invariant_emit|]. intros _.
  apply invariant_bind; [by apply invariant_emit|]. intros _.
  apply invariant_ret.
Qed.

(** C7. Every chunk [chunk_pages] returns has a text that is neither
    empty nor whitespace-only, and comes from a page whose text is not
    empty, so a page without text contributes no chunk.  Hence, in a run
    that starts with an empty trace, every statement sent to the store,
    up to the end of the run or to the exception that ends it, carries
    only non-blank chunk texts. *)
Theorem chunk_text_never_blank (pages : list string) (cs ov : Z)
    (limit : option Z) (json_path : string) (g : Graph) :
  (forall chunks,
      chunk_pages RecursiveCharacterTextSplitter pages cs ov = Ok chunks ->
      Forall (fun c => nonblank (text c) /\
                       exists page_text,
                         pages !! Z.to_nat (page c - 1) = Some page_text /\
                         page_text <> EmptyString)
        chunks) /\
  Forall clean_query
    (queries (trace (final_world
       (ingest_from_json os_path_isfile json_load PdfReader int_of_str
          RecursiveCharacterTextSplitter index_name embedding_model
          chunk_size chunk_overlap limit json_path (World g []))))).
Proof.
  split.
  - intros chunks H. apply chunk_pages_ok in H as (f & _ & ->).
    apply Forall_forall. intros c Hc.
    apply elem_of_chunk_pages_from in Hc as (_ & _ & t & Hl & Ht & _ & Hs).
    split; [by apply strip_nonblank|eauto].
  - apply (invariant_ingest_from_json limit json_path (World g [])).
    constructor.
Qed.

End PipelineFacts.

(** ** The theorems at work on a concrete manifest *)

Lemma demo_entry_valid (path : string) :
  path <> EmptyString ->
  Demo.os_path_isfile (VStr path) = Ok true ->
  (exists pages, Demo.PdfReader (VStr path) = Ok pages) ->
  valid_entry Demo.os_path_isfile Demo.PdfReader (Demo.entry path).
Proof.
  intros Hne Hf Hr. exists path. split; [|done].
  unfold resolved_path, Demo.entry, get, py_or.
  rewrite lookup_singleton_eq. simpl.
  by apply str_truthy_true in Hne as ->.
Qed.

(** A blank split keeps its slot: the chunk after it has index 2; the
    page without text gives nothing. *)
Example chunk_pages_keeps_raw_idx :
  chunk_pages Demo.RecursiveCharacterTextSplitter
    ["alpha| |beta"; ""; "gamma"]%string 1000 200
  = Ok [Chunk 1 0 "alpha"; Chunk 1 2 "beta"; Chunk 3 0 "gamma"].
Proof. reflexivity. Qed.

(** An overlap above the chunk size: the constructor raises, and so does
    [chunk_pages]. *)
Example chunk_pages_bad_parameters :
  chunk_pages Demo.RecursiveCharacterTextSplitter ["alpha"]%string 100 200
  = Raise (ValueError "bad chunk size or overlap").
Proof. reflexivity. Qed.

Lemma chunk_pages_idx_is_raw_position_witness :
  exists chunks,
    chunk_pages Demo.RecursiveCharacterTextSplitter
      ["alpha| |beta"; ""; "gamma"]%string 1000 200 = Ok chunks /\
    forall i j t,
      Chunk i j t ∈ chunks <->
      1 <= i /\ 0 <= j /\
      exists page_text,
        ["alpha| |beta"; ""; "gamma"]%string !! Z.to_nat (i - 1)
        = Some page_text /\
        page_text <> EmptyString /\
        Demo.split_text page_text !! Z.to_nat j = Some t /\
        strip t <> EmptyString.
Proof.
  apply (chunk_pages_idx_is_raw_position Demo.RecursiveCharacterTextSplitter
           ["alpha| |beta"; ""; "gamma"]%string 1000 200 Demo.split_text).
  reflexivity.
Defined.

Lemma chunk_pages_ordered_witness :
  StronglySorted chunk_before
    [Chunk 1 0 "alpha"; Chunk 1 2 "beta"; Chunk 3 0 "gamma"] /\
  Forall (fun c => 1 <= page c /\ 0 <= idx c)
    [Chunk 1 0 "alpha"; Chunk 1 2 "beta"; Chunk 3 0 "gamma"].
Proof.
  apply (chunk_pages_ordered Demo.RecursiveCharacterTextSplitter
           ["alpha| |beta"; ""; "gamma"]%string 1000 200).
  reflexivity.
Defined.

Lemma chunk_text_never_blank_witness :
  Forall (fun c => nonblank (text c) /\
                   exists page_text,
                     ["alpha| |beta"; ""; "gamma"]%string
                       !! Z.to_nat (page c - 1) = Some page_text /\
                     page_text <> EmptyString)
    [Chunk 1 0 "alpha"; Chunk 1 2 "beta"; Chunk 3 0 "gamma"] /\
  Forall clean_query (queries (trace (final_world (Demo.run None Demo.w0)))).
Proof.
  destruct (chunk_text_never_blank Demo.os_path_isfile Demo.json_load
              Demo.PdfReader Demo.int_of_str
              Demo.RecursiveCharacterTextSplitter "pdf_chunks"
              "qwen3-embedding:0.6b" 1000 200
              ["alpha| |beta"; ""; "gamma"]%string 1000 200 None
              "manifest.json" empty_graph) as [Hchunks Hrun].
  split; [|exact Hrun]. apply Hchunks. reflexivity.
Defined.

(** Five valid entries and a limit of 2: two entries are processed, and
    the run is the run on the first two entries. *)
Lemma limit_is_an_early_exit_cap_witness :
  exists w',
    Demo.loop (Some 2) (take 2 Demo.manifest) 0 Demo.w0 = Done 2 w' /\
    Demo.loop (Some 2) Demo.manifest 0 Demo.w0 = Done 2 w'.
Proof.
  apply (proj2 (limit_is_an_early_exit_cap Demo.os_path_isfile Demo.PdfReader
                  Demo.int_of_str Demo.RecursiveCharacterTextSplitter 1000
                  200 2 Demo.split_text (take 2 Demo.manifest)
                  (drop 2 Demo.manifest) 0 Demo.w0)).
  - reflexivity.
  - repeat constructor; apply demo_entry_valid; (done || eauto).
  - reflexivity.
Defined.

Lemma skipped_entry_is_silent_witness :
  skipped_entry Demo.os_path_isfile Demo.missing_entry /\
  exists w',
    Demo.item_step Demo.missing_entry 0 Demo.w0 = Done 0 w' /\
    graph w' = graph Demo.w0 /\
    queries (trace w') = queries (trace Demo.w0) /\
    (limit_reached None 0 = false ->
     Demo.loop None (Demo.missing_entry :: Demo.manifest) 0 Demo.w0
     = Demo.loop None Demo.manifest 0 w').
Proof.
  assert (H : skipped_entry Demo.os_path_isfile Demo.missing_entry)
    by (right; reflexivity).
  split; [exact H|].
  exact (skipped_entry_is_silent Demo.os_path_isfile Demo.PdfReader
           Demo.int_of_str Demo.RecursiveCharacterTextSplitter 1000 200 None
           Demo.missing_entry Demo.manifest 0 Demo.w0 H).
Defined.

Lemma nonpositive_limit_processes_nothing_witness :
  Demo.run (Some 0) Demo.w0
  = Done 0
      (World empty_graph
         [IsFile (VStr "manifest.json"); JsonLoad "manifest.json";
          BuildIndex "pdf_chunks" "qwen3-embedding:0.6b";
          Report 0 "pdf_chunks"]).
Proof.
  apply (nonpositive_limit_processes_nothing Demo.os_path_isfile
           Demo.json_load Demo.PdfReader Demo.int_of_str
           Demo.RecursiveCharacterTextSplitter "pdf_chunks"
           "qwen3-embedding:0.6b" 1000 200 0 "manifest.json" Demo.manifest
           Demo.w0); [lia|reflexivity|reflexivity].
Defined.

Lemma fallback_metadata_witness :
  exists w',
    Demo.item_step (Demo.entry "docs/a.pdf") 0 Demo.w0 = Done 1 w' /\
    let doc := Document (VStr "docs/a.pdf") (VStr "a.pdf") (VStr "a.pdf") 3
                 (VStr "application/pdf") in
    doc ∈ documents (graph w') /\
    forall d, d ∈ documents (graph w') -> d_path d = VStr "docs/a.pdf" ->
              d = doc.
Proof.
  apply (fallback_metadata Demo.os_path_isfile Demo.PdfReader Demo.int_of_str
           Demo.RecursiveCharacterTextSplitter 1000 200 Demo.split_text
           (Demo.entry "docs/a.pdf") "docs/a.pdf"
           [Ok (Some "alpha| |beta"); Raise (PyException "KeyError");
            Ok (Some "gamma")] 0 Demo.w0);
    first [reflexivity | discriminate | (vm_compute; discriminate)].
Defined.

(** [docs/blank.pdf] with only its path in the descriptor, and with a
    page count of 5 in it: both are registered without a chunk, and the
    second one stores 5. *)
Lemma empty_document_is_registered_witness :
  (exists w',
     Demo.item_step Demo.blank_entry 0 Demo.w0 = Done 1 w' /\
     chunk_nodes (graph w') = [] /\
     has_chunk (graph w') = [] /\
     exists d, d ∈ documents (graph w') /\ d_path d = VStr "docs/blank.pdf") /\
  (exists w',
     Demo.item_step Demo.counted_blank_entry 0 Demo.w0 = Done 1 w' /\
     chunk_nodes (graph w') = [] /\
     has_chunk (graph w') = [] /\
     (exists d, d ∈ documents (graph w') /\
                d_path d = VStr "docs/blank.pdf") /\
     forall d, d ∈ documents (graph w') -> d_path d = VStr "docs/blank.pdf" ->
               d_page_count d = 5).
Proof.
  split.
  - destruct (empty_document_is_registered Demo.os_path_isfile
                Demo.PdfReader Demo.int_of_str
                Demo.RecursiveCharacterTextSplitter 1000 200 Demo.split_text
                Demo.blank_entry "docs/blank.pdf"
                [Ok (Some EmptyString); Ok None] 0 Demo.w0)
      as (w' & Hstep & Hchunks & Hrels & Hdoc & _);
      [reflexivity|reflexivity|discriminate|reflexivity|reflexivity
      |reflexivity|].
    exists w'. split; [exact Hstep|]. split; [exact Hchunks|].
    split; [exact Hrels|exact Hdoc].
  - destruct (empty_document_is_registered Demo.os_path_isfile
                Demo.PdfReader Demo.int_of_str
                Demo.RecursiveCharacterTextSplitter 1000 200 Demo.split_text
                Demo.counted_blank_entry "docs/blank.pdf"
                [Ok (Some EmptyString); Ok None] 0 Demo.w0)
      as (w' & Hstep & Hchunks & Hrels & Hdoc & Hcount);
      [reflexivity|reflexivity|discriminate|reflexivity|reflexivity
      |reflexivity|].
    exists w'. split; [exact Hstep|]. split; [exact Hchunks|].
    split; [exact Hrels|]. split; [exact Hdoc|].
    apply Hcount. vm_compute. discriminate.
Defined.

Lemma extract_recovers_from_page_failure_witness :
  exists texts w',
    extract_pdf_text_by_page Demo.os_path_isfile Demo.PdfReader
      (VStr "docs/a.pdf") Demo.w0 = Done texts w' /\
    length texts = 3%nat /\
    (forall i e,
        [Ok (Some "alpha| |beta"); Raise (PyException "KeyError");
         Ok (Some "gamma")] !! i = Some (Raise e) ->
        texts !! i = Some EmptyString) /\
    (forall i,
        [Ok (Some "alpha| |beta"); Raise (PyException "KeyError");
         Ok (Some "gamma")] !! i = Some (Ok None) ->
        texts !! i = Some EmptyString) /\
    (forall i s,
        [Ok (Some "alpha| |beta"); Raise (PyException "KeyError");
         Ok (Some "gamma")] !! i = Some (Ok (Some s)) ->
        texts !! i = Some s).
Proof.
  apply (extract_recovers_from_page_failure Demo.os_path_isfile Demo.PdfReader
           (VStr "docs/a.pdf")
           [Ok (Some "alpha| |beta"); Raise (PyException "KeyError");
            Ok (Some "gamma")] Demo.w0); reflexivity.
Defined.

(** On the empty store the upsert creates one Document node and one Chunk
    node per key; the later text wins for the repeated key. *)
Example upsert_on_empty_store :
  run_query Demo.upsert_a empty_graph
  = MkGraph
      [Document (VStr "docs/a.pdf") (VStr "a.pdf") (VStr "a.pdf") 3
         (VStr "application/pdf")]
      [ChunkN (VStr "docs/a.pdf") 1 0 "ALPHA";
       ChunkN (VStr "docs/a.pdf") 1 2 "beta"]
      [(0, 0); (0, 1)]%nat.
Proof. reflexivity. Qed.

Lemma upsert_document_idempotent_witness :
  run_query Demo.upsert_a (run_query Demo.upsert_a empty_graph)
  = run_query Demo.upsert_a empty_graph /\
  unique_keys (run_query Demo.upsert_a empty_graph).
Proof.
  destruct (upsert_document_idempotent
              (DocParams (VStr "docs/a.pdf") (VStr "a.pdf") (VStr "a.pdf") 3
                 (VStr "application/pdf"))
              [Chunk 1 0 "alpha"; Chunk 1 2 "beta"; Chunk 1 0 "ALPHA"]
              empty_graph) as [Hsame Hunique].
  split; [exact Hsame|]. apply Hunique. split; constructor.
Defined.

(** ** Where the page count of an empty document comes from *)

(** The empty-document branch stores the descriptor's page count, not the
    number of extracted pages: [docs/blank.pdf] has two pages and no
    chunk, its descriptor says 5, and 5 is stored. *)
Example empty_document_keeps_descriptor_page_count :
  extract_pdf_text_by_page Demo.os_path_isfile Demo.PdfReader
    (VStr "docs/blank.pdf") Demo.w0
  = Done [EmptyString; EmptyString]
      (World empty_graph
         [IsFile (VStr "docs/blank.pdf"); ReadPdf (VStr "docs/blank.pdf")]) /\
  chunk_pages Demo.RecursiveCharacterTextSplitter [EmptyString; EmptyString]
    1000 200 = Ok [] /\
  graph (final_world (Demo.item_step Demo.counted_blank_entry 0 Demo.w0))
  = MkGraph
      [Document (VStr "docs/blank.pdf") (VStr "blank.pdf") (VStr "blank.pdf")
         5 (VStr "application/pdf")]
      [] [].
Proof. repeat split; reflexivity. Qed.

(** The claim that the stored page count of an empty document is always
    the number of extracted pages fails in the concrete environment. *)
Lemma empty_document_page_count_counterexample :
  ~ (forall (item : gmap string value) (p : string) (pages : list pdf_page)
            (n : Z) (w : world),
        resolved_path item = VStr p -> p <> EmptyString ->
        Demo.os_path_isfile (VStr p) = Ok true ->
        Demo.PdfReader (VStr p) = Ok pages ->
        chunk_pages Demo.RecursiveCharacterTextSplitter (map page_text pages)
          1000 200 = Ok [] ->
        exists w',
          Demo.item_step item n w = Done (n + 1) w' /\
          forall d, d ∈ documents (graph w') -> d_path d = VStr p ->
                    d_page_count d = Z.of_nat (length pages)).
Proof.
  intros H.
  destruct (H Demo.counted_blank_entry "docs/blank.pdf"
              [Ok (Some EmptyString); Ok None] 0 Demo.w0)
    as (w' & Hstep & Hall);
    try first [reflexivity | discriminate].
  vm_compute in Hstep. injection Hstep as <-.
  specialize (Hall (Document (VStr "docs/blank.pdf") (VStr "blank.pdf")
                      (VStr "blank.pdf") 5 (VStr "application/pdf"))).
  simpl in Hall. discriminate Hall; [by left|reflexivity].
Qed.

(** Without a page count in the descriptor the same branch stores 0 for
    the two-page document, where the branch for documents with chunks
    would store the number of pages. *)
Example empty_document_without_page_count_stores_zero :
  graph (final_world (Demo.item_step Demo.blank_entry 0 Demo.w0))
  = MkGraph
      [Document (VStr "docs/blank.pdf") (VStr "blank.pdf") (VStr "blank.pdf")
         0 (VStr "application/pdf")]
      [] [].
Proof. reflexivity. Qed.

(** ** A whole run *)

(** With a limit of 2, only the first two entries of the manifest leave
    any mark in the trace. *)
Example run_with_limit_two :
  exists g,
    Demo.run (Some 2) Demo.w0
    = Done 2
        (World g
           [IsFile (VStr "manifest.json"); JsonLoad "manifest.json";
            IsFile (VStr "docs/a.pdf"); IsFile (VStr "docs/a.pdf");
            ReadPdf (VStr "docs/a.pdf");
            GraphQuery
              (UpsertDocument
                 (DocParams (VStr "docs/a.pdf") (VStr "a.pdf") (VStr "a.pdf")
                    3 (VStr "application/pdf"))
                 [Chunk 1 0 "alpha"; Chunk 1 2 "beta"; Chunk 3 0 "gamma"]);
            IsFile (VStr "docs/b.pdf"); IsFile (VStr "docs/b.pdf");
            ReadPdf (VStr "docs/b.pdf");
            GraphQuery
              (UpsertDocument
                 (DocParams (VStr "docs/b.pdf") (VStr "b.pdf") (VStr "b.pdf")
                    1 (VStr "application/pdf"))
                 [Chunk 1 0 "text"]);
            BuildIndex "pdf_chunks" "qwen3-embedding:0.6b";
            Report 2 "pdf_chunks"]) /\
    length (documents g) = 2%nat /\ length (chunk_nodes g) = 4%nat.
Proof. eexists. split; [vm_compute; reflexivity|]. split; reflexivity. Qed.

(** * Further properties *)

(** ** Writes keyed by a merge key: the last writer wins *)

Section LastWriter.

Context {A K W : Type}.
Variables (key : A -> K) (wkey : W -> K).
Variables (wmatch : W -> A -> bool) (wcreate : W -> A) (wupdate : W -> A -> A).
Hypothesis match_key : forall w n, wmatch w n = true <-> key n = wkey w.
Hypothesis key_create : forall w, key (wcreate w) = wkey w.
Hypothesis key_update : forall w n, key (wupdate w n) = key n.
Hypothesis update_key :
  forall w n n', key n = key n' -> wupdate w n = wupdate w n'.

Local Abbreviation write := (write_node wmatch wcreate wupdate).
Local Abbreviation writes := (write_all wmatch wcreate wupdate).
Local Abbreviation rewrite1 := (rewrite_node wmatch wupdate).
Local Abbreviation rewrites := (rewrite_all wmatch wupdate).

Lemma wmatch_same_key (w : W) (n n' : A) :
  key n = key n' -> wmatch w n = wmatch w n'.
Proof.
  intros Hk. destruct (wmatch w n) eqn:E.
  - symmetry. apply match_key. rewrite <- Hk. by apply match_key.
  - destruct (wmatch w n') eqn:E'; [|done].
    apply match_key in E'. rewrite <- Hk in E'. apply match_key in E'.
    congruence.
Qed.

Lemma wmatch_create (w : W) : wmatch w (wcreate w) = true.
Proof. apply match_key, key_create. Qed.

Lemma wmatch_update (w w' : W) (n : A) :
  wmatch w' (wupdate w n) = wmatch w' n.
Proof. apply wmatch_same_key, key_update. Qed.

Lemma key_rewrite1 (w : W) (n : A) : key (rewrite1 w n) = key n.
Proof. unfold rewrite_node. destruct (wmatch w n); [apply key_update|done]. Qed.

Lemma wmatch_rewrite1 (w w' : W) (n : A) :
  wmatch w' (rewrite1 w n) = wmatch w' n.
Proof. apply wmatch_same_key, key_rewrite1. Qed.

Lemma writes_cons (w : W) (ws : list W) (l : list A) :
  writes (w :: ws) l = writes ws (write w l).
Proof. reflexivity. Qed.

Lemma writes_app (ws1 ws2 : list W) (l : list A) :
  writes (ws1 ++ ws2) l = writes ws2 (writes ws1 l).
Proof. unfold write_all. apply foldl_app. Qed.

Lemma rewrites_cons (w : W) (ws : list W) (n : A) :
  rewrites (w :: ws) n = rewrites ws (rewrite1 w n).
Proof. reflexivity. Qed.

Lemma write_present (w : W) (l : list A) :
  existsb (wmatch w) l = true -> write w l = map (rewrite1 w) l.
Proof. intros H. unfold write_node. by rewrite merge_nodes_present. Qed.

Lemma existsb_write (w : W) (l : list A) :
  existsb (wmatch w) (write w l) = true.
Proof.
  unfold write_node. apply existsb_merge_nodes.
  - apply wmatch_create.
  - intros n. apply wmatch_update.
Qed.

Lemma existsb_write_mono (w w' : W) (l : list A) :
  existsb (wmatch w') l = true -> existsb (wmatch w') (write w l) = true.
Proof.
  intros H. unfold write_node. apply existsb_merge_nodes_mono; [|done].
  intros n. apply wmatch_update.
Qed.

Lemma existsb_writes_mono (ws : list W) (w' : W) (l : list A) :
  existsb (wmatch w') l = true -> existsb (wmatch w') (writes ws l) = true.
Proof.
  revert l. induction ws as [|w ws IH]; intros l H; [done|].
  rewrite writes_cons. by apply IH, existsb_write_mono.
Qed.

Lemma writes_all_present (ws : list W) (l : list A) (w : W) :
  In w ws -> existsb (wmatch w) (writes ws l) = true.
Proof.
  revert l. induction ws as [|w0 ws IH]; intros l []; rewrite writes_cons.
  - subst w0. apply existsb_writes_mono, existsb_write.
  - by apply IH.
Qed.

(** When every write already has a node to match, the writes only
    rewrite nodes, one by one. *)
Lemma writes_present (ws : list W) (l : list A) :
  (forall w, In w ws -> existsb (wmatch w) l = true) ->
  writes ws l = map (rewrites ws) l.
Proof.
  revert l. induction ws as [|w ws IH]; intros l H.
  - simpl. by rewrite map_id.
  - rewrite writes_cons, write_present by (apply H; by left).
    rewrite IH, map_map; [done|].
    intros w' Hw'. rewrite existsb_map_preserved.
    + apply H. by right.
    + intros n. apply wmatch_rewrite1.
Qed.

Lemma rewrites_same_key (ws : list W) (n n' : A) :
  key n = key n' ->
  (exists w, In w ws /\ wmatch w n = true) ->
  rewrites ws n = rewrites ws n'.
Proof.
  revert n n'. induction ws as [|w ws IH]; intros n n' Hk (w0 & Hin & Hm).
  - destruct Hin.
  - rewrite !rewrites_cons. unfold rewrite_node.
    rewrite <- (wmatch_same_key w n n' Hk).
    destruct (wmatch w n) eqn:E.
    + f_equal. by apply update_key.
    + apply IH; [done|]. destruct Hin as [->|Hin]; [congruence|eauto].
Qed.

Lemma writes_origin (ws : list W) (l : list A) (n : A) :
  In n (writes ws l) ->
  (exists w, In w ws /\ wmatch w n = true) \/ In n l.
Proof.
  revert l. induction ws as [|w ws IH]; intros l Hn.
  - by right.
  - rewrite writes_cons in Hn.
    apply IH in Hn as [(w' & Hin & Hm)|Hn]; [left; exists w'; split; [by right|done]|].
    destruct (wmatch w n) eqn:E; [left; exists w; split; [by left|done]|].
    right. revert Hn E. unfold write_node. apply merge_nodes_untouched.
    + apply wmatch_create.
    + intros n0. apply wmatch_update.
Qed.

Lemma write_content (w : W) (l : list A) (n : A) :
  In n (write w l) -> wmatch w n = true -> wupdate w n = n.
Proof.
  unfold write_node. intros Hin Hm.
  destruct (merge_nodes_updated _ _ _ _ _ Hin Hm) as (n0 & -> & _).
  apply update_key, key_update.
Qed.

(** After the writes, running every update again on a node gives the
    node back. *)
Lemma writes_fixed (ws : list W) (l : list A) (n : A) :
  In n (writes ws l) -> rewrites ws n = n.
Proof.
  revert l. induction ws as [|w ws IH]; intros l Hn; [done|].
  rewrite writes_cons in Hn. rewrite rewrites_cons.
  pose proof (IH _ Hn) as Hfix.
  unfold rewrite_node. destruct (wmatch w n) eqn:E; [|done].
  destruct (writes_origin _ _ _ Hn) as [(w' & Hin & Hm)|Hin].
  - rewrite <- Hfix at 2. apply rewrites_same_key; [apply key_update|].
    exists w'. by rewrite wmatch_update.
  - by rewrite (write_content _ _ _ Hin E).
Qed.

Lemma writes_idempotent (ws : list W) (l : list A) :
  writes ws (writes ws l) = writes ws l.
Proof.
  rewrite writes_present by (intros w Hw; by apply writes_all_present).
  rewrite <- (map_id (writes ws l)) at 2.
  apply map_ext_in. intros n Hn. by apply writes_fixed in Hn.
Qed.

End LastWriter.

(** ** A sequence of statements, sent twice *)

Lemma doc_writes_idempotent (ws : list doc_params) (ds : list DocumentNode) :
  doc_writes ws (doc_writes ws ds) = doc_writes ws ds.
Proof.
  unfold doc_writes. apply (writes_idempotent d_path p_path).
  - intros p d. unfold doc_matches. apply bool_decide_eq_true.
  - reflexivity.
  - reflexivity.
  - intros p d d' H. unfold set_document. by rewrite H.
Qed.

Lemma node_writes_idempotent (ws : list (value * chunk))
    (cs : list ChunkNode) :
  node_writes ws (node_writes ws cs) = node_writes ws cs.
Proof.
  unfold node_writes.
  apply (writes_idempotent chunk_key
           (fun w : value * chunk => (fst w, page (snd w), idx (snd w)))).
  - intros w c. apply chunk_matches_spec.
  - reflexivity.
  - reflexivity.
  - intros w c c' H. unfold set_content, chunk_key in *.
    by injection H as -> -> ->.
Qed.

Lemma apply_chunks_node_writes (path : value) (chunks : list chunk)
    (cs : list ChunkNode) :
  apply_chunks path chunks cs = node_writes (map (pair path) chunks) cs.
Proof.
  revert cs. induction chunks as [|ch r IH]; intros cs; [done|].
  rewrite apply_chunks_cons, IH. reflexivity.
Qed.

Lemma node_writes_app (ws1 ws2 : list (value * chunk)) (cs : list ChunkNode) :
  node_writes (ws1 ++ ws2) cs = node_writes ws2 (node_writes ws1 cs).
Proof. unfold node_writes. apply writes_app. Qed.

(** However many Document nodes share the path, the chunk nodes end up
    as after one pass over the chunk list. *)
Lemma chunk_nodes_run_query (q : query) (g : Graph) :
  chunk_nodes (run_query q g) = node_writes (chunk_writes q) (chunk_nodes g).
Proof.
  destruct q as [p|p chunks]; [done|].
  rewrite run_query_upsert, chunk_nodes_all_passes. simpl.
  unfold chunk_writes. simpl. rewrite <- apply_chunks_node_writes.
  destruct (find_ids _ _ _) as [|d r] eqn:E.
  - exfalso. by apply (merge_document_has_match p (documents g)).
  - change (length (d :: r)) with (S (length r)).
    by rewrite Nat.iter_succ_r, iter_apply_chunks.
Qed.

Lemma apply_queries_cons (q : query) (qs : list query) (g : Graph) :
  apply_queries (q :: qs) g = apply_queries qs (run_query q g).
Proof. reflexivity. Qed.

Lemma documents_apply_queries (qs : list query) (g : Graph) :
  documents (apply_queries qs g)
  = doc_writes (map query_params qs) (documents g).
Proof.
  revert g. induction qs as [|q qs IH]; intros g; [done|].
  rewrite apply_queries_cons, IH, documents_run_query.
  by destruct q.
Qed.

Lemma chunk_nodes_apply_queries (qs : list query) (g : Graph) :
  chunk_nodes (apply_queries qs g)
  = node_writes (concat (map chunk_writes qs)) (chunk_nodes g).
Proof.
  revert g. induction qs as [|q qs IH]; intros g; [done|].
  rewrite apply_queries_cons, IH, chunk_nodes_run_query. simpl.
  by rewrite node_writes_app.
Qed.

(** *** Links survive the statements of other documents *)

Lemma chunk_matches_create_any (path path' : value) (ch ch' : chunk) :
  chunk_matches path' ch' (ChunkN path (page ch) (idx ch) EmptyString) = true ->
  forall n, chunk_matches path' ch' n = true -> chunk_matches path ch n = true.
Proof.
  intros H n Hn. apply chunk_matches_spec in H, Hn. apply chunk_matches_spec.
  unfold chunk_key in H. simpl in H. congruence.
Qed.

Lemma find_ids_merge_chunk_any (path path' : value) (ch ch' : chunk)
    (i : nat) (cs : list ChunkNode) :
  existsb (chunk_matches path' ch') cs = true ->
  find_ids (chunk_matches path' ch') i (merge_chunk path ch cs)
  = find_ids (chunk_matches path' ch') i cs.
Proof.
  intros H. unfold merge_chunk. apply find_ids_merge_nodes.
  - apply chunk_matches_create.
  - intros c. apply chunk_matches_set.
  - apply chunk_matches_create_any.
  - done.
Qed.

Lemma existsb_merge_chunk_any (path path' : value) (ch ch' : chunk)
    (cs : list ChunkNode) :
  existsb (chunk_matches path' ch') cs = true ->
  existsb (chunk_matches path' ch') (merge_chunk path ch cs) = true.
Proof.
  intros H. unfold merge_chunk. apply existsb_merge_nodes_mono; [|done].
  intros c. apply chunk_matches_set.
Qed.

Lemma linked_preserved_any (path path' : value) (d d' : nat)
    (ch ch' : chunk) (g : Graph) :
  linked path d ch g -> linked path d ch (upsert_chunk path' d' ch' g).
Proof.
  intros [Hex Hrel]. split; simpl.
  - by apply existsb_merge_chunk_any.
  - intros c Hc. rewrite find_ids_merge_chunk_any in Hc by done.
    by apply foldl_merge_rel_mono, Hrel.
Qed.

Lemma linked_preserved_pass_any (path path' : value) (d d' : nat)
    (ch : chunk) (chunks : list chunk) (g : Graph) :
  linked path d ch g -> linked path d ch (upsert_pass path' d' chunks g).
Proof.
  revert g. induction chunks as [|ch' r IH]; intros g H; [done|].
  rewrite upsert_pass_cons. by apply IH, linked_preserved_any.
Qed.

Lemma linked_preserved_all_any (path path' : value) (d : nat) (ch : chunk)
    (chunks : list chunk) (dids : list nat) (g : Graph) :
  linked path d ch g -> linked path d ch (all_passes path' chunks dids g).
Proof.
  revert g. induction dids as [|d' r IH]; intros g H; [done|].
  rewrite all_passes_cons. by apply IH, linked_preserved_pass_any.
Qed.

(** [linked] does not look at the Document nodes. *)
Lemma linked_documents (path : value) (d : nat) (ch : chunk) (g : Graph)
    (ds : list DocumentNode) :
  linked path d ch (MkGraph ds (chunk_nodes g) (has_chunk g))
  <-> linked path d ch g.
Proof. reflexivity. Qed.

Lemma linked_run_query (path : value) (d : nat) (ch : chunk) (q : query)
    (g : Graph) :
  linked path d ch g -> linked path d ch (run_query q g).
Proof.
  intros H. destruct q as [p|p chunks]; [done|].
  rewrite run_query_upsert. by apply linked_preserved_all_any, linked_documents.
Qed.

Lemma doc_matches_create_any (p : doc_params) (path : value) :
  doc_matches path (Document (p_path p) VNone VNone 0 VNone) = true ->
  forall d, doc_matches path d = true -> doc_matches (p_path p) d = true.
Proof.
  unfold doc_matches. simpl. intros H d Hd.
  apply bool_decide_eq_true in H, Hd. apply bool_decide_eq_true. congruence.
Qed.

(** The Document nodes of a path that has one keep their positions. *)
Lemma find_ids_merge_document (p : doc_params) (path : value) (i : nat)
    (ds : list DocumentNode) :
  existsb (doc_matches path) ds = true ->
  find_ids (doc_matches path) i (merge_document p ds)
  = find_ids (doc_matches path) i ds.
Proof.
  intros H. unfold merge_document. apply find_ids_merge_nodes.
  - apply doc_matches_create.
  - intros d. apply doc_matches_set.
  - apply doc_matches_create_any.
  - done.
Qed.

Lemma existsb_merge_document (p : doc_params) (path : value)
    (ds : list DocumentNode) :
  existsb (doc_matches path) ds = true ->
  existsb (doc_matches path) (merge_document p ds) = true.
Proof.
  intros H. unfold merge_document. apply existsb_merge_nodes_mono; [|done].
  intros d. apply doc_matches_set.
Qed.

Lemma existsb_merge_document_own (p : doc_params) (ds : list DocumentNode) :
  existsb (doc_matches (p_path p)) (merge_document p ds) = true.
Proof.
  unfold merge_document. apply existsb_merge_nodes.
  - apply doc_matches_create.
  - intros d. apply doc_matches_set.
Qed.

Lemma settled_after (q : query) (g : Graph) : settled q (run_query q g).
Proof.
  split.
  - rewrite documents_run_query. apply existsb_merge_document_own.
  - intros d ch Hd Hch. rewrite documents_run_query in Hd.
    destruct q as [p|p chunks]; [by apply elem_of_nil in Hch|].
    cbn [query_params chunks_of_query] in *. rewrite run_query_upsert.
    apply linked_after_all; by apply list_elem_of_In.
Qed.

Lemma settled_preserved (q q' : query) (g : Graph) :
  settled q g -> settled q (run_query q' g).
Proof.
  intros [Hex Hlinked]. split.
  - rewrite documents_run_query. by apply existsb_merge_document.
  - intros d ch Hd Hch. rewrite documents_run_query in Hd.
    rewrite find_ids_merge_document in Hd by done.
    by apply linked_run_query, Hlinked.
Qed.

Lemma settled_rels_stable (q : query) (g : Graph) :
  settled q g -> has_chunk (run_query q g) = has_chunk g.
Proof.
  intros [Hex Hlinked]. destruct q as [p|p chunks]; [done|].
  cbn [query_params chunks_of_query] in *. rewrite run_query_upsert.
  rewrite all_passes_rels_stable; [done|].
  intros d ch Hd Hch. apply linked_documents, Hlinked.
  - rewrite find_ids_merge_document in Hd by done. by apply list_elem_of_In.
  - by apply list_elem_of_In.
Qed.

Lemma settled_after_all (qs : list query) (g : Graph) (q : query) :
  In q qs -> settled q (apply_queries qs g).
Proof.
  assert (Hpres : forall qs' g', settled q g' ->
                                 settled q (apply_queries qs' g')).
  { induction qs' as [|q' qs' IH]; intros g' H; [done|].
    rewrite apply_queries_cons. by apply IH, settled_preserved. }
  revert g. induction qs as [|q0 qs IH]; intros g [];
    rewrite apply_queries_cons.
  - subst q0. apply Hpres, settled_after.
  - by apply IH.
Qed.

Lemma apply_queries_rels_stable (qs qs' : list query) (g : Graph) :
  (forall q, In q qs -> settled q g) -> incl qs' qs ->
  has_chunk (apply_queries qs' g) = has_chunk g.
Proof.
  revert g. induction qs' as [|q' qs' IH]; intros g H Hincl; [done|].
  rewrite apply_queries_cons, IH.
  - apply settled_rels_stable, H, Hincl. by left.
  - intros q Hq. by apply settled_preserved, H.
  - intros q Hq. apply Hincl. by right.
Qed.

Lemma apply_queries_idempotent (qs : list query) (g : Graph) :
  apply_queries qs (apply_queries qs g) = apply_queries qs g.
Proof.
  apply graph_eq.
  - rewrite !documents_apply_queries. apply doc_writes_idempotent.
  - rewrite !chunk_nodes_apply_queries. apply node_writes_idempotent.
  - apply (apply_queries_rels_stable qs qs); [|apply incl_refl].
    intros q Hq. by apply settled_after_all.
Qed.

(** X1. Sending a whole sequence of statements a second time leaves the
    store exactly as the first time left it, whatever the statements are
    and whatever the store held before: no node and no relationship is
    added, and no property changes. *)
Theorem statements_twice_is_once (qs : list query) (g : Graph) :
  apply_queries qs (apply_queries qs g) = apply_queries qs g.
Proof. apply apply_queries_idempotent. Qed.

(** ** Ingesting a manifest again *)

Lemma queries_app (e1 e2 : list event) :
  queries (e1 ++ e2) = queries e1 ++ queries e2.
Proof. unfold queries. apply omap_app. Qed.

Lemma apply_queries_app (q1 q2 : list query) (g : Graph) :
  apply_queries (q1 ++ q2) g = apply_queries q2 (apply_queries q1 g).
Proof. unfold apply_queries. apply foldl_app. Qed.

Lemma apply_events_nil (w : world) : apply_events [] w = w.
Proof. destruct w. unfold apply_events. simpl. by rewrite app_nil_r. Qed.

Lemma apply_events_app (e1 e2 : list event) (w : world) :
  apply_events (e1 ++ e2) w = apply_events e2 (apply_events e1 w).
Proof.
  unfold apply_events. simpl.
  by rewrite queries_app, apply_queries_app, app_assoc.
Qed.

Lemma returned_outcome_of {A} (r : result A) (w : world) :
  returned (outcome_of r w) = r.
Proof. by destruct r. Qed.

Lemma final_world_outcome_of {A} (r : result A) (w : world) :
  final_world (outcome_of r w) = w.
Proof. by destruct r. Qed.

Lemma trace_apply_events_blank (evs : list event) :
  trace (apply_events evs blank_world) = evs.
Proof. reflexivity. Qed.

(** A computation that behaves as some fixed result and calls in every
    world is oblivious. *)
Lemma oblivious_intro {A} (m : M A) (r : result A) (evs : list event) :
  (forall w, m w = outcome_of r (apply_events evs w)) -> oblivious m.
Proof.
  intros H w. rewrite (H blank_world), returned_outcome_of,
    final_world_outcome_of, trace_apply_events_blank. apply H.
Qed.

Lemma oblivious_ret {A} (a : A) : oblivious (ret a).
Proof.
  apply (oblivious_intro _ (Ok a) []). intros w. simpl.
  by rewrite apply_events_nil.
Qed.

Lemma oblivious_lift {A} (r : result A) : oblivious (lift r).
Proof.
  apply (oblivious_intro _ r []). intros w. rewrite apply_events_nil.
  by destruct r.
Qed.

Lemma oblivious_raise {A} (e : exn) : oblivious (@raise A e).
Proof.
  apply (oblivious_intro _ (Raise e) []). intros w. simpl.
  by rewrite apply_events_nil.
Qed.

Lemma oblivious_emit (ev : event) :
  (forall q, ev <> GraphQuery q) -> oblivious (emit ev).
Proof.
  intros Hev. apply (oblivious_intro _ (Ok tt) [ev]). intros w.
  unfold emit, apply_events. simpl.
  destruct ev; try done. by destruct (Hev q).
Qed.

Lemma oblivious_graph_query (q : query) : oblivious (graph_query q).
Proof. by apply (oblivious_intro _ (Ok tt) [GraphQuery q]). Qed.

Lemma oblivious_bind {A B} (m : M A) (k : A -> M B) :
  oblivious m -> (forall a, oblivious (k a)) -> oblivious (bind m k).
Proof.
  intros Hm Hk.
  destruct (m blank_world) as [a wb|e wb] eqn:Eb.
  - apply (oblivious_intro _ (returned (k a blank_world))
             (trace wb ++ trace (final_world (k a blank_world)))).
    intros w. unfold bind. rewrite (Hm w), Eb. simpl.
    rewrite (Hk a (apply_events (trace wb) w)).
    by rewrite apply_events_app.
  - apply (oblivious_intro _ (Raise e) (trace wb)).
    intros w. unfold bind. by rewrite (Hm w), Eb.
Qed.

Lemma oblivious_call {A} (ev : event) (r : result A) :
  (forall q, ev <> GraphQuery q) -> oblivious (call ev r).
Proof.
  intros Hev. unfold call. apply oblivious_bind; [by apply oblivious_emit|].
  intros _. destruct r; [apply oblivious_ret|apply oblivious_raise].
Qed.

Section Oblivious.

Variable os_path_isfile : value -> result bool.
Variable json_load : string -> result (list (gmap string value)).
Variable PdfReader : value -> result (list pdf_page).
Variable int_of_str : string -> option Z.
Variable RecursiveCharacterTextSplitter : Z -> Z -> result splitter.
Variables (index_name embedding_model : string).
Variables (chunk_size chunk_overlap : Z).

Lemma oblivious_extract (path : value) :
  oblivious (extract_pdf_text_by_page os_path_isfile PdfReader path).
Proof.
  unfold extract_pdf_text_by_page.
  apply oblivious_bind; [by apply oblivious_call|]. intros isf.
  destruct (negb isf); [apply oblivious_ret|].
  apply oblivious_bind; [by apply oblivious_call|]. intros pages.
  apply oblivious_ret.
Qed.

Lemma oblivious_ingest_item (item : gmap string value) (n : Z) :
  oblivious (ingest_item os_path_isfile PdfReader int_of_str
               RecursiveCharacterTextSplitter chunk_size chunk_overlap
               item n).
Proof.
  assert (Hor : forall a v,
    oblivious (or_else a (lift (os_path_basename v)))).
  { intros a v. unfold or_else.
    destruct (truthy a); [apply oblivious_ret|apply oblivious_lift]. }
  unfold ingest_item.
  destruct (negb (truthy _)); [apply oblivious_ret|].
  apply oblivious_bind; [by apply oblivious_call|]. intros isf.
  destruct (negb isf); [apply oblivious_ret|].
  apply oblivious_bind; [apply Hor|]. intros title.
  apply oblivious_bind; [apply Hor|]. intros file_name.
  apply oblivious_bind; [apply oblivious_extract|]. intros pages.
  apply oblivious_bind; [apply oblivious_lift|]. intros chunks.
  destruct chunks;
    (apply oblivious_bind; [apply oblivious_graph_query|]);
    intros _; apply oblivious_ret.
Qed.

Lemma oblivious_ingest_loop (limit : option Z)
    (items : list (gmap string value)) (n : Z) :
  oblivious (ingest_loop os_path_isfile PdfReader int_of_str
               RecursiveCharacterTextSplitter chunk_size chunk_overlap
               limit items n).
Proof.
  revert n. induction items as [|item items IH]; intros n; simpl.
  - apply oblivious_ret.
  - destruct (limit_reached limit n); [apply oblivious_ret|].
    apply oblivious_bind; [apply oblivious_ingest_item|apply IH].
Qed.

Lemma oblivious_ingest_from_json (limit : option Z) (json_path : string) :
  oblivious (ingest_from_json os_path_isfile json_load PdfReader int_of_str
               RecursiveCharacterTextSplitter index_name embedding_model
               chunk_size chunk_overlap limit json_path).
Proof.
  unfold ingest_from_json.
  apply oblivious_bind; [by apply oblivious_call|]. intros isf.
  destruct (negb isf); [apply oblivious_raise|].
  apply oblivious_bind; [by apply oblivious_call|]. intros items.
  apply oblivious_bind; [apply oblivious_ingest_loop|]. intros processed.
  apply oblivious_bind; [by apply oblivious_emit|]. intros _.
  apply oblivious_bind; [by apply oblivious_emit|]. intros _.
  apply oblivious_ret.
Qed.

(** X3. Ingesting the same manifest a second time, in the same
    environment, leaves the store exactly as the first run left it,
    whether the runs return or raise: no Document, Chunk or relationship
    is added or changed by the second run. *)
Theorem reingestion_is_idempotent (limit : option Z) (json_path : string)
    (w : world) :
  let run :=
    ingest_from_json os_path_isfile json_load PdfReader int_of_str
      RecursiveCharacterTextSplitter index_name embedding_model
      chunk_size chunk_overlap limit json_path in
  graph (final_world (run (final_world (run w))))
  = graph (final_world (run w)).
Proof.
  intros run.
  pose proof (oblivious_ingest_from_json limit json_path) as H.
  fold run in H.
  rewrite (H (final_world (run w))), (H w).
  rewrite !final_world_outcome_of. simpl.
  apply apply_queries_idempotent.
Qed.

End Oblivious.

(** ** Relations every call of the loop keeps *)

Lemma apply_events_other (ev : event) (w : world) :
  (forall q, ev <> GraphQuery q) ->
  apply_events [ev] w = World (graph w) (trace w ++ [ev]).
Proof.
  intros H. unfold apply_events. destruct ev; try done. by destruct (H q).
Qed.

Section Respects.

Variable R : world -> world -> Prop.
Variable ok : event -> Prop.
Hypothesis R_refl : forall w, R w w.
Hypothesis R_trans : forall w1 w2 w3, R w1 w2 -> R w2 w3 -> R w1 w3.
Hypothesis R_event : forall ev w, ok ev -> R w (apply_events [ev] w).

Lemma respects_ret {A} (a : A) : respects R (ret a).
Proof. intros w. apply R_refl. Qed.

Lemma respects_raise {A} (e : exn) : respects R (@raise A e).
Proof. intros w. apply R_refl. Qed.

Lemma respects_lift {A} (r : result A) : respects R (lift r).
Proof. intros w. destruct r; apply R_refl. Qed.

Lemma respects_bind {A B} (m : M A) (k : A -> M B) :
  respects R m -> (forall a, respects R (k a)) -> respects R (bind m k).
Proof.
  intros Hm Hk w. unfold bind. specialize (Hm w).
  destruct (m w) as [a w'|e w']; simpl in *; [|done].
  eapply R_trans; [exact Hm|apply Hk].
Qed.

Lemma respects_emit (ev : event) :
  ok ev -> (forall q, ev <> GraphQuery q) -> respects R (emit ev).
Proof.
  intros Hok Hev w. unfold emit. simpl.
  rewrite <- (apply_events_other ev w Hev). by apply R_event.
Qed.

Lemma respects_call {A} (ev : event) (r : result A) :
  ok ev -> (forall q, ev <> GraphQuery q) -> respects R (call ev r).
Proof.
  intros Hok Hev. unfold call. apply respects_bind; [by apply respects_emit|].
  intros _. destruct r; [apply respects_ret|apply respects_raise].
Qed.

Lemma respects_graph_query (q : query) :
  ok (GraphQuery q) -> respects R (graph_query q).
Proof. intros Hok w. by apply (R_event (GraphQuery q) w). Qed.

Lemma respects_or_else (a : value) (r : result value) :
  respects R (or_else a (lift r)).
Proof.
  unfold or_else. destruct (truthy a); [apply respects_ret|apply respects_lift].
Qed.

Variable os_path_isfile : value -> result bool.
Variable json_load : string -> result (list (gmap string value)).
Variable PdfReader : value -> result (list pdf_page).
Variable int_of_str : string -> option Z.
Variable RecursiveCharacterTextSplitter : Z -> Z -> result splitter.
Variables (index_name embedding_model : string).
Variables (chunk_size chunk_overlap : Z).

Hypothesis ok_isfile : forall p, ok (IsFile p).
Hypothesis ok_readpdf : forall p, ok (ReadPdf p).

Lemma respects_extract (path : value) :
  respects R (extract_pdf_text_by_page os_path_isfile PdfReader path).
Proof.
  unfold extract_pdf_text_by_page.
  apply respects_bind; [by apply respects_call|]. intros isf.
  destruct (negb isf); [apply respects_ret|].
  apply respects_bind; [by apply respects_call|]. intros pages.
  apply respects_ret.
Qed.

Hypothesis ok_query : forall q, ok (GraphQuery q).

Lemma respects_ingest_item (item : gmap string value) (n : Z) :
  respects R (ingest_item os_path_isfile PdfReader int_of_str
                RecursiveCharacterTextSplitter chunk_size chunk_overlap
                item n).
Proof.
  unfold ingest_item.
  destruct (negb (truthy _)); [apply respects_ret|].
  apply respects_bind; [by apply respects_call|]. intros isf.
  destruct (negb isf); [apply respects_ret|].
  apply respects_bind; [apply respects_or_else|]. intros title.
  apply respects_bind; [apply respects_or_else|]. intros file_name.
  apply respects_bind; [apply respects_extract|]. intros pages.
  apply respects_bind; [apply respects_lift|]. intros chunks.
  destruct chunks;
    (apply respects_bind; [by apply respects_graph_query|]);
    intros _; apply respects_ret.
Qed.

Lemma respects_ingest_loop (limit : option Z)
    (items : list (gmap string value)) (n : Z) :
  respects R (ingest_loop os_path_isfile PdfReader int_of_str
                RecursiveCharacterTextSplitter chunk_size chunk_overlap
                limit items n).
Proof.
  revert n. induction items as [|item items IH]; intros n; simpl.
  - apply respects_ret.
  - destruct (limit_reached limit n); [apply respects_ret|].
    apply respects_bind; [apply respects_ingest_item|apply IH].
Qed.

Hypothesis ok_jsonload : forall p, ok (JsonLoad p).
Hypothesis ok_build : forall i m, ok (BuildIndex i m).
Hypothesis ok_report : forall n i, ok (Report n i).

Lemma respects_ingest_from_json (limit : option Z) (json_path : string) :
  respects R (ingest_from_json os_path_isfile json_load PdfReader int_of_str
                RecursiveCharacterTextSplitter index_name embedding_model
                chunk_size chunk_overlap limit json_path).
Proof.
  unfold ingest_from_json.
  apply respects_bind; [by apply respects_call|]. intros isf.
  destruct (negb isf); [apply respects_raise|].
  apply respects_bind; [by apply respects_call|]. intros items.
  apply respects_bind; [apply respects_ingest_loop|]. intros processed.
  apply respects_bind; [by apply respects_emit|]. intros _.
  apply respects_bind; [by apply respects_emit|]. intros _.
  apply respects_ret.
Qed.

End Respects.

(** ** One entry: skipped or counted *)

Lemma untouched_refl (w : world) : untouched w w.
Proof. by split. Qed.

Lemma untouched_trans (w1 w2 w3 : world) :
  untouched w1 w2 -> untouched w2 w3 -> untouched w1 w3.
Proof. intros [H1 H2] [H3 H4]. split; congruence. Qed.

Lemma untouched_event (ev : event) (w : world) :
  (forall q, ev <> GraphQuery q) -> untouched w (apply_events [ev] w).
Proof.
  intros H. rewrite apply_events_other by done. split; simpl; [done|].
  rewrite queries_app. simpl. destruct ev; try (by rewrite app_nil_r).
  by destruct (H q).
Qed.

Lemma item_outcome_transfer (n : Z) (w w1 : world) (o : outcome Z) :
  untouched w w1 -> item_outcome n w1 o -> item_outcome n w o.
Proof.
  intros [Hg Hq]. destruct o as [a w'|e w']; simpl.
  - intros [[-> H]|[-> (q & H1 & H2)]].
    + left. split; [done|]. by apply (untouched_trans w w1 w').
    + right. split; [done|]. exists q. by rewrite <- Hg, <- Hq.
  - by apply untouched_trans.
Qed.

Lemma item_outcome_bind {A} (n : Z) (m : M A) (k : A -> M Z) :
  respects untouched m ->
  (forall a w, item_outcome n w (k a w)) ->
  forall w, item_outcome n w (bind m k w).
Proof.
  intros Hm Hk w. unfold bind. specialize (Hm w).
  destruct (m w) as [a w1|e w1]; simpl in Hm.
  - by apply (item_outcome_transfer n w w1).
  - done.
Qed.

Section EntryOutcome.

Variable os_path_isfile : value -> result bool.
Variable PdfReader : value -> result (list pdf_page).
Variable int_of_str : string -> option Z.
Variable RecursiveCharacterTextSplitter : Z -> Z -> result splitter.
Variables (chunk_size chunk_overlap : Z).

Local Abbreviation item_step :=
  (ingest_item os_path_isfile PdfReader int_of_str
     RecursiveCharacterTextSplitter chunk_size chunk_overlap).
Local Abbreviation loop :=
  (ingest_loop os_path_isfile PdfReader int_of_str
     RecursiveCharacterTextSplitter chunk_size chunk_overlap).

Lemma ingest_item_outcome (item : gmap string value) (n : Z) (w : world) :
  item_outcome n w (item_step item n w).
Proof.
  assert (Hcall : forall {A} ev (r : result A),
             (forall q, ev <> GraphQuery q) -> respects untouched (call ev r)).
  { intros A ev r Hev.
    by apply (respects_call untouched
                (fun ev => forall q, ev <> GraphQuery q)
                untouched_refl untouched_trans untouched_event). }
  assert (Hor : forall a r, respects untouched (or_else a (lift r))).
  { intros a r. apply respects_or_else. apply untouched_refl. }
  assert (Hlift : forall {A} (r : result A), respects untouched (lift r)).
  { intros A r. apply respects_lift. apply untouched_refl. }
  assert (Hextract : forall p,
             respects untouched
               (extract_pdf_text_by_page os_path_isfile PdfReader p)).
  { intros p.
    by apply (respects_extract untouched
                (fun ev => forall q, ev <> GraphQuery q)
                untouched_refl untouched_trans untouched_event). }
  revert w. unfold ingest_item.
  destruct (negb (truthy _)).
  { intros w. left. split; [done|apply untouched_refl]. }
  apply item_outcome_bind; [by apply Hcall|]. intros isf.
  destruct (negb isf).
  { intros w. left. split; [done|apply untouched_refl]. }
  apply item_outcome_bind; [apply Hor|]. intros title.
  apply item_outcome_bind; [apply Hor|]. intros file_name.
  apply item_outcome_bind; [apply Hextract|]. intros pages.
  apply item_outcome_bind; [apply Hlift|]. intros chunks w.
  destruct chunks; unfold bind, graph_query, ret; cbn [item_outcome];
    right; (split; [done|]); eexists; (split; [reflexivity|]);
    cbn [trace]; by rewrite queries_app.
Qed.

(** X4. An entry the loop body returns from is skipped or counted,
    whatever its descriptor holds: either the counter, the store and the
    statements sent are as before, or the counter is one higher and
    exactly one statement was sent and run. *)
Theorem returned_entry_is_skipped_or_counted (item : gmap string value)
    (n a : Z) (w w' : world) :
  item_step item n w = Done a w' ->
  (a = n /\ graph w' = graph w /\
   queries (trace w') = queries (trace w)) \/
  (a = n + 1 /\
   exists q, graph w' = run_query q (graph w) /\
             queries (trace w') = queries (trace w) ++ [q]).
Proof.
  intros Hstep. pose proof (ingest_item_outcome item n w) as H.
  rewrite Hstep in H. exact H.
Qed.

(** The counter never goes down and goes up by one per statement sent;
    it stays within the number of entries and, from a start below a
    limit, within the limit. *)
Lemma ingest_loop_counts (limit : option Z)
    (items : list (gmap string value)) (n n' : Z) (w w' : world) :
  loop limit items n w = Done n' w' ->
  n <= n' <= n + Z.of_nat (length items) /\
  Z.of_nat (length (queries (trace w')))
  = Z.of_nat (length (queries (trace w))) + (n' - n) /\
  (forall lim, limit = Some lim -> n <= lim -> n' <= lim).
Proof.
  revert n w. induction items as [|item items IH]; intros n w Hrun.
  - simpl in Hrun. injection Hrun as <- <-. simpl. repeat split; try lia.
  - change (length (item :: items)) with (S (length items)).
    simpl in Hrun. destruct (limit_reached limit n) eqn:Elim.
    { injection Hrun as <- <-. repeat split; try lia. }
    unfold bind in Hrun.
    pose proof (ingest_item_outcome item n w) as Hitem.
    destruct (item_step item n w) as [a w1|e w1]; [|done].
    apply IH in Hrun as (Hn & Hq & Hl).
    assert (Hbelow : forall lim, limit = Some lim -> n < lim).
    { intros lim ->. simpl in Elim. by apply Z.leb_gt in Elim. }
    destruct Hitem as [[-> [_ Hq1]]|[-> (q & _ & Hq1)]].
    + rewrite Hq1 in Hq. repeat split; try lia.
      intros lim Hlim Hle. by apply Hl.
    + rewrite Hq1, length_app in Hq. simpl in Hq.
      repeat split; try lia.
      intros lim Hlim Hle. apply Hl; [done|]. specialize (Hbelow lim Hlim).
      lia.
Qed.

(** X5. A limit is never exceeded: for every manifest, whatever its
    entries are, a run of the loop that starts at 0 with a limit
    [lim >= 0] and returns, returns a count between 0 and [lim], and at
    most the number of entries. *)
Theorem processed_never_exceeds_limit (lim : Z)
    (items : list (gmap string value)) (n' : Z) (w w' : world) :
  0 <= lim ->
  loop (Some lim) items 0 w = Done n' w' ->
  0 <= n' <= lim /\ n' <= Z.of_nat (length items).
Proof.
  intros Hlim Hrun. apply ingest_loop_counts in Hrun as (Hn & _ & Hl).
  specialize (Hl lim eq_refl Hlim). lia.
Qed.

(** X6. One statement per processed entry: when the loop returns, the
    counter has gone up by exactly the number of statements sent to the
    store. *)
Theorem one_statement_per_processed_entry (limit : option Z)
    (items : list (gmap string value)) (n n' : Z) (w w' : world) :
  loop limit items n w = Done n' w' ->
  Z.of_nat (length (queries (trace w')))
  = Z.of_nat (length (queries (trace w))) + (n' - n).
Proof. intros Hrun. by apply ingest_loop_counts in Hrun as (_ & Hq & _). Qed.

End EntryOutcome.

(** ** The index build *)

Lemma grows_refl (w : world) : grows_before_index w w.
Proof. exists []. by rewrite app_nil_r. Qed.

Lemma grows_trans (w1 w2 w3 : world) :
  grows_before_index w1 w2 -> grows_before_index w2 w3 ->
  grows_before_index w1 w3.
Proof.
  intros (e1 & H1 & F1) (e2 & H2 & F2). exists (e1 ++ e2). split.
  - by rewrite H2, H1, app_assoc.
  - by apply Forall_app.
Qed.

Lemma grows_event (ev : event) (w : world) :
  before_index ev -> grows_before_index w (apply_events [ev] w).
Proof. intros H. exists [ev]. split; [done|]. by constructor. Qed.

Lemma run_outcome_transfer (i m : string) (w w1 : world) (o : outcome Z) :
  grows_before_index w w1 -> run_outcome i m w1 o -> run_outcome i m w o.
Proof.
  intros (e1 & H1 & F1). destruct o as [n w'|e w']; simpl.
  - intros (e2 & H2 & F2). exists (e1 ++ e2). split.
    + by rewrite H2, H1, !app_assoc.
    + by apply Forall_app.
  - intros H. apply (grows_trans w w1 w'); [|done]. by exists e1.
Qed.

Lemma run_outcome_bind {A} (i m' : string) (m : M A) (k : A -> M Z) :
  respects grows_before_index m ->
  (forall a w, run_outcome i m' w (k a w)) ->
  forall w, run_outcome i m' w (bind m k w).
Proof.
  intros Hm Hk w. unfold bind. specialize (Hm w).
  destruct (m w) as [a w1|e w1]; simpl in Hm.
  - by apply (run_outcome_transfer i m' w w1).
  - done.
Qed.

Section IndexBuild.

Variable os_path_isfile : value -> result bool.
Variable json_load : string -> result (list (gmap string value)).
Variable PdfReader : value -> result (list pdf_page).
Variable int_of_str : string -> option Z.
Variable RecursiveCharacterTextSplitter : Z -> Z -> result splitter.
Variables (index_name embedding_model : string).
Variables (chunk_size chunk_overlap : Z).

Lemma ingest_from_json_outcome (limit : option Z) (json_path : string)
    (w : world) :
  run_outcome index_name embedding_model w
    (ingest_from_json os_path_isfile json_load PdfReader int_of_str
       RecursiveCharacterTextSplitter index_name embedding_model
       chunk_size chunk_overlap limit json_path w).
Proof.
  revert w. unfold ingest_from_json.
  apply run_outcome_bind.
  { by apply (respects_call grows_before_index before_index grows_refl
                grows_trans grows_event). }
  intros isf. destruct (negb isf); [intros w; apply grows_refl|].
  apply run_outcome_bind.
  { by apply (respects_call grows_before_index before_index grows_refl
                grows_trans grows_event). }
  intros items. apply run_outcome_bind.
  { by apply (respects_ingest_loop grows_before_index before_index grows_refl
                grows_trans grows_event). }
  intros n w. exists []. split; [|done].
  unfold bind, emit, ret. simpl. by rewrite <- app_assoc.
Qed.

(** X7. The vector index is built once per run that returns, after
    the loop: when the run returns [n], its last two calls are the index
    build and the report of [n], and no call before them is an index
    build or a report. *)
Theorem index_built_once_at_the_end (limit : option Z) (json_path : string)
    (n : Z) (w w' : world) :
  ingest_from_json os_path_isfile json_load PdfReader int_of_str
    RecursiveCharacterTextSplitter index_name embedding_model
    chunk_size chunk_overlap limit json_path w
  = Done n w' ->
  exists evs,
    trace w' = trace w ++ evs ++ [BuildIndex index_name embedding_model;
                                  Report n index_name] /\
    Forall before_index evs.
Proof.
  intros Hrun. pose proof (ingest_from_json_outcome limit json_path w) as H.
  rewrite Hrun in H. exact H.
Qed.

End IndexBuild.

(** ** What a statement never does *)

Lemma prefix_merge_nodes {A K} (key : A -> K) (k0 : K) (matches : A -> bool)
    (create : A) (update : A -> A) (l : list A) :
  key create = k0 -> (forall n, key (update n) = key n) ->
  map key l `prefix_of` map key (merge_nodes matches create update l).
Proof.
  intros Hc Hu. rewrite (map_key_merge_nodes key k0) by done.
  by apply prefix_app_r.
Qed.

Lemma merge_nodes_lookup {A} (matches : A -> bool) (create : A)
    (update : A -> A) (l : list A) (i : nat) (n : A) :
  l !! i = Some n -> matches n = false ->
  merge_nodes matches create update l !! i = Some n.
Proof.
  intros Hl Hm. unfold merge_nodes.
  change (map ?f ?x) with (f <$> x). rewrite list_lookup_fmap.
  assert (H : (if existsb matches l then l else l ++ [create]) !! i = Some n).
  { destruct (existsb matches l); [done|]. by apply lookup_app_l_Some. }
  rewrite H. simpl. by rewrite Hm.
Qed.

Lemma prefix_merge_rel (d c : nat) (rels : list (nat * nat)) :
  rels `prefix_of` merge_rel d c rels.
Proof.
  unfold merge_rel. case_bool_decide; [done|]. by apply prefix_app_r.
Qed.

Lemma prefix_foldl_merge_rel (d : nat) (ids : list nat)
    (rels : list (nat * nat)) :
  rels `prefix_of` foldl (fun rels c => merge_rel d c rels) rels ids.
Proof.
  revert rels. induction ids as [|c ids IH]; intros rels; simpl; [done|].
  etrans; [apply (prefix_merge_rel d c)|apply IH].
Qed.

Lemma prefix_has_chunk_pass (path : value) (d : nat) (chunks : list chunk)
    (g : Graph) :
  has_chunk g `prefix_of` has_chunk (upsert_pass path d chunks g).
Proof.
  revert g. induction chunks as [|ch r IH]; intros g; [done|].
  rewrite upsert_pass_cons. etrans; [|apply IH]. simpl.
  apply prefix_foldl_merge_rel.
Qed.

Lemma prefix_has_chunk_all (path : value) (chunks : list chunk)
    (dids : list nat) (g : Graph) :
  has_chunk g `prefix_of` has_chunk (all_passes path chunks dids g).
Proof.
  revert g. induction dids as [|d r IH]; intros g; [done|].
  rewrite all_passes_cons. etrans; [|apply IH]. apply prefix_has_chunk_pass.
Qed.

Lemma prefix_node_writes (ws : list (value * chunk)) (cs : list ChunkNode) :
  map chunk_key cs `prefix_of` map chunk_key (node_writes ws cs).
Proof.
  revert cs. induction ws as [|w ws IH]; intros cs; [done|].
  etrans; [|apply IH].
  by apply (prefix_merge_nodes chunk_key (fst w, page (snd w), idx (snd w))).
Qed.

Lemma run_query_extends (q : query) (g : Graph) : extends g (run_query q g).
Proof.
  split; [|split].
  - rewrite documents_run_query. unfold merge_document.
    by apply (prefix_merge_nodes d_path (p_path (query_params q))).
  - rewrite chunk_nodes_run_query. apply prefix_node_writes.
  - destruct q as [p|p chunks]; [done|].
    rewrite run_query_upsert.
    exact (prefix_has_chunk_all _ _ _
             (MkGraph (merge_document p (documents g)) (chunk_nodes g)
                (has_chunk g))).
Qed.

Lemma extends_refl (g : Graph) : extends g g.
Proof. by split; [|split]. Qed.

Lemma extends_trans (g1 g2 g3 : Graph) :
  extends g1 g2 -> extends g2 g3 -> extends g1 g3.
Proof.
  intros (H1 & H2 & H3) (H4 & H5 & H6).
  split; [|split]; by etrans.
Qed.

Lemma node_writes_lookup (ws : list (value * chunk)) (cs : list ChunkNode)
    (i : nat) (c : ChunkNode) :
  cs !! i = Some c ->
  (forall w, In w ws -> chunk_matches (fst w) (snd w) c = false) ->
  node_writes ws cs !! i = Some c.
Proof.
  revert cs. induction ws as [|w ws IH]; intros cs Hl Hm; [done|].
  apply IH.
  - apply merge_nodes_lookup; [done|]. apply Hm. by left.
  - intros w' Hw'. apply Hm. by right.
Qed.

(** X8. A statement for one path leaves the rest of the store alone:
    every Document node of another path and every Chunk node of another
    document is, after the statement, where it was and as it was. *)
Theorem statement_leaves_other_documents_alone (q : query) (g : Graph) :
  (forall i d,
      documents g !! i = Some d -> d_path d <> p_path (query_params q) ->
      documents (run_query q g) !! i = Some d) /\
  (forall i c,
      chunk_nodes g !! i = Some c ->
      c_doc_path c <> p_path (query_params q) ->
      chunk_nodes (run_query q g) !! i = Some c).
Proof.
  split.
  - intros i d Hl Hp. rewrite documents_run_query.
    apply merge_nodes_lookup; [done|]. by apply bool_decide_eq_false.
  - intros i c Hl Hp. rewrite chunk_nodes_run_query.
    apply node_writes_lookup; [done|].
    intros w Hw. unfold chunk_writes in Hw.
    apply in_map_iff in Hw as (ch & <- & _). unfold chunk_matches. simpl.
    by rewrite bool_decide_eq_false_2.
Qed.

Section RunInvariants.

Variable os_path_isfile : value -> result bool.
Variable json_load : string -> result (list (gmap string value)).
Variable PdfReader : value -> result (list pdf_page).
Variable int_of_str : string -> option Z.
Variable RecursiveCharacterTextSplitter : Z -> Z -> result splitter.
Variables (index_name embedding_model : string).
Variables (chunk_size chunk_overlap : Z).

Local Abbreviation run :=
  (ingest_from_json os_path_isfile json_load PdfReader int_of_str
     RecursiveCharacterTextSplitter index_name embedding_model
     chunk_size chunk_overlap).

Lemma graph_apply_event (ev : event) (w : world) :
  graph (apply_events [ev] w)
  = match ev with
    | GraphQuery q => run_query q (graph w)
    | _ => graph w
    end.
Proof. by destruct ev. Qed.

(** X9. A run never deletes anything: whether it returns or raises, the
    store it leaves has every Document and Chunk node of the store it
    found, at the same position and under the same merge key, and every
    relationship. *)
Theorem run_never_deletes (limit : option Z) (json_path : string)
    (w : world) :
  extends (graph w) (graph (final_world (run limit json_path w))).
Proof.
  apply (respects_ingest_from_json
           (fun w w' => extends (graph w) (graph w')) (fun _ => True)
           (fun w => extends_refl (graph w))
           (fun w1 w2 w3 => extends_trans (graph w1) (graph w2) (graph w3)));
    [|done..].
  intros ev w0 _. rewrite graph_apply_event.
  destruct ev; (apply extends_refl || apply run_query_extends).
Qed.

Lemma run_query_keeps_keys_unique (q : query) (g : Graph) :
  unique_keys g -> unique_keys (run_query q g).
Proof.
  destruct q as [p|p chunks]; [|apply upsert_keeps_keys_unique].
  intros [Hd Hc]. split; [|done]. simpl. by apply NoDup_merge_document.
Qed.

(** X10. Merge keys stay unique through a run: when no two Document
    nodes of the store share a path and no two Chunk nodes share
    (doc_path, page, idx), the same holds for the store the run leaves,
    whether it returns or raises. *)
Theorem run_keeps_keys_unique (limit : option Z) (json_path : string)
    (w : world) :
  unique_keys (graph w) ->
  unique_keys (graph (final_world (run limit json_path w))).
Proof.
  revert w.
  apply (respects_ingest_from_json
           (fun w w' => unique_keys (graph w) -> unique_keys (graph w'))
           (fun _ => True) (fun w H => H)
           (fun w1 w2 w3 H1 H2 H => H2 (H1 H)));
    [|done..].
  intros ev w0 _. rewrite graph_apply_event.
  destruct ev; try done. apply run_query_keeps_keys_unique.
Qed.

End RunInvariants.

(** ** What is stored for a chunk *)

Lemma elem_of_find_ids {A} (f : A -> bool) (k : nat) (l : list A) (i : nat) :
  i ∈ find_ids f k l <->
  (k <= i)%nat /\ exists x, l !! (i - k)%nat = Some x /\ f x = true.
Proof.
  revert k. induction l as [|x l IH]; intros k; simpl.
  - rewrite elem_of_nil. split; [done|]. by intros (_ & y & H & _).
  - assert (Htail : i ∈ find_ids f (S k) l <->
              (S k <= i)%nat /\
              exists y, (x :: l) !! (i - k)%nat = Some y /\ f y = true).
    { rewrite IH. split; intros (Hle & y & Hl & Hf); (split; [done|]);
        exists y; (split; [|done]).
      - replace (i - k)%nat with (S (i - S k)) by lia. done.
      - replace (i - k)%nat with (S (i - S k)) in Hl by lia. done. }
    destruct (f x) eqn:E.
    + rewrite elem_of_cons, Htail. split.
      * intros [->|(Hle & y & Hl & Hf)].
        -- split; [lia|]. exists x. by rewrite Nat.sub_diag.
        -- split; [lia|]. eauto.
      * intros (Hle & y & Hl & Hf).
        destruct (decide (i = k)) as [->|Hne]; [by left|].
        right. split; [lia|]. eauto.
    + rewrite Htail. split.
      * intros (Hle & y & Hl & Hf). split; [lia|]. eauto.
      * intros (Hle & y & Hl & Hf).
        destruct (decide (i = k)) as [->|Hne].
        -- rewrite Nat.sub_diag in Hl. simpl in Hl. congruence.
        -- split; [lia|]. eauto.
Qed.

(** The content a node ends with is the text of the chunks that match
    it, when they agree on it. *)
Lemma upd_all_content (path : value) (chunks : list chunk) (c : ChunkNode)
    (t : string) :
  (c_content c = t \/
   exists ch, In ch chunks /\ chunk_matches path ch c = true) ->
  (forall ch, In ch chunks -> chunk_matches path ch c = true ->
              text ch = t) ->
  c_content (upd_all path chunks c) = t.
Proof.
  revert c. induction chunks as [|ch r IH]; intros c Hstart Hall.
  - destruct Hstart as [H|(ch & [] & _)]. done.
  - rewrite upd_all_cons. apply IH.
    + unfold upd_chunk. destruct (chunk_matches path ch c) eqn:E.
      * left. simpl. apply Hall; [by left|done].
      * destruct Hstart as [H|(ch' & [->|Hin] & Hm)];
          [by left|congruence|right; eauto].
    + intros ch' Hin Hm. rewrite chunk_matches_upd in Hm.
      apply Hall; [by right|done].
Qed.

Lemma chunk_nodes_upsert (p : doc_params) (chunks : list chunk) (g : Graph) :
  chunk_nodes (run_query (UpsertDocument p chunks) g)
  = apply_chunks (p_path p) chunks (chunk_nodes g).
Proof.
  rewrite chunk_nodes_run_query. unfold chunk_writes. simpl.
  by rewrite apply_chunks_node_writes.
Qed.

(** After an upsert, a chunk whose key carries one text in the list has
    its node, the nodes with its key hold its text, and each of them is
    linked from every Document node of the path. *)
Lemma upsert_stores_chunk (p : doc_params) (chunks : list chunk) (g : Graph)
    (ch : chunk) :
  In ch chunks ->
  (forall ch', In ch' chunks -> page ch' = page ch -> idx ch' = idx ch ->
               text ch' = text ch) ->
  let g' := run_query (UpsertDocument p chunks) g in
  let k := (p_path p, page ch, idx ch) in
  (exists c, c ∈ chunk_nodes g' /\ chunk_key c = k) /\
  (forall c, c ∈ chunk_nodes g' -> chunk_key c = k ->
             c_content c = text ch) /\
  (forall d i dn cn,
      documents g' !! d = Some dn -> d_path dn = p_path p ->
      chunk_nodes g' !! i = Some cn -> chunk_key cn = k ->
      (d, i) ∈ has_chunk g').
Proof.
  intros Hin Htext g' k. split; [|split].
  - pose proof (apply_chunks_all_present (p_path p) chunks (chunk_nodes g)
                  ch Hin) as Hex.
    apply existsb_exists in Hex as (c & Hc & Hm).
    exists c. unfold g'. rewrite chunk_nodes_upsert.
    split; [by apply list_elem_of_In|by apply chunk_matches_spec].
  - intros c Hc Hk. unfold g' in Hc. rewrite chunk_nodes_upsert in Hc.
    apply list_elem_of_In in Hc.
    rewrite <- (apply_chunks_fixed _ _ _ _ Hc).
    apply upd_all_content.
    + right. exists ch. split; [done|]. by apply chunk_matches_spec.
    + intros ch' Hin' Hm. apply chunk_matches_spec in Hm.
      rewrite Hk in Hm. unfold k in Hm. injection Hm as Hp Hi.
      by apply Htext.
  - intros d i dn cn Hd Hdp Hc Hck.
    destruct (settled_after (UpsertDocument p chunks) g) as [_ Hlinked].
    fold g' in Hlinked. cbn [query_params chunks_of_query] in Hlinked.
    destruct (Hlinked d ch) as [_ Hrel].
    + apply elem_of_find_ids. split; [lia|]. exists dn.
      rewrite Nat.sub_0_r. split; [done|]. by apply bool_decide_eq_true.
    + by apply list_elem_of_In.
    + apply Hrel. apply elem_of_find_ids. split; [lia|]. exists cn.
      rewrite Nat.sub_0_r. split; [done|]. by apply chunk_matches_spec.
Qed.

Lemma chunk_pages_from_text (split_text : splitter) (pages : list string)
    (i0 : Z) (c1 c2 : chunk) :
  c1 ∈ chunk_pages_from split_text i0 pages ->
  c2 ∈ chunk_pages_from split_text i0 pages ->
  page c1 = page c2 -> idx c1 = idx c2 -> text c1 = text c2.
Proof.
  intros H1 H2 Hp Hi.
  apply elem_of_chunk_pages_from in H1 as (_ & _ & t1 & Hl1 & _ & Hs1 & _).
  apply elem_of_chunk_pages_from in H2 as (_ & _ & t2 & Hl2 & _ & Hs2 & _).
  rewrite Hp in Hl1. rewrite Hi in Hs1. congruence.
Qed.

Section StoredChunks.

Variable os_path_isfile : value -> result bool.
Variable PdfReader : value -> result (list pdf_page).
Variable int_of_str : string -> option Z.
Variable RecursiveCharacterTextSplitter : Z -> Z -> result splitter.
Variables (chunk_size chunk_overlap : Z).

Local Abbreviation item_step :=
  (ingest_item os_path_isfile PdfReader int_of_str
     RecursiveCharacterTextSplitter chunk_size chunk_overlap).

(** X11. Every chunk of an ingested entry is in the store afterwards:
    for each chunk that [chunk_pages] returns for the entry's pages there
    is a Chunk node with the key (path, page, idx), every node with that
    key holds the chunk's text, and each of them is linked by HAS_CHUNK
    from every Document node of the path. *)
Theorem ingested_chunks_are_stored (split_text : splitter)
    (item : gmap string value) (p : string) (pages : list pdf_page) (n : Z)
    (w : world) :
  RecursiveCharacterTextSplitter chunk_size chunk_overlap = Ok split_text ->
  resolved_path item = VStr p -> p <> EmptyString ->
  os_path_isfile (VStr p) = Ok true -> PdfReader (VStr p) = Ok pages ->
  exists w',
    item_step item n w = Done (n + 1) w' /\
    forall ch,
      ch ∈ chunk_pages_from split_text 1 (map page_text pages) ->
      (exists c, c ∈ chunk_nodes (graph w') /\
                 chunk_key c = (VStr p, page ch, idx ch)) /\
      (forall c, c ∈ chunk_nodes (graph w') ->
                 chunk_key c = (VStr p, page ch, idx ch) ->
                 c_content c = text ch) /\
      (forall d i dn cn,
          documents (graph w') !! d = Some dn -> d_path dn = VStr p ->
          chunk_nodes (graph w') !! i = Some cn ->
          chunk_key cn = (VStr p, page ch, idx ch) ->
          (d, i) ∈ has_chunk (graph w')).
Proof.
  intros Hs Hp Hne Hf Hr.
  rewrite (ingest_item_valid os_path_isfile PdfReader int_of_str
             RecursiveCharacterTextSplitter chunk_size chunk_overlap
             split_text item p pages n w Hs Hp Hne Hf Hr).
  eexists. split; [reflexivity|]. cbn [graph]. intros ch Hch.
  unfold item_query.
  destruct (chunk_pages_from split_text 1 (map page_text pages))
    as [|c0 cs] eqn:E; [by apply elem_of_nil in Hch|].
  rewrite <- E in *.
  match goal with |- context [UpsertDocument ?q _] =>
    apply (upsert_stores_chunk q)
  end.
  - by apply list_elem_of_In.
  - intros ch' Hch' Hpage Hidx.
    apply (chunk_pages_from_text split_text (map page_text pages) 1);
      [by apply list_elem_of_In|done..].
Qed.

End StoredChunks.

(** ** The stored Document of an ingested entry *)

Section StoredDocument.

Variable os_path_isfile : value -> result bool.
Variable PdfReader : value -> result (list pdf_page).
Variable int_of_str : string -> option Z.
Variable RecursiveCharacterTextSplitter : Z -> Z -> result splitter.
Variables (chunk_size chunk_overlap : Z).

Local Abbreviation item_step :=
  (ingest_item os_path_isfile PdfReader int_of_str
     RecursiveCharacterTextSplitter chunk_size chunk_overlap).

Lemma ingest_item_stored_document (split_text : splitter)
    (item : gmap string value) (p : string) (pages : list pdf_page) (n : Z)
    (w : world) :
  RecursiveCharacterTextSplitter chunk_size chunk_overlap = Ok split_text ->
  resolved_path item = VStr p -> p <> EmptyString ->
  os_path_isfile (VStr p) = Ok true -> PdfReader (VStr p) = Ok pages ->
  exists w',
    item_step item n w = Done (n + 1) w' /\
    let count := descriptor_page_count int_of_str item in
    let doc :=
      Document (VStr p) (descriptor_title item p)
        (descriptor_file_name item p)
        (match chunk_pages_from split_text 1 (map page_text pages) with
         | [] => count
         | _ :: _ => if negb (count =? 0) then count
                     else Z.of_nat (length pages)
         end)
        (descriptor_mime_type item) in
    doc ∈ documents (graph w') /\
    forall d, d ∈ documents (graph w') -> d_path d = VStr p -> d = doc.
Proof.
  intros Hs Hp Hne Hf Hr.
  rewrite (ingest_item_valid os_path_isfile PdfReader int_of_str
             RecursiveCharacterTextSplitter chunk_size chunk_overlap
             split_text item p pages n w Hs Hp Hne Hf Hr).
  eexists. split; [reflexivity|]. cbn [graph].
  rewrite documents_run_query. unfold item_query.
  destruct (chunk_pages_from split_text 1 (map page_text pages)) as [|c cs];
    cbn [query_params]; rewrite ?length_map;
    match goal with |- context [merge_document ?q _] =>
      apply (merge_document_spec q)
    end.
Qed.

(** X12. For every ingested entry, with or without chunks, the stored
    Document takes each text property from the first truthy candidate:
    the title from [title], then [Title], then the base name of the path;
    the file name from [FileName], then the base name; the MIME type from
    [MIMEType], then [mime_type], then ["application/pdf"].  A value that
    is present but falsy (an empty string, 0, null) counts as absent. *)
Theorem first_truthy_field_wins (split_text : splitter)
    (item : gmap string value) (p : string) (pages : list pdf_page) (n : Z)
    (w : world) :
  RecursiveCharacterTextSplitter chunk_size chunk_overlap = Ok split_text ->
  resolved_path item = VStr p -> p <> EmptyString ->
  os_path_isfile (VStr p) = Ok true -> PdfReader (VStr p) = Ok pages ->
  exists w',
    item_step item n w = Done (n + 1) w' /\
    (exists d, d ∈ documents (graph w') /\ d_path d = VStr p) /\
    forall d,
      d ∈ documents (graph w') -> d_path d = VStr p ->
      d_title d
      = (if truthy (get item "title") then get item "title"
         else if truthy (get item "Title") then get item "Title"
         else VStr (basename p)) /\
      d_file_name d
      = (if truthy (get item "FileName") then get item "FileName"
         else VStr (basename p)) /\
      d_mime_type d
      = (if truthy (get item "MIMEType") then get item "MIMEType"
         else if truthy (get item "mime_type") then get item "mime_type"
         else VStr "application/pdf").
Proof.
  intros Hs Hp Hne Hf Hr.
  destruct (ingest_item_stored_document split_text item p pages n w
              Hs Hp Hne Hf Hr) as (w' & Hstep & Hin & Hall).
  exists w'. split; [done|]. split; [eexists; split; [exact Hin|done]|].
  intros d Hd Hpath. rewrite (Hall d Hd Hpath). cbn [d_title d_file_name
    d_mime_type]. unfold descriptor_title, descriptor_file_name,
    descriptor_mime_type, py_or.
  repeat split.
  - by destruct (truthy (get item "title")) eqn:E; rewrite ?E.
  - by destruct (truthy (get item "MIMEType")) eqn:E; rewrite ?E.
Qed.

(** X13. The page count stored for an entry with at least one chunk:
    a non-zero integer [PageCount] is stored as it is, whatever the
    number of pages; when [PageCount] and [pages] are both absent or
    falsy, or when the first truthy one of them is a list or an object,
    the number of extracted pages is stored. *)
Theorem page_count_of_a_document_with_chunks (split_text : splitter)
    (item : gmap string value) (p : string) (pages : list pdf_page) (n : Z)
    (w : world) :
  RecursiveCharacterTextSplitter chunk_size chunk_overlap = Ok split_text ->
  resolved_path item = VStr p -> p <> EmptyString ->
  os_path_isfile (VStr p) = Ok true -> PdfReader (VStr p) = Ok pages ->
  chunk_pages_from split_text 1 (map page_text pages) <> [] ->
  exists w',
    item_step item n w = Done (n + 1) w' /\
    forall d,
      d ∈ documents (graph w') -> d_path d = VStr p ->
      let given := py_or (get item "PageCount") (get item "pages") in
      (forall k, get item "PageCount" = VInt k -> k <> 0 ->
                 d_page_count d = k) /\
      (truthy given = false ->
       d_page_count d = Z.of_nat (length pages)) /\
      ((exists l, given = VList l) \/ (exists l, given = VDict l) ->
       d_page_count d = Z.of_nat (length pages)).
Proof.
  intros Hs Hp Hne Hf Hr Hchunks.
  destruct (ingest_item_stored_document split_text item p pages n w
              Hs Hp Hne Hf Hr) as (w' & Hstep & _ & Hall).
  exists w'. split; [done|]. intros d Hd Hpath given.
  rewrite (Hall d Hd Hpath). cbn [d_page_count].
  destruct (chunk_pages_from split_text 1 (map page_text pages));
    [done|].
  unfold descriptor_page_count. fold given.
  split; [|split].
  - intros k Hk Hnz. unfold given, py_or. rewrite Hk.
    apply Z.eqb_neq in Hnz. cbn [truthy]. rewrite Hnz. cbn [negb truthy].
    rewrite Hnz. cbn [negb]. unfold _as_int. cbn [py_int].
    by rewrite Hnz.
  - intros Hfalsy. unfold py_or at 1. by rewrite Hfalsy.
  - intros [[x Hx]|[x Hx]]; rewrite Hx; unfold py_or;
      by destruct x.
Qed.

End StoredDocument.

(** ** More on the chunker *)

Lemma chunk_parts_shift (i k j : Z) (parts : list string) :
  chunk_parts (i + k) j parts = map (shift_page k) (chunk_parts i j parts).
Proof.
  revert j. induction parts as [|part rest IH]; intros j; simpl; [done|].
  destruct (str_truthy (strip part)); simpl; by rewrite IH.
Qed.

Lemma chunk_pages_from_shift (split_text : splitter) (i k : Z)
    (pages : list string) :
  chunk_pages_from split_text (i + k) pages
  = map (shift_page k) (chunk_pages_from split_text i pages).
Proof.
  revert i. induction pages as [|pt rest IH]; intros i; simpl; [done|].
  replace (i + k + 1) with (i + 1 + k) by lia.
  destruct (str_truthy pt); simpl; [|apply IH].
  by rewrite map_app, IH, chunk_parts_shift.
Qed.

Lemma chunk_pages_from_app (split_text : splitter) (i : Z)
    (p1 p2 : list string) :
  chunk_pages_from split_text i (p1 ++ p2)
  = chunk_pages_from split_text i p1
    ++ chunk_pages_from split_text (i + Z.of_nat (length p1)) p2.
Proof.
  revert i. induction p1 as [|pt rest IH]; intros i.
  - simpl. by rewrite Z.add_0_r.
  - change (length (pt :: rest)) with (S (length rest)). simpl.
    rewrite IH. replace (i + 1 + Z.of_nat (length rest))
      with (i + Z.of_nat (S (length rest))) by lia.
    destruct (str_truthy pt); simpl; [|done]. by rewrite app_assoc.
Qed.

Lemma chunk_parts_nil (i j : Z) (parts : list string) :
  chunk_parts i j parts = [] <->
  Forall (fun part => strip part = EmptyString) parts.
Proof.
  revert j. induction parts as [|part rest IH]; intros j; simpl.
  - split; [constructor|done].
  - rewrite Forall_cons. destruct (str_truthy (strip part)) eqn:E; simpl.
    + apply str_truthy_true in E. split; [done|]. by intros [H _].
    + apply str_truthy_false in E. rewrite IH. tauto.
Qed.

Lemma chunk_pages_from_nil (split_text : splitter) (i : Z)
    (pages : list string) :
  chunk_pages_from split_text i pages = [] <->
  Forall (fun page_text =>
            page_text = EmptyString \/
            Forall (fun part => strip part = EmptyString)
              (split_text page_text))
    pages.
Proof.
  revert i. induction pages as [|pt rest IH]; intros i; simpl.
  - split; [constructor|done].
  - rewrite Forall_cons. destruct (str_truthy pt) eqn:E; simpl.
    + apply str_truthy_true in E.
      rewrite app_nil, chunk_parts_nil, IH. split.
      * intros [H1 H2]. split; [by right|done].
      * intros [[H|H] H2]; [done|by split].
    + apply str_truthy_false in E. rewrite IH. split.
      * intros H. split; [by left|done].
      * by intros [_ H].
Qed.

Section ChunkPagesMore.

Variable RecursiveCharacterTextSplitter : Z -> Z -> result splitter.

(** X14. Chunking is page by page: the chunks of a list of pages
    followed by further pages are the chunks of the first list, followed
    by the chunks of the further pages with their page numbers moved up
    by the length of the first list; indices and texts do not change. *)
Theorem chunk_pages_of_appended_pages (p1 p2 : list string)
    (chunk_size chunk_overlap : Z) (c1 c2 : list chunk) :
  chunk_pages RecursiveCharacterTextSplitter p1 chunk_size chunk_overlap
  = Ok c1 ->
  chunk_pages RecursiveCharacterTextSplitter p2 chunk_size chunk_overlap
  = Ok c2 ->
  chunk_pages RecursiveCharacterTextSplitter (p1 ++ p2) chunk_size
    chunk_overlap
  = Ok (c1 ++ map (shift_page (Z.of_nat (length p1))) c2).
Proof.
  intros H1 H2.
  apply chunk_pages_ok in H1 as (f & Hf & ->).
  apply chunk_pages_ok in H2 as (f' & Hf' & ->).
  assert (f' = f) as -> by congruence.
  apply chunk_pages_ok. exists f. split; [done|].
  by rewrite chunk_pages_from_app, chunk_pages_from_shift.
Qed.

(** X15. [chunk_pages] returns no chunk exactly when every page is
    empty or is split into parts that are all blank. *)
Theorem chunk_pages_empty_iff (pages : list string)
    (chunk_size chunk_overlap : Z) (split_text : splitter) :
  RecursiveCharacterTextSplitter chunk_size chunk_overlap = Ok split_text ->
  chunk_pages RecursiveCharacterTextSplitter pages chunk_size chunk_overlap
  = Ok [] <->
  Forall (fun page_text =>
            page_text = EmptyString \/
            Forall (fun part => all_space part = true)
              (split_text page_text))
    pages.
Proof.
  intros Hs. rewrite chunk_pages_ok. split.
  - intros (f & Hf & Hnil). assert (f = split_text) as -> by congruence.
    symmetry in Hnil. apply chunk_pages_from_nil in Hnil.
    eapply Forall_impl; [exact Hnil|]. intros pt [H|H]; [by left|right].
    eapply Forall_impl; [exact H|]. intros part. apply strip_empty.
  - intros H. exists split_text. split; [done|]. symmetry.
    apply chunk_pages_from_nil.
    eapply Forall_impl; [exact H|]. intros pt [H'|H']; [by left|right].
    eapply Forall_impl; [exact H'|]. intros part. apply strip_empty.
Qed.

End ChunkPagesMore.

(** ** Failures, and the count of a run that does not fail *)

Lemma valid_entry_b_spec (os_path_isfile : value -> result bool)
    (PdfReader : value -> result (list pdf_page))
    (item : gmap string value) :
  valid_entry_b os_path_isfile PdfReader item = true <->
  valid_entry os_path_isfile PdfReader item.
Proof.
  unfold valid_entry_b, valid_entry. split.
  - destruct (resolved_path item) as [| | | |p| |]; try done.
    intros [Hp H]%andb_true_iff. exists p. split; [done|].
    apply str_truthy_true in Hp. split; [done|].
    destruct (os_path_isfile (VStr p)) as [[]|]; try done. split; [done|].
    destruct (PdfReader (VStr p)) as [pages|]; [|done]. by exists pages.
  - intros (p & -> & Hne & -> & pages & ->).
    apply str_truthy_true in Hne. by rewrite Hne.
Qed.

Lemma skipped_entry_not_valid (os_path_isfile : value -> result bool)
    (PdfReader : value -> result (list pdf_page))
    (item : gmap string value) :
  skipped_entry os_path_isfile item ->
  valid_entry_b os_path_isfile PdfReader item = false.
Proof.
  intros Hskip.
  destruct (valid_entry_b os_path_isfile PdfReader item) eqn:E; [|done].
  apply valid_entry_b_spec in E as (p & Hp & Hne & Hf & _).
  unfold skipped_entry in Hskip. rewrite Hp in Hskip.
  destruct Hskip as [H|H].
  - apply str_truthy_true in Hne. simpl in H. congruence.
  - congruence.
Qed.

Section Failures.

Variable os_path_isfile : value -> result bool.
Variable json_load : string -> result (list (gmap string value)).
Variable PdfReader : value -> result (list pdf_page).
Variable int_of_str : string -> option Z.
Variable RecursiveCharacterTextSplitter : Z -> Z -> result splitter.
Variables (index_name embedding_model : string).
Variables (chunk_size chunk_overlap : Z).

Local Abbreviation extract :=
  (extract_pdf_text_by_page os_path_isfile PdfReader).
Local Abbreviation item_step :=
  (ingest_item os_path_isfile PdfReader int_of_str
     RecursiveCharacterTextSplitter chunk_size chunk_overlap).
Local Abbreviation loop :=
  (ingest_loop os_path_isfile PdfReader int_of_str
     RecursiveCharacterTextSplitter chunk_size chunk_overlap).
Local Abbreviation run :=
  (ingest_from_json os_path_isfile json_load PdfReader int_of_str
     RecursiveCharacterTextSplitter index_name embedding_model chunk_size
     chunk_overlap).

(** X16. [extract_pdf_text_by_page] on a path that is not a file returns
    the empty list without opening the reader; on a file that the reader
    cannot open, the reader's exception propagates: only failures of
    single pages are recovered from. *)
Theorem extract_without_a_readable_file (path : value) (w : world) :
  (os_path_isfile path = Ok false ->
   extract path w = Done [] (World (graph w) (trace w ++ [IsFile path]))) /\
  (forall e,
     os_path_isfile path = Ok true -> PdfReader path = Raise e ->
     extract path w
     = Failed e (World (graph w) (trace w ++ [IsFile path; ReadPdf path]))).
Proof.
  split.
  - intros Hf. unfold extract_pdf_text_by_page.
    by rewrite (bind_call_ok _ _ _ _ _ Hf).
  - intros e Hf Hr. unfold extract_pdf_text_by_page.
    rewrite (bind_call_ok _ _ _ _ _ Hf). cbn [negb].
    unfold bind, call, emit, bind, raise. rewrite Hr. simpl.
    by rewrite <- app_assoc.
Qed.

Lemma ingest_item_unreadable (item : gmap string value) (p : string)
    (e : exn) (n : Z) (w : world) :
  resolved_path item = VStr p -> p <> EmptyString ->
  os_path_isfile (VStr p) = Ok true -> PdfReader (VStr p) = Raise e ->
  item_step item n w
  = Failed e
      (World (graph w)
         (trace w ++ [IsFile (VStr p); IsFile (VStr p); ReadPdf (VStr p)])).
Proof.
  intros Hp Hne Hf Hr. unfold ingest_item. fold (resolved_path item).
  rewrite Hp. apply str_truthy_true in Hne.
  change (truthy (VStr p)) with (str_truthy p). rewrite Hne. cbn [negb].
  rewrite (bind_call_ok _ _ _ _ _ Hf). cbn [negb].
  cbn [os_path_basename]. rewrite !bind_or_else_pure.
  unfold bind at 1. unfold extract_pdf_text_by_page.
  rewrite (bind_call_ok _ _ _ _ _ Hf). cbn [negb].
  unfold bind, call, emit, bind, raise. rewrite Hr. simpl.
  by rewrite <- !app_assoc.
Qed.

Lemma ingest_item_bad_splitter (item : gmap string value) (p : string)
    (pages : list pdf_page) (e : exn) (n : Z) (w : world) :
  RecursiveCharacterTextSplitter chunk_size chunk_overlap = Raise e ->
  resolved_path item = VStr p -> p <> EmptyString ->
  os_path_isfile (VStr p) = Ok true -> PdfReader (VStr p) = Ok pages ->
  item_step item n w
  = Failed e
      (World (graph w)
         (trace w ++ [IsFile (VStr p); IsFile (VStr p); ReadPdf (VStr p)])).
Proof.
  intros Hs Hp Hne Hf Hr. unfold ingest_item. fold (resolved_path item).
  rewrite Hp. apply str_truthy_true in Hne.
  change (truthy (VStr p)) with (str_truthy p). rewrite Hne. cbn [negb].
  rewrite (bind_call_ok _ _ _ _ _ Hf). cbn [negb].
  cbn [os_path_basename]. rewrite !bind_or_else_pure.
  unfold bind at 1. rewrite (extract_opened _ _ _ _ _ Hf Hr).
  unfold bind, lift, chunk_pages. rewrite Hs. simpl.
  by rewrite <- !app_assoc.
Qed.

Section Limit.

Variable limit : option Z.

(** An entry on which the body raises ends the loop there. *)
Lemma ingest_loop_failed_item (pre rest : list (gmap string value))
    (item : gmap string value) (e : exn) (n n1 : Z) (w w1 w2 : world) :
  loop limit pre n w = Done n1 w1 ->
  limit_reached limit n1 = false ->
  item_step item n1 w1 = Failed e w2 ->
  loop limit (pre ++ item :: rest) n w = Failed e w2.
Proof.
  intros Hpre Hlim Hitem. rewrite ingest_loop_app. unfold bind.
  rewrite Hpre, ingest_loop_cons, Hlim. unfold bind. by rewrite Hitem.
Qed.

(** X17. A PDF that exists but cannot be opened aborts the loop: after
    the entries before it, the reader's exception propagates, the store
    is the one those entries left, and no entry after it is looked at. *)
Theorem unreadable_pdf_aborts_the_loop (pre rest : list (gmap string value))
    (item : gmap string value) (p : string) (e : exn) (n n1 : Z)
    (w w1 : world) :
  loop limit pre n w = Done n1 w1 ->
  limit_reached limit n1 = false ->
  resolved_path item = VStr p -> p <> EmptyString ->
  os_path_isfile (VStr p) = Ok true -> PdfReader (VStr p) = Raise e ->
  loop limit (pre ++ item :: rest) n w
  = Failed e
      (World (graph w1)
         (trace w1 ++ [IsFile (VStr p); IsFile (VStr p); ReadPdf (VStr p)])).
Proof.
  intros Hpre Hlim Hp Hne Hf Hr.
  apply (ingest_loop_failed_item pre rest item e n n1 w w1); [done..|].
  by apply ingest_item_unreadable.
Qed.

(** X18. Chunk parameters that the splitter rejects are found out at
    the first entry that is ingested, after its PDF has been read: the
    constructor's exception propagates, no statement is sent for that
    entry, and no entry after it is looked at. *)
Theorem rejected_chunk_parameters_abort_the_loop
    (pre rest : list (gmap string value)) (item : gmap string value)
    (p : string) (pages : list pdf_page) (e : exn) (n n1 : Z)
    (w w1 : world) :
  RecursiveCharacterTextSplitter chunk_size chunk_overlap = Raise e ->
  loop limit pre n w = Done n1 w1 ->
  limit_reached limit n1 = false ->
  resolved_path item = VStr p -> p <> EmptyString ->
  os_path_isfile (VStr p) = Ok true -> PdfReader (VStr p) = Ok pages ->
  loop limit (pre ++ item :: rest) n w
  = Failed e
      (World (graph w1)
         (trace w1 ++ [IsFile (VStr p); IsFile (VStr p); ReadPdf (VStr p)])).
Proof.
  intros Hs Hpre Hlim Hp Hne Hf Hr.
  apply (ingest_loop_failed_item pre rest item e n n1 w w1); [done..|].
  by apply (ingest_item_bad_splitter item p pages).
Qed.

Lemma ingest_loop_count_from (split_text : splitter)
    (items : list (gmap string value)) (n : Z) (w : world) :
  RecursiveCharacterTextSplitter chunk_size chunk_overlap = Ok split_text ->
  Forall (fun item => valid_entry os_path_isfile PdfReader item \/
                      skipped_entry os_path_isfile item) items ->
  exists w',
    loop limit items n w
    = Done (match limit with
            | None => n + count_valid os_path_isfile PdfReader items
            | Some lim =>
                Z.max n
                  (Z.min lim (n + count_valid os_path_isfile PdfReader items))
            end) w'.
Proof.
  intros Hs. revert n w.
  induction items as [|item items IH]; intros n w Hall.
  - exists w. simpl. f_equal. unfold count_valid. simpl.
    destruct limit; lia.
  - apply Forall_cons in Hall as [Hitem Hall].
    rewrite ingest_loop_cons.
    destruct (limit_reached limit n) eqn:Elim.
    { exists w. f_equal. unfold limit_reached in Elim.
      destruct limit as [lim|]; [|done]. apply Z.leb_le in Elim.
      unfold count_valid. lia. }
    assert (Hbelow : forall lim, limit = Some lim -> n < lim).
    { intros lim Hl. unfold limit_reached in Elim. rewrite Hl in Elim.
      by apply Z.leb_gt in Elim. }
    unfold bind. destruct Hitem as [Hvalid|Hskip].
    + destruct (ingest_item_valid_done os_path_isfile PdfReader int_of_str
                  RecursiveCharacterTextSplitter chunk_size chunk_overlap
                  split_text item n w Hs Hvalid) as [w1 Hw1].
      rewrite Hw1. destruct (IH (n + 1) w1 Hall) as [w2 Hw2].
      exists w2. rewrite Hw2. f_equal.
      apply valid_entry_b_spec in Hvalid.
      unfold count_valid. simpl. rewrite Hvalid. simpl length.
      destruct limit as [lim|]; [|lia].
      specialize (Hbelow lim eq_refl). lia.
    + destruct (ingest_item_skipped os_path_isfile PdfReader int_of_str
                  RecursiveCharacterTextSplitter chunk_size chunk_overlap
                  item n w Hskip) as (w1 & Hw1 & _).
      rewrite Hw1. destruct (IH n w1 Hall) as [w2 Hw2].
      exists w2. rewrite Hw2. f_equal.
      apply (skipped_entry_not_valid _ PdfReader) in Hskip.
      unfold count_valid. simpl. by rewrite Hskip.
Qed.

(** X19. The count of the loop: on a manifest each of whose entries is
    either ingested or skipped, with chunk parameters the splitter
    accepts, the loop returns; without a limit the count is the number
    of entries that name a readable PDF, with a limit it is the smaller
    of the two, and 0 for a negative limit. *)
Theorem loop_counts_readable_entries_up_to_limit (split_text : splitter)
    (items : list (gmap string value)) (w : world) :
  RecursiveCharacterTextSplitter chunk_size chunk_overlap = Ok split_text ->
  Forall (fun item => valid_entry os_path_isfile PdfReader item \/
                      skipped_entry os_path_isfile item) items ->
  exists w',
    loop limit items 0 w
    = Done (match limit with
            | None => count_valid os_path_isfile PdfReader items
            | Some lim =>
                Z.max 0 (Z.min lim (count_valid os_path_isfile PdfReader items))
            end) w'.
Proof.
  intros Hs Hall.
  destruct (ingest_loop_count_from split_text items 0 w Hs Hall) as [w' Hw'].
  exists w'. rewrite Hw'. by destruct limit.
Qed.

(** X20. The manifest is checked before anything else: when it is not
    a file the run raises [FileNotFoundError] with the message naming
    it, and when it cannot be loaded the loader's exception propagates;
    in both cases the store is untouched, no PDF is looked at and no
    index is built. *)
Theorem run_without_a_manifest (json_path : string) (w : world) :
  (os_path_isfile (VStr json_path) = Ok false ->
   run limit json_path w
   = Failed (FileNotFoundError ("JSON not found: " +:+ json_path))
       (World (graph w) (trace w ++ [IsFile (VStr json_path)]))) /\
  (forall e,
     os_path_isfile (VStr json_path) = Ok true ->
     json_load json_path = Raise e ->
     run limit json_path w
     = Failed e
         (World (graph w)
            (trace w ++ [IsFile (VStr json_path); JsonLoad json_path]))).
Proof.
  split.
  - intros Hf. unfold ingest_from_json.
    by rewrite (bind_call_ok _ _ _ _ _ Hf).
  - intros e Hf Hl. unfold ingest_from_json.
    rewrite (bind_call_ok _ _ _ _ _ Hf). cbn [negb].
    unfold bind, call, emit, bind, raise. rewrite Hl. simpl.
    by rewrite <- app_assoc.
Qed.

End Limit.

End Failures.

(** ** The statements of a run, in manifest order *)

Section Statements.

Variable os_path_isfile : value -> result bool.
Variable PdfReader : value -> result (list pdf_page).
Variable int_of_str : string -> option Z.
Variable RecursiveCharacterTextSplitter : Z -> Z -> result splitter.
Variables (chunk_size chunk_overlap : Z).
Variable split_text : splitter.
Hypothesis splitter_ok :
  RecursiveCharacterTextSplitter chunk_size chunk_overlap = Ok split_text.

Local Abbreviation item_step :=
  (ingest_item os_path_isfile PdfReader int_of_str
     RecursiveCharacterTextSplitter chunk_size chunk_overlap).
Local Abbreviation loop :=
  (ingest_loop os_path_isfile PdfReader int_of_str
     RecursiveCharacterTextSplitter chunk_size chunk_overlap).
Local Abbreviation query_for :=
  (entry_query os_path_isfile PdfReader int_of_str split_text).

Lemma entry_query_skipped (item : gmap string value) :
  skipped_entry os_path_isfile item -> query_for item = None.
Proof.
  unfold skipped_entry, entry_query.
  destruct (resolved_path item) as [| | | |p| |]; try done.
  change (truthy (VStr p)) with (str_truthy p).
  intros [->| ->]; [done|]. by destruct (str_truthy p).
Qed.

Lemma ingest_loop_statements_from (limit : option Z)
    (items : list (gmap string value)) (n : Z) (w : world) :
  Forall (fun item => valid_entry os_path_isfile PdfReader item \/
                      skipped_entry os_path_isfile item) items ->
  let qs :=
    up_to (option_map (fun lim => lim - n) limit) (omap query_for items) in
  exists w',
    loop limit items n w = Done (n + Z.of_nat (length qs)) w' /\
    graph w' = apply_queries qs (graph w) /\
    queries (trace w') = queries (trace w) ++ qs.
Proof.
  revert n w. induction items as [|item items IH]; intros n w Hall qs.
  - exists w. subst qs. destruct limit as [lim|]; simpl.
    + rewrite take_nil, Z.add_0_r, app_nil_r. done.
    + rewrite Z.add_0_r, app_nil_r. done.
  - apply Forall_cons in Hall as [Hitem Hall].
    rewrite ingest_loop_cons.
    destruct (limit_reached limit n) eqn:Elim.
    { unfold limit_reached in Elim. destruct limit as [lim|]; [|done].
      apply Z.leb_le in Elim. exists w. subst qs. simpl.
      replace (Z.to_nat (lim - n)) with 0%nat by lia.
      rewrite take_0, Z.add_0_r, app_nil_r. done. }
    assert (Hbelow : forall lim, limit = Some lim -> n < lim).
    { intros lim Hl. unfold limit_reached in Elim. rewrite Hl in Elim.
      by apply Z.leb_gt in Elim. }
    unfold bind. destruct Hitem as [(p & Hp & Hne & Hf & pages & Hr)|Hskip].
    + rewrite (ingest_item_valid os_path_isfile PdfReader int_of_str
                 RecursiveCharacterTextSplitter chunk_size chunk_overlap
                 split_text item p pages n w splitter_ok Hp Hne Hf Hr).
      cbv beta iota zeta.
      set (q := item_query int_of_str split_text item p (map page_text pages)).
      assert (Hq : query_for item = Some q).
      { unfold entry_query. rewrite Hp. apply str_truthy_true in Hne.
        by rewrite Hne, Hf, Hr. }
      match goal with |- context [loop limit items (n + 1) ?w1] =>
        destruct (IH (n + 1) w1 Hall) as (w' & Hrun & Hg & Htr) end.
      cbv zeta in Hrun, Hg, Htr. cbn [graph trace] in Hg, Htr.
      assert (Hqs : qs = q :: up_to (option_map (fun lim => lim - (n + 1))
                                       limit) (omap query_for items)).
      { subst qs. cbn [omap list_omap]. rewrite Hq.
        destruct limit as [lim|]; [|done]. specialize (Hbelow lim eq_refl).
        cbn [option_map up_to].
        replace (Z.to_nat (lim - n)) with (S (Z.to_nat (lim - (n + 1))))
          by lia.
        done. }
      exists w'. rewrite Hrun, Hqs. split; [|split].
      * f_equal. cbn [length]. lia.
      * by rewrite Hg.
      * rewrite Htr. unfold queries. rewrite omap_app. simpl.
        by rewrite <- app_assoc.
    + destruct (ingest_item_skipped os_path_isfile PdfReader int_of_str
                  RecursiveCharacterTextSplitter chunk_size chunk_overlap
                  item n w Hskip) as (w1 & Hw1 & Hg1 & Hq1).
      rewrite Hw1. destruct (IH n w1 Hall) as (w' & Hrun & Hg & Htr).
      cbv zeta in Hrun, Hg, Htr.
      assert (Hqs : qs = up_to (option_map (fun lim => lim - n) limit)
                           (omap query_for items)).
      { subst qs. cbn [omap list_omap].
        by rewrite (entry_query_skipped item Hskip). }
      exists w'. rewrite Hrun, Hqs. split; [done|]. split.
      * by rewrite Hg, Hg1.
      * by rewrite Htr, Hq1.
Qed.

(** X21. What a run of the loop sends: on a manifest each of whose
    entries is either ingested or skipped, the loop returns, and the
    statements it has sent are the statements of the entries that name
    a readable PDF, one each, in the order of the manifest, cut off
    after the first [limit] of them; the count is their number and the
    store is the one they leave. *)
Theorem loop_sends_statements_in_manifest_order (limit : option Z)
    (items : list (gmap string value)) (w : world) :
  Forall (fun item => valid_entry os_path_isfile PdfReader item \/
                      skipped_entry os_path_isfile item) items ->
  let qs := up_to limit (omap query_for items) in
  exists w',
    loop limit items 0 w = Done (Z.of_nat (length qs)) w' /\
    graph w' = apply_queries qs (graph w) /\
    queries (trace w') = queries (trace w) ++ qs.
Proof.
  intros Hall qs.
  destruct (ingest_loop_statements_from limit items 0 w Hall)
    as (w' & Hrun & Hg & Htr).
  cbv zeta in Hrun, Hg, Htr.
  assert (Hqs : up_to (option_map (fun lim => lim - 0) limit)
                  (omap query_for items) = qs).
  { subst qs. destruct limit as [lim|]; [|done]. simpl.
    by rewrite Z.sub_0_r. }
  rewrite Hqs in Hrun, Hg, Htr. exists w'. by rewrite Hrun.
Qed.

End Statements.

(** ** The further properties at work on the concrete manifest *)

Lemma processed_never_exceeds_limit_witness :
  0 <= 2 <= 2 /\ 2 <= Z.of_nat (length Demo.manifest).
Proof.
  apply (processed_never_exceeds_limit Demo.os_path_isfile Demo.PdfReader
           Demo.int_of_str Demo.RecursiveCharacterTextSplitter 1000 200 2
           Demo.manifest 2 Demo.w0
           (final_world (Demo.loop (Some 2) Demo.manifest 0 Demo.w0))).
  - lia.
  - vm_compute. reflexivity.
Defined.

Lemma one_statement_per_processed_entry_witness :
  Z.of_nat
    (length (queries (trace (final_world
                               (Demo.loop None Demo.manifest 0 Demo.w0)))))
  = Z.of_nat (length (queries (trace Demo.w0))) + (5 - 0).
Proof.
  apply (one_statement_per_processed_entry Demo.os_path_isfile Demo.PdfReader
           Demo.int_of_str Demo.RecursiveCharacterTextSplitter 1000 200 None
           Demo.manifest 0 5 Demo.w0).
  vm_compute. reflexivity.
Defined.

Lemma run_keeps_keys_unique_witness :
  unique_keys (graph (final_world (Demo.run None Demo.w0))).
Proof.
  apply (run_keeps_keys_unique Demo.os_path_isfile Demo.json_load
           Demo.PdfReader Demo.int_of_str Demo.RecursiveCharacterTextSplitter
           "pdf_chunks" "qwen3-embedding:0.6b" 1000 200 None "manifest.json"
           Demo.w0).
  split; simpl; constructor.
Defined.

(** The chunk after the blank split of [docs/a.pdf] is stored under the
    key (path, 1, 2). *)
Lemma ingested_chunks_are_stored_witness :
  exists w',
    Demo.item_step (Demo.entry "docs/a.pdf") 0 Demo.w0 = Done 1 w' /\
    exists c, c ∈ chunk_nodes (graph w') /\
              chunk_key c = (VStr "docs/a.pdf", 1, 2) /\
              c_content c = "beta"%string.
Proof.
  destruct (ingested_chunks_are_stored Demo.os_path_isfile Demo.PdfReader
              Demo.int_of_str Demo.RecursiveCharacterTextSplitter 1000 200
              Demo.split_text (Demo.entry "docs/a.pdf") "docs/a.pdf"
              [Ok (Some "alpha| |beta"%string);
               Raise (PyException "KeyError"); Ok (Some "gamma"%string)]
              0 Demo.w0) as (w' & Hstep & Hstored);
    [reflexivity|reflexivity|done|reflexivity|reflexivity|].
  exists w'. split; [exact Hstep|].
  destruct (Hstored (Chunk 1 2 "beta")) as ((c & Hin & Hkey) & Htext & _).
  { vm_compute. apply elem_of_cons. right. apply elem_of_cons. by left. }
  exists c. split; [exact Hin|]. split; [exact Hkey|].
  exact (Htext c Hin Hkey).
Defined.

(** An empty [title] gives way to [Title]; the file name and the MIME
    type fall back. *)
Lemma first_truthy_field_wins_witness :
  exists w',
    Demo.item_step
      (<[ "title" := VStr "" ]>
         (<[ "Title" := VStr "Report" ]> (Demo.entry "docs/a.pdf")))
      0 Demo.w0
    = Done 1 w' /\
    (exists d, d ∈ documents (graph w') /\ d_path d = VStr "docs/a.pdf") /\
    forall d,
      d ∈ documents (graph w') -> d_path d = VStr "docs/a.pdf" ->
      d_title d = VStr "Report" /\
      d_file_name d = VStr "a.pdf" /\
      d_mime_type d = VStr "application/pdf".
Proof.
  exact (first_truthy_field_wins Demo.os_path_isfile Demo.PdfReader
           Demo.int_of_str Demo.RecursiveCharacterTextSplitter 1000 200
           Demo.split_text
           (<[ "title" := VStr "" ]>
              (<[ "Title" := VStr "Report" ]> (Demo.entry "docs/a.pdf")))
           "docs/a.pdf"
           [Ok (Some "alpha| |beta"%string);
            Raise (PyException "KeyError"); Ok (Some "gamma"%string)]
           0 Demo.w0 eq_refl eq_refl
           ltac:(done) eq_refl eq_refl).
Defined.

(** A descriptor that says 7 pages for the three-page [docs/a.pdf]. *)
Lemma page_count_of_a_document_with_chunks_witness :
  exists w',
    Demo.item_step (<[ "PageCount" := VInt 7 ]> (Demo.entry "docs/a.pdf")) 0
      Demo.w0
    = Done 1 w' /\
    forall d,
      d ∈ documents (graph w') -> d_path d = VStr "docs/a.pdf" ->
      d_page_count d = 7.
Proof.
  destruct (page_count_of_a_document_with_chunks Demo.os_path_isfile
              Demo.PdfReader Demo.int_of_str
              Demo.RecursiveCharacterTextSplitter 1000 200 Demo.split_text
              (<[ "PageCount" := VInt 7 ]> (Demo.entry "docs/a.pdf"))
              "docs/a.pdf"
              [Ok (Some "alpha| |beta"%string);
               Raise (PyException "KeyError"); Ok (Some "gamma"%string)]
              0 Demo.w0) as (w' & Hstep & Hcount);
    [reflexivity|reflexivity|done|reflexivity|reflexivity|done|].
  exists w'. split; [exact Hstep|].
  intros d Hin Hpath. destruct (Hcount d Hin Hpath) as (Hgiven & _).
  apply (Hgiven 7); [reflexivity|lia].
Defined.

Lemma chunk_pages_of_appended_pages_witness :
  chunk_pages Demo.RecursiveCharacterTextSplitter
    (["alpha| |beta"; ""]%string ++ ["gamma"]%string) 1000 200
  = Ok ([Chunk 1 0 "alpha"; Chunk 1 2 "beta"]
        ++ map (shift_page 2) [Chunk 1 0 "gamma"]).
Proof.
  apply (chunk_pages_of_appended_pages Demo.RecursiveCharacterTextSplitter
           ["alpha| |beta"; ""]%string ["gamma"]%string 1000 200);
    reflexivity.
Defined.

Lemma chunk_pages_empty_iff_witness :
  chunk_pages Demo.RecursiveCharacterTextSplitter [""; " | "]%string 1000 200
  = Ok [] <->
  Forall (fun page_text =>
            page_text = EmptyString \/
            Forall (fun part => all_space part = true)
              (Demo.split_text page_text))
    [""; " | "]%string.
Proof.
  apply (chunk_pages_empty_iff Demo.RecursiveCharacterTextSplitter
           [""; " | "]%string 1000 200 Demo.split_text).
  reflexivity.
Defined.

(** [docs/b.pdf] cannot be opened: the run stops there, with the one
    statement of [docs/a.pdf] sent. *)
Lemma unreadable_pdf_aborts_the_loop_witness :
  ingest_loop Demo.os_path_isfile Corrupt.PdfReader Demo.int_of_str
    Demo.RecursiveCharacterTextSplitter 1000 200 None
    ([Demo.entry "docs/a.pdf"]
     ++ Demo.entry "docs/b.pdf" :: [Demo.entry "docs/c.pdf"]) 0 Demo.w0
  = Failed (PyException "PdfReadError")
      (World
         (graph (final_world
                   (Demo.item_step (Demo.entry "docs/a.pdf") 0 Demo.w0)))
         (trace (final_world
                   (Demo.item_step (Demo.entry "docs/a.pdf") 0 Demo.w0))
          ++ [IsFile (VStr "docs/b.pdf"); IsFile (VStr "docs/b.pdf");
              ReadPdf (VStr "docs/b.pdf")])).
Proof.
  apply (unreadable_pdf_aborts_the_loop Demo.os_path_isfile Corrupt.PdfReader
           Demo.int_of_str Demo.RecursiveCharacterTextSplitter 1000 200 None
           [Demo.entry "docs/a.pdf"] [Demo.entry "docs/c.pdf"]
           (Demo.entry "docs/b.pdf") "docs/b.pdf"
           (PyException "PdfReadError") 0 1 Demo.w0
           (final_world
              (Demo.item_step (Demo.entry "docs/a.pdf") 0 Demo.w0))).
  - vm_compute. reflexivity.
  - reflexivity.
  - reflexivity.
  - done.
  - reflexivity.
  - reflexivity.
Defined.

(** A chunk size of 0 is rejected: the first entry that names a file
    raises, after the missing one has been skipped. *)
Lemma rejected_chunk_parameters_abort_the_loop_witness :
  ingest_loop Demo.os_path_isfile Demo.PdfReader Demo.int_of_str
    Demo.RecursiveCharacterTextSplitter 0 0 None
    ([Demo.missing_entry]
     ++ Demo.entry "docs/a.pdf" :: [Demo.entry "docs/b.pdf"]) 0 Demo.w0
  = Failed (ValueError "bad chunk size or overlap")
      (World empty_graph
         [IsFile (VStr "docs/missing.pdf"); IsFile (VStr "docs/a.pdf");
          IsFile (VStr "docs/a.pdf"); ReadPdf (VStr "docs/a.pdf")]).
Proof.
  apply (rejected_chunk_parameters_abort_the_loop Demo.os_path_isfile
           Demo.PdfReader Demo.int_of_str Demo.RecursiveCharacterTextSplitter
           0 0 None [Demo.missing_entry] [Demo.entry "docs/b.pdf"]
           (Demo.entry "docs/a.pdf") "docs/a.pdf"
           [Ok (Some "alpha| |beta"%string);
            Raise (PyException "KeyError"); Ok (Some "gamma"%string)]
           (ValueError "bad chunk size or overlap") 0 0 Demo.w0
           (World empty_graph [IsFile (VStr "docs/missing.pdf")])).
  - reflexivity.
  - vm_compute. reflexivity.
  - reflexivity.
  - reflexivity.
  - done.
  - reflexivity.
  - reflexivity.
Defined.

(** Three readable entries and a missing one, with a limit of 2: two
    are counted. *)
Lemma loop_counts_readable_entries_up_to_limit_witness :
  exists w',
    Demo.loop (Some 2)
      [Demo.entry "docs/a.pdf"; Demo.missing_entry; Demo.entry "docs/b.pdf";
       Demo.entry "docs/c.pdf"] 0 Demo.w0
    = Done 2 w'.
Proof.
  apply (loop_counts_readable_entries_up_to_limit Demo.os_path_isfile
           Demo.PdfReader Demo.int_of_str Demo.RecursiveCharacterTextSplitter
           1000 200 (Some 2) Demo.split_text
           [Demo.entry "docs/a.pdf"; Demo.missing_entry;
            Demo.entry "docs/b.pdf"; Demo.entry "docs/c.pdf"] Demo.w0).
  - reflexivity.
  - apply Forall_cons; split;
      [left; apply demo_entry_valid; (done || eauto)|].
    apply Forall_cons; split; [right; right; reflexivity|].
    apply Forall_cons; split;
      [left; apply demo_entry_valid; (done || eauto)|].
    apply Forall_cons; split;
      [left; apply demo_entry_valid; (done || eauto)|].
    constructor.
Defined.

(** A missing file, then two readable ones, with a limit of 1: the one
    statement sent is the upsert of [docs/a.pdf]. *)
Lemma loop_sends_statements_in_manifest_order_witness :
  exists w',
    Demo.loop (Some 1)
      [Demo.missing_entry; Demo.entry "docs/a.pdf"; Demo.entry "docs/b.pdf"]
      0 Demo.w0
    = Done 1 w' /\
    queries (trace w')
    = [UpsertDocument
         (DocParams (VStr "docs/a.pdf") (VStr "a.pdf") (VStr "a.pdf") 3
            (VStr "application/pdf"))
         [Chunk 1 0 "alpha"; Chunk 1 2 "beta"; Chunk 3 0 "gamma"]].
Proof.
  destruct (loop_sends_statements_in_manifest_order Demo.os_path_isfile
              Demo.PdfReader Demo.int_of_str
              Demo.RecursiveCharacterTextSplitter 1000 200 Demo.split_text
              eq_refl (Some 1)
              [Demo.missing_entry; Demo.entry "docs/a.pdf";
               Demo.entry "docs/b.pdf"] Demo.w0)
    as (w' & Hrun & _ & Htr).
  - apply Forall_cons; split; [right; right; reflexivity|].
    apply Forall_cons; split;
      [left; apply demo_entry_valid; (done || eauto)|].
    apply Forall_cons; split;
      [left; apply demo_entry_valid; (done || eauto)|].
    constructor.
  - exists w'. split; [exact Hrun|exact Htr].
Defined.

(** [docs/a.pdf] is counted with its one upsert. *)
Lemma returned_entry_is_skipped_or_counted_witness :
  exists q,
    graph (final_world (Demo.item_step (Demo.entry "docs/a.pdf") 0 Demo.w0))
    = run_query q (graph Demo.w0) /\
    queries (trace (final_world
                      (Demo.item_step (Demo.entry "docs/a.pdf") 0 Demo.w0)))
    = queries (trace Demo.w0) ++ [q].
Proof.
  destruct (returned_entry_is_skipped_or_counted Demo.os_path_isfile
              Demo.PdfReader Demo.int_of_str
              Demo.RecursiveCharacterTextSplitter 1000 200
              (Demo.entry "docs/a.pdf") 0 1 Demo.w0
              (final_world
                 (Demo.item_step (Demo.entry "docs/a.pdf") 0 Demo.w0)))
    as [[Hskip _]|[_ Hsent]].
  - vm_compute. reflexivity.
  - discriminate Hskip.
  - exact Hsent.
Defined.

(** The run on the five-entry manifest returns 5 and ends with the index
    build and the report of 5. *)
Lemma index_built_once_at_the_end_witness :
  exists evs,
    trace (final_world (Demo.run None Demo.w0))
    = trace Demo.w0 ++ evs ++ [BuildIndex "pdf_chunks" "qwen3-embedding:0.6b";
                               Report 5 "pdf_chunks"] /\
    Forall before_index evs.
Proof.
  apply (index_built_once_at_the_end Demo.os_path_isfile Demo.json_load
           Demo.PdfReader Demo.int_of_str Demo.RecursiveCharacterTextSplitter
           "pdf_chunks" "qwen3-embedding:0.6b" 1000 200 None "manifest.json"
           5 Demo.w0).
  vm_compute. reflexivity.
Defined.
